(** * Wallet database (src/wallet/walletdb.cpp): record codec, load pipeline,
      writers and readers, selective and full erase, keys-only recovery
      filter, periodic compaction and backup rotation.

    The development is a shallow embedding of the functions of walletdb.cpp.
    Everything the file calls but does not define (the serialization
    framework, the key-value engine, the wallet model, the key and hash
    primitives, the file system) is either a field of the record [Env] or a
    small model introduced with a comment that says so. *)

From Stdlib Require Import ZArith NArith Bool String Ascii List Lia.
From stdpp Require Import base decidable countable option list gmap sorting.
Import ListNotations.

Local Open Scope string_scope.
Local Open Scope list_scope.
Local Open Scope Z_scope.

(** ** Plain data *)

(** [std::vector<unsigned char>] and the types that serialize like it
    ([CPrivKey], [CScript], the encrypted secret of a [ckey] record). *)
Definition bytes := list Byte.byte.

(** [uint256] and [uint160] as the number they hold; [IsNull] is [= 0]. *)
Abbreviation uint256 := N (only parsing).
Abbreviation uint160 := N (only parsing).

Definition CPubKey := bytes.
Definition CPrivKey := bytes.
Definition CScript := bytes.
Definition CKey := bytes.

(** Opaque payloads: the codec only moves them between stream and wallet. *)
Definition CMasterKey := bytes.
Definition CKeyMetadata := bytes.
Definition CKeyPool := bytes.
Definition CHDChain := bytes.

Definition INT_MAX : Z := 2147483647.
Definition UINT_MOD : Z := 4294967296.

(** [x++] on an [unsigned int]. *)
Definition uint_incr (x : Z) : Z := (x + 1) mod UINT_MOD.

(** [a + b] on [unsigned int]. *)
Definition uint_add (a b : Z) : Z := (a + b) mod UINT_MOD.

(** A [char] assigned to an [unsigned int]: its value modulo 2^32.  The
    value of a [char] is -128..127 where [char] is signed and 0..255 where it
    is unsigned; a negative one becomes its value plus 2^32. *)
Definition uint_of_char (c : Z) : Z := c mod UINT_MOD.

(** The fields of [CWalletTx] that walletdb.cpp reads or writes; [wtx_hash]
    is the value of [GetHash()], [wtx_vin_empty] of [tx->vin.empty()].  The
    class is declared in wallet.h, so the integer fields are kept as [Z]:
    [fTimeReceivedIsTxTime] is an [unsigned int], to which what is assigned
    is converted, and [nOrderPos] an [int64_t]. *)
Record CWalletTx := mkWalletTx {
  wtx_hash : uint256;
  wtx_vin_empty : bool;
  fTimeReceivedIsTxTime : Z;
  nOrderPos : Z;
  wtx_payload : bytes
}.

Definition set_fTimeReceivedIsTxTime (v : Z) (wtx : CWalletTx) : CWalletTx :=
  {| wtx_hash := wtx_hash wtx; wtx_vin_empty := wtx_vin_empty wtx;
     fTimeReceivedIsTxTime := v; nOrderPos := nOrderPos wtx;
     wtx_payload := wtx_payload wtx |}.

(** The legacy [wkey] value. *)
Record CWalletKey := mkWalletKey {
  vchPrivKey : CPrivKey;
  wkey_rest : bytes
}.

Inductive CTxDestination :=
| CNoDestination
| CKeyID (h : uint160)
| CScriptID (h : uint160).

#[global] Instance CTxDestination_eq_dec : EqDecision CTxDestination.
Proof. solve_decision. Defined.

#[global] Instance CTxDestination_countable : Countable CTxDestination.
Proof.
  refine (inj_countable'
    (fun d => match d with
              | CNoDestination => inl tt
              | CKeyID h => inr (inl h)
              | CScriptID h => inr (inr h)
              end)
    (fun s => match s with
              | inl _ => CNoDestination
              | inr (inl h) => CKeyID h
              | inr (inr h) => CScriptID h
              end) _).
  intros []; reflexivity.
Defined.

Record CAddressBookData := mkAddressBookData {
  ab_name : string;
  ab_purpose : string
}.

Definition empty_address_book_data : CAddressBookData :=
  {| ab_name := EmptyString; ab_purpose := EmptyString |}.

Inductive DBErrors :=
| DB_LOAD_OK
| DB_CORRUPT
| DB_NONCRITICAL_ERROR
| DB_TOO_NEW
| DB_NEED_REWRITE.

#[global] Instance DBErrors_eq_dec : EqDecision DBErrors.
Proof. solve_decision. Defined.

(** ** Streams

    Modelled from the spec: the serialization framework (serialize.h,
    streams.h) is not part of the sources.  Following the record table of the
    spec, a [CDataStream] is the sequence of the fields still to be read;
    [>>] into a variable of some type takes the first field when it has that
    type and throws otherwise (also when the stream is exhausted), leaving the
    stream as it was. *)
Inductive item :=
| IString (s : string)
| IChar (c : Z)
| IInt (n : Z)
| IUInt (n : N)
| IInt64 (n : Z)
| IUInt64 (n : N)
| IUint256 (h : uint256)
| IUint160 (h : uint160)
| IPubKey (p : CPubKey)
| IBytes (v : bytes)
| IWalletTx (wtx : CWalletTx)
| IWalletKey (k : CWalletKey)
| IMasterKey (k : CMasterKey)
| IKeyMetadata (m : CKeyMetadata)
| IKeyPool (p : CKeyPool)
| IHDChain (c : CHDChain).

Definition CDataStream := list item.

Definition as_string (i : item) : option string :=
  match i with IString s => Some s | _ => None end.
Definition as_char (i : item) : option Z :=
  match i with IChar c => Some c | _ => None end.
Definition as_int (i : item) : option Z :=
  match i with IInt n => Some n | _ => None end.
Definition as_uint (i : item) : option N :=
  match i with IUInt n => Some n | _ => None end.
Definition as_int64 (i : item) : option Z :=
  match i with IInt64 n => Some n | _ => None end.
Definition as_uint64 (i : item) : option N :=
  match i with IUInt64 n => Some n | _ => None end.
Definition as_uint256 (i : item) : option uint256 :=
  match i with IUint256 h => Some h | _ => None end.
Definition as_uint160 (i : item) : option uint160 :=
  match i with IUint160 h => Some h | _ => None end.
Definition as_pubkey (i : item) : option CPubKey :=
  match i with IPubKey p => Some p | _ => None end.
Definition as_bytes (i : item) : option bytes :=
  match i with IBytes v => Some v | _ => None end.
Definition as_wallettx (i : item) : option CWalletTx :=
  match i with IWalletTx w => Some w | _ => None end.
Definition as_walletkey (i : item) : option CWalletKey :=
  match i with IWalletKey k => Some k | _ => None end.
Definition as_masterkey (i : item) : option CMasterKey :=
  match i with IMasterKey k => Some k | _ => None end.
Definition as_keymetadata (i : item) : option CKeyMetadata :=
  match i with IKeyMetadata m => Some m | _ => None end.
Definition as_keypool (i : item) : option CKeyPool :=
  match i with IKeyPool p => Some p | _ => None end.
Definition as_hdchain (i : item) : option CHDChain :=
  match i with IHDChain c => Some c | _ => None end.

(** [ss >> x]: the value read and the rest of the stream, or [None] for the
    exception. *)
Definition unserialize {A} (as_A : item -> option A) (ss : CDataStream)
  : option (A * CDataStream) :=
  match ss with
  | [] => None
  | i :: rest => match as_A i with
                 | Some a => Some (a, rest)
                 | None => None
                 end
  end.

(** ** The wallet model

    [CWallet] is declared in wallet.h.  The fields below are the members
    walletdb.cpp touches directly; every load-callback it invokes is appended
    to [wallet_calls] (oldest first), and the callbacks whose result the code
    branches on take that result from [Env]. *)
Inductive WalletCall :=
| CallLoadMinVersion (v : Z)
| CallLoadToWallet (wtx : CWalletTx)
| CallLoadWatchOnly (script : CScript)
| CallLoadKey (key : CKey) (pub : CPubKey)
| CallLoadCryptedKey (pub : CPubKey) (secret : bytes)
| CallLoadKeyMetadata (id : uint160) (meta : CKeyMetadata)
| CallLoadScriptMetadata (id : uint160) (meta : CKeyMetadata)
| CallLoadKeyPool (index : Z) (pool : CKeyPool)
| CallLoadCScript (script : CScript)
| CallLoadDestData (dest : CTxDestination) (key value : string)
| CallSetHDChain (chain : CHDChain)
| CallSetWalletFlags (flags : N)
| CallUpdateTimeFirstKey (t : Z)
| CallReorderTransactions.

Record CWallet := mkWallet {
  mapAddressBook : gmap CTxDestination CAddressBookData;
  mapMasterKeys : gmap N CMasterKey;
  nMasterKeyMaxID : N;
  nOrderPosNext : Z;
  walletVersion : Z;
  mapWallet : gmap N CWalletTx;
  nKeysLeftSinceAutoBackup : Z;
  wallet_calls : list WalletCall
}.

Definition set_mapAddressBook (m : gmap CTxDestination CAddressBookData)
  (w : CWallet) : CWallet :=
  {| mapAddressBook := m; mapMasterKeys := mapMasterKeys w;
     nMasterKeyMaxID := nMasterKeyMaxID w; nOrderPosNext := nOrderPosNext w;
     walletVersion := walletVersion w; mapWallet := mapWallet w;
     nKeysLeftSinceAutoBackup := nKeysLeftSinceAutoBackup w;
     wallet_calls := wallet_calls w |}.

Definition set_mapMasterKeys (m : gmap N CMasterKey) (w : CWallet) : CWallet :=
  {| mapAddressBook := mapAddressBook w; mapMasterKeys := m;
     nMasterKeyMaxID := nMasterKeyMaxID w; nOrderPosNext := nOrderPosNext w;
     walletVersion := walletVersion w; mapWallet := mapWallet w;
     nKeysLeftSinceAutoBackup := nKeysLeftSinceAutoBackup w;
     wallet_calls := wallet_calls w |}.

Definition set_nMasterKeyMaxID (n : N) (w : CWallet) : CWallet :=
  {| mapAddressBook := mapAddressBook w; mapMasterKeys := mapMasterKeys w;
     nMasterKeyMaxID := n; nOrderPosNext := nOrderPosNext w;
     walletVersion := walletVersion w; mapWallet := mapWallet w;
     nKeysLeftSinceAutoBackup := nKeysLeftSinceAutoBackup w;
     wallet_calls := wallet_calls w |}.

Definition set_nOrderPosNext (n : Z) (w : CWallet) : CWallet :=
  {| mapAddressBook := mapAddressBook w; mapMasterKeys := mapMasterKeys w;
     nMasterKeyMaxID := nMasterKeyMaxID w; nOrderPosNext := n;
     walletVersion := walletVersion w; mapWallet := mapWallet w;
     nKeysLeftSinceAutoBackup := nKeysLeftSinceAutoBackup w;
     wallet_calls := wallet_calls w |}.

Definition set_walletVersion (n : Z) (w : CWallet) : CWallet :=
  {| mapAddressBook := mapAddressBook w; mapMasterKeys := mapMasterKeys w;
     nMasterKeyMaxID := nMasterKeyMaxID w; nOrderPosNext := nOrderPosNext w;
     walletVersion := n; mapWallet := mapWallet w;
     nKeysLeftSinceAutoBackup := nKeysLeftSinceAutoBackup w;
     wallet_calls := wallet_calls w |}.

Definition set_mapWallet (m : gmap N CWalletTx) (w : CWallet) : CWallet :=
  {| mapAddressBook := mapAddressBook w; mapMasterKeys := mapMasterKeys w;
     nMasterKeyMaxID := nMasterKeyMaxID w; nOrderPosNext := nOrderPosNext w;
     walletVersion := walletVersion w; mapWallet := m;
     nKeysLeftSinceAutoBackup := nKeysLeftSinceAutoBackup w;
     wallet_calls := wallet_calls w |}.

Definition set_nKeysLeftSinceAutoBackup (n : Z) (w : CWallet) : CWallet :=
  {| mapAddressBook := mapAddressBook w; mapMasterKeys := mapMasterKeys w;
     nMasterKeyMaxID := nMasterKeyMaxID w; nOrderPosNext := nOrderPosNext w;
     walletVersion := walletVersion w; mapWallet := mapWallet w;
     nKeysLeftSinceAutoBackup := n;
     wallet_calls := wallet_calls w |}.

(** A load-callback was invoked. *)
Definition called (c : WalletCall) (w : CWallet) : CWallet :=
  {| mapAddressBook := mapAddressBook w; mapMasterKeys := mapMasterKeys w;
     nMasterKeyMaxID := nMasterKeyMaxID w; nOrderPosNext := nOrderPosNext w;
     walletVersion := walletVersion w; mapWallet := mapWallet w;
     nKeysLeftSinceAutoBackup := nKeysLeftSinceAutoBackup w;
     wallet_calls := wallet_calls w ++ [c] |}.

(** Modelled from the spec: [CWallet::LoadToWallet] (wallet.cpp) is not part
    of the sources.  The wallet model receives the decoded transaction and
    owns it from then on: it is kept in [mapWallet] under its hash, where
    [LoadWallet] finds it again with [mapWallet.at(hash)]. *)
Definition LoadToWallet (wtx : CWalletTx) (w : CWallet) : CWallet :=
  called (CallLoadToWallet wtx)
    (match mapWallet w !! wtx_hash wtx with
     | Some _ => w
     | None => set_mapWallet (<[wtx_hash wtx := wtx]> (mapWallet w)) w
     end).

Definition empty_wallet : CWallet :=
  {| mapAddressBook := ∅; mapMasterKeys := ∅; nMasterKeyMaxID := 0%N;
     nOrderPosNext := 0; walletVersion := 0; mapWallet := ∅;
     nKeysLeftSinceAutoBackup := 0; wallet_calls := [] |}.

(** ** The store

    A record of the store is a pair of streams, key and value.  The batch a
    [WalletBatch] works through holds the records in cursor order and the
    schedule of the engine's failures; the engine itself is described where
    its calls are defined. *)
Definition record : Type := CDataStream * CDataStream.

Record BerkeleyBatch := mkBatch {
  db_records : list record;
  db_faults : list bool
}.

(** ** External collaborators

    What walletdb.cpp calls and the sources do not define.  [CheckTransaction]
    returns the function's result and [state.IsValid()] afterwards;
    [CKey_Load pkey pub fSkipCheck] is [Some key] when [key.Load] returns
    true; [GetTransaction h] is the block hash when the transaction is found;
    [mapBlockIndex h] is the height of the block index entry, when there is
    one; [ReorderTransactions w b] is the result of the wallet's operation on
    the store [b], with the store as the operation leaves it. *)
Record Env := mkEnv {
  FEATURE_LATEST : Z;
  CLIENT_VERSION : Z;
  Hash : bytes -> uint256;
  Hash160 : bytes -> uint160;
  DecodeDestination : string -> CTxDestination;
  CPubKey_IsValid : CPubKey -> bool;
  CKey_Load : CPrivKey -> CPubKey -> bool -> option CKey;
  CheckTransaction : CWalletTx -> Z -> bool * bool;
  GetTransaction : uint256 -> option uint256;
  mapBlockIndex : uint256 -> option Z;
  LoadKey : CWallet -> CKey -> CPubKey -> bool;
  LoadCryptedKey : CWallet -> CPubKey -> bytes -> bool;
  LoadCScript : CWallet -> CScript -> bool;
  SetWalletFlags : CWallet -> N -> bool;
  ReorderTransactions : CWallet -> BerkeleyBatch -> DBErrors * BerkeleyBatch;
  GetKeyPoolSize : CWallet -> Z;
  IsLocked : CWallet -> bool
}.

(** ** Scan state (class [CWalletScanState]) *)
Record CWalletScanState := mkScanState {
  nKeys : Z;
  nCKeys : Z;
  nWatchKeys : Z;
  nKeyMeta : Z;
  m_unknown_records : Z;
  fIsEncrypted : bool;
  fAnyUnordered : bool;
  nFileVersion : Z;
  vWalletUpgrade : list uint256
}.

(** The state the constructor leaves. *)
Definition new_scan_state : CWalletScanState :=
  {| nKeys := 0; nCKeys := 0; nWatchKeys := 0; nKeyMeta := 0;
     m_unknown_records := 0; fIsEncrypted := false; fAnyUnordered := false;
     nFileVersion := 0; vWalletUpgrade := [] |}.

Definition incr_nKeys (s : CWalletScanState) : CWalletScanState :=
  {| nKeys := uint_incr (nKeys s); nCKeys := nCKeys s;
     nWatchKeys := nWatchKeys s; nKeyMeta := nKeyMeta s;
     m_unknown_records := m_unknown_records s;
     fIsEncrypted := fIsEncrypted s; fAnyUnordered := fAnyUnordered s;
     nFileVersion := nFileVersion s; vWalletUpgrade := vWalletUpgrade s |}.

Definition incr_nCKeys (s : CWalletScanState) : CWalletScanState :=
  {| nKeys := nKeys s; nCKeys := uint_incr (nCKeys s);
     nWatchKeys := nWatchKeys s; nKeyMeta := nKeyMeta s;
     m_unknown_records := m_unknown_records s;
     fIsEncrypted := fIsEncrypted s; fAnyUnordered := fAnyUnordered s;
     nFileVersion := nFileVersion s; vWalletUpgrade := vWalletUpgrade s |}.

Definition incr_nWatchKeys (s : CWalletScanState) : CWalletScanState :=
  {| nKeys := nKeys s; nCKeys := nCKeys s;
     nWatchKeys := uint_incr (nWatchKeys s); nKeyMeta := nKeyMeta s;
     m_unknown_records := m_unknown_records s;
     fIsEncrypted := fIsEncrypted s; fAnyUnordered := fAnyUnordered s;
     nFileVersion := nFileVersion s; vWalletUpgrade := vWalletUpgrade s |}.

Definition incr_nKeyMeta (s : CWalletScanState) : CWalletScanState :=
  {| nKeys := nKeys s; nCKeys := nCKeys s;
     nWatchKeys := nWatchKeys s; nKeyMeta := uint_incr (nKeyMeta s);
     m_unknown_records := m_unknown_records s;
     fIsEncrypted := fIsEncrypted s; fAnyUnordered := fAnyUnordered s;
     nFileVersion := nFileVersion s; vWalletUpgrade := vWalletUpgrade s |}.

Definition incr_unknown_records (s : CWalletScanState) : CWalletScanState :=
  {| nKeys := nKeys s; nCKeys := nCKeys s;
     nWatchKeys := nWatchKeys s; nKeyMeta := nKeyMeta s;
     m_unknown_records := uint_incr (m_unknown_records s);
     fIsEncrypted := fIsEncrypted s; fAnyUnordered := fAnyUnordered s;
     nFileVersion := nFileVersion s; vWalletUpgrade := vWalletUpgrade s |}.

Definition set_fIsEncrypted (b : bool) (s : CWalletScanState)
  : CWalletScanState :=
  {| nKeys := nKeys s; nCKeys := nCKeys s;
     nWatchKeys := nWatchKeys s; nKeyMeta := nKeyMeta s;
     m_unknown_records := m_unknown_records s;
     fIsEncrypted := b; fAnyUnordered := fAnyUnordered s;
     nFileVersion := nFileVersion s; vWalletUpgrade := vWalletUpgrade s |}.

Definition set_fAnyUnordered (b : bool) (s : CWalletScanState)
  : CWalletScanState :=
  {| nKeys := nKeys s; nCKeys := nCKeys s;
     nWatchKeys := nWatchKeys s; nKeyMeta := nKeyMeta s;
     m_unknown_records := m_unknown_records s;
     fIsEncrypted := fIsEncrypted s; fAnyUnordered := b;
     nFileVersion := nFileVersion s; vWalletUpgrade := vWalletUpgrade s |}.

Definition set_nFileVersion (v : Z) (s : CWalletScanState)
  : CWalletScanState :=
  {| nKeys := nKeys s; nCKeys := nCKeys s;
     nWatchKeys := nWatchKeys s; nKeyMeta := nKeyMeta s;
     m_unknown_records := m_unknown_records s;
     fIsEncrypted := fIsEncrypted s; fAnyUnordered := fAnyUnordered s;
     nFileVersion := v; vWalletUpgrade := vWalletUpgrade s |}.

(** [vWalletUpgrade.push_back(hash)] *)
Definition push_vWalletUpgrade (h : uint256) (s : CWalletScanState)
  : CWalletScanState :=
  {| nKeys := nKeys s; nCKeys := nCKeys s;
     nWatchKeys := nWatchKeys s; nKeyMeta := nKeyMeta s;
     m_unknown_records := m_unknown_records s;
     fIsEncrypted := fIsEncrypted s; fAnyUnordered := fAnyUnordered s;
     nFileVersion := nFileVersion s;
     vWalletUpgrade := vWalletUpgrade s ++ [h] |}.

(** ** Messages

    The texts [ReadKeyValue] leaves in [strErr], one constructor per format
    string, with the values that are formatted into it; [MsgEmpty] is the
    empty string. *)
Inductive message :=
| MsgEmpty
| MsgUpgradingTx (ver fTmp : Z) (hash : uint256)
| MsgRepairingTx (ver : Z) (hash : uint256)
| MsgPubKeyCorrupt
| MsgKeyPairCorrupt
| MsgPrivKeyCorrupt
| MsgLoadKeyFailed
| MsgDuplicateMasterKey (nID : N)
| MsgLoadCryptedKeyFailed
| MsgDefaultKeyCorrupt
| MsgLoadCScriptFailed
| MsgUnknownFlags.

(** ** The reader monad of [ReadKeyValue]

    [rkv] holds what [ReadKeyValue] receives by reference.  A computation
    yields [None] when the function leaves with [false], by [return false] or
    through its [catch (...)]; what it did to the state until then stays. *)
Record rkv := mkRkv {
  pwallet : CWallet;
  ssKey : CDataStream;
  ssValue : CDataStream;
  wss : CWalletScanState;
  strType : string;
  strErr : message
}.

Definition Rd (A : Type) : Type := rkv -> option A * rkv.

Definition ret {A} (a : A) : Rd A := fun st => (Some a, st).

Definition bind {A B} (m : Rd A) (k : A -> Rd B) : Rd B :=
  fun st => match m st with
            | (Some a, st') => k a st'
            | (None, st') => (None, st')
            end.

Definition leave {A} : Rd A := fun st => (None, st).

Declare Scope rd_scope.
Delimit Scope rd_scope with rd.
Notation "x <- m ;; k" := (bind m (fun x => k))
  (at level 100, m at next level, right associativity) : rd_scope.
Notation "m ;; k" := (bind m (fun _ => k))
  (at level 100, right associativity) : rd_scope.
Local Open Scope rd_scope.

(** [ssKey >> x] *)
Definition key_read {A} (as_A : item -> option A) : Rd A :=
  fun st => match unserialize as_A (ssKey st) with
            | Some (a, rest) =>
                (Some a, {| pwallet := pwallet st; ssKey := rest;
                            ssValue := ssValue st; wss := wss st;
                            strType := strType st; strErr := strErr st |})
            | None => (None, st)
            end.

(** [ssValue >> x] *)
Definition value_read {A} (as_A : item -> option A) : Rd A :=
  fun st => match unserialize as_A (ssValue st) with
            | Some (a, rest) =>
                (Some a, {| pwallet := pwallet st; ssKey := ssKey st;
                            ssValue := rest; wss := wss st;
                            strType := strType st; strErr := strErr st |})
            | None => (None, st)
            end.

(** [try { m } catch (...) {}] around a read into a variable that held [d]. *)
Definition try_catch {A} (m : Rd A) (d : A) : Rd A :=
  fun st => match m st with
            | (Some a, st') => (Some a, st')
            | (None, st') => (Some d, st')
            end.

Definition value_empty : Rd bool :=
  fun st => (Some (match ssValue st with [] => true | _ => false end), st).

Definition get_wallet : Rd CWallet := fun st => (Some (pwallet st), st).

Definition get_wss : Rd CWalletScanState := fun st => (Some (wss st), st).

Definition on_wallet (f : CWallet -> CWallet) : Rd unit :=
  fun st => (Some tt, {| pwallet := f (pwallet st); ssKey := ssKey st;
                         ssValue := ssValue st; wss := wss st;
                         strType := strType st; strErr := strErr st |}).

Definition on_wss (f : CWalletScanState -> CWalletScanState) : Rd unit :=
  fun st => (Some tt, {| pwallet := pwallet st; ssKey := ssKey st;
                         ssValue := ssValue st; wss := f (wss st);
                         strType := strType st; strErr := strErr st |}).

Definition set_strType (s : string) : Rd unit :=
  fun st => (Some tt, {| pwallet := pwallet st; ssKey := ssKey st;
                         ssValue := ssValue st; wss := wss st;
                         strType := s; strErr := strErr st |}).

Definition set_strErr (m : message) : Rd unit :=
  fun st => (Some tt, {| pwallet := pwallet st; ssKey := ssKey st;
                         ssValue := ssValue st; wss := wss st;
                         strType := strType st; strErr := m |}).

(** [strErr = ...; return false;] *)
Definition leave_with {A} (m : message) : Rd A := set_strErr m ;; leave.

(** A callback of the wallet model whose result the code tests: the result
    comes from [Env], the call is recorded. *)
Definition call_bool (result : CWallet -> bool) (c : WalletCall) : Rd bool :=
  w <- get_wallet ;; on_wallet (called c) ;; ret (result w).

(** [pwallet->mapAddressBook[dest]]: [operator[]] inserts a default entry
    when there is none. *)
Definition address_book_entry (dest : CTxDestination) (w : CWallet)
  : CAddressBookData :=
  default empty_address_book_data (mapAddressBook w !! dest).

Definition touch_address_book (dest : CTxDestination) (w : CWallet) : CWallet :=
  set_mapAddressBook
    (<[dest := address_book_entry dest w]> (mapAddressBook w)) w.

Definition set_address_name (dest : CTxDestination) (name : string)
  (w : CWallet) : CWallet :=
  set_mapAddressBook
    (<[dest := {| ab_name := name;
                  ab_purpose := ab_purpose (address_book_entry dest w) |}]>
       (mapAddressBook w)) w.

Definition set_address_purpose (dest : CTxDestination) (purpose : string)
  (w : CWallet) : CWallet :=
  set_mapAddressBook
    (<[dest := {| ab_name := ab_name (address_book_entry dest w);
                  ab_purpose := purpose |}]>
       (mapAddressBook w)) w.

(** ** [ReadKeyValue], branch by branch *)
Section Codec.
Context (E : Env).

Definition rkv_name : Rd unit :=
  strAddress <- key_read as_string ;;
  on_wallet (touch_address_book (DecodeDestination E strAddress)) ;;
  name <- value_read as_string ;;
  on_wallet (set_address_name (DecodeDestination E strAddress) name).

Definition rkv_purpose : Rd unit :=
  strAddress <- key_read as_string ;;
  on_wallet (touch_address_book (DecodeDestination E strAddress)) ;;
  purpose <- value_read as_string ;;
  on_wallet (set_address_purpose (DecodeDestination E strAddress) purpose).

(** The height handed to [CheckTransaction]. *)
Definition tx_check_height (wtx : CWalletTx) : Z :=
  if wtx_vin_empty wtx then INT_MAX
  else match GetTransaction E (wtx_hash wtx) with
       | Some hashBlock =>
           match mapBlockIndex E hashBlock with
           | Some nHeight => nHeight
           | None => INT_MAX
           end
       | None => INT_MAX
       end.

Definition tx_check (wtx : CWalletTx) (hash : uint256) : bool :=
  fst (CheckTransaction E wtx (tx_check_height wtx))
  && (wtx_hash wtx =? hash)%N
  && snd (CheckTransaction E wtx (tx_check_height wtx)).

(** "Undo serialize changes in 31600": the transaction as it goes on. *)
Definition rkv_tx_legacy (wtx : CWalletTx) (hash : uint256) : Rd CWalletTx :=
  if (31404 <=? fTimeReceivedIsTxTime wtx)%Z
     && (fTimeReceivedIsTxTime wtx <=? 31703)%Z
  then
    empty <- value_empty ;;
    wtx' <- (if negb empty then
               fTmp <- value_read as_char ;;
               fUnused <- value_read as_char ;;
               unused_string <- value_read as_string ;;
               set_strErr
                 (MsgUpgradingTx (fTimeReceivedIsTxTime wtx) fTmp hash) ;;
               ret (set_fTimeReceivedIsTxTime (uint_of_char fTmp) wtx)
             else
               set_strErr (MsgRepairingTx (fTimeReceivedIsTxTime wtx) hash) ;;
               ret (set_fTimeReceivedIsTxTime 0 wtx)) ;;
    on_wss (push_vWalletUpgrade hash) ;;
    ret wtx'
  else ret wtx.

Definition rkv_tx : Rd unit :=
  hash <- key_read as_uint256 ;;
  wtx <- value_read as_wallettx ;;
  if negb (tx_check wtx hash) then leave
  else
    wtx' <- rkv_tx_legacy wtx hash ;;
    (if (nOrderPos wtx' =? -1)%Z then on_wss (set_fAnyUnordered true)
     else ret tt) ;;
    on_wallet (LoadToWallet wtx').

(** ['1'] *)
Definition char_1 : Z := 49.

Definition rkv_watchs : Rd unit :=
  on_wss incr_nWatchKeys ;;
  script <- key_read as_bytes ;;
  fYes <- value_read as_char ;;
  if (fYes =? char_1)%Z then on_wallet (called (CallLoadWatchOnly script))
  else ret tt.

(** The private key of a [key] or [wkey] value. *)
Definition rkv_privkey (is_key : bool) : Rd CPrivKey :=
  if is_key then
    on_wss incr_nKeys ;;
    value_read as_bytes
  else
    wkey <- value_read as_walletkey ;;
    ret (vchPrivKey wkey).

(** The test of the trailing hash; the value is [fSkipCheck]. *)
Definition rkv_key_hash (vchPubKey : CPubKey) (pkey : CPrivKey)
  (hash : uint256) : Rd bool :=
  if negb (hash =? 0)%N then
    if negb (Hash E (vchPubKey ++ pkey)%list =? hash)%N
    then leave_with MsgKeyPairCorrupt
    else ret true
  else ret false.

(** [key.Load(pkey, vchPubKey, fSkipCheck)] and [pwallet->LoadKey]. *)
Definition rkv_key_load (vchPubKey : CPubKey) (pkey : CPrivKey)
  (fSkipCheck : bool) : Rd unit :=
  match CKey_Load E pkey vchPubKey fSkipCheck with
  | None => leave_with MsgPrivKeyCorrupt
  | Some key =>
      ok <- call_bool (fun w => LoadKey E w key vchPubKey)
                      (CallLoadKey key vchPubKey) ;;
      if negb ok then leave_with MsgLoadKeyFailed else ret tt
  end.

Definition rkv_key (is_key : bool) : Rd unit :=
  vchPubKey <- key_read as_pubkey ;;
  if negb (CPubKey_IsValid E vchPubKey) then leave_with MsgPubKeyCorrupt
  else
    pkey <- rkv_privkey is_key ;;
    hash <- try_catch (value_read as_uint256) 0%N ;;
    fSkipCheck <- rkv_key_hash vchPubKey pkey hash ;;
    rkv_key_load vchPubKey pkey fSkipCheck.

Definition rkv_mkey : Rd unit :=
  nID <- key_read as_uint ;;
  kMasterKey <- value_read as_masterkey ;;
  w <- get_wallet ;;
  match mapMasterKeys w !! nID with
  | Some _ => leave_with (MsgDuplicateMasterKey nID)
  | None =>
      on_wallet (fun w => set_mapMasterKeys
                            (<[nID := kMasterKey]> (mapMasterKeys w)) w) ;;
      if (nMasterKeyMaxID w <? nID)%N then on_wallet (set_nMasterKeyMaxID nID)
      else ret tt
  end.

Definition rkv_ckey : Rd unit :=
  vchPubKey <- key_read as_pubkey ;;
  if negb (CPubKey_IsValid E vchPubKey) then leave_with MsgPubKeyCorrupt
  else
    vchPrivKey <- value_read as_bytes ;;
    on_wss incr_nCKeys ;;
    ok <- call_bool (fun w => LoadCryptedKey E w vchPubKey vchPrivKey)
                    (CallLoadCryptedKey vchPubKey vchPrivKey) ;;
    if negb ok then leave_with MsgLoadCryptedKeyFailed
    else on_wss (set_fIsEncrypted true).

Definition rkv_keymeta : Rd unit :=
  vchPubKey <- key_read as_pubkey ;;
  keyMeta <- value_read as_keymetadata ;;
  on_wss incr_nKeyMeta ;;
  on_wallet (called (CallLoadKeyMetadata (Hash160 E vchPubKey) keyMeta)).

Definition rkv_watchmeta : Rd unit :=
  script <- key_read as_bytes ;;
  keyMeta <- value_read as_keymetadata ;;
  on_wss incr_nKeyMeta ;;
  on_wallet (called (CallLoadScriptMetadata (Hash160 E script) keyMeta)).

Definition rkv_defaultkey : Rd unit :=
  vchPubKey <- value_read as_pubkey ;;
  if negb (CPubKey_IsValid E vchPubKey) then leave_with MsgDefaultKeyCorrupt
  else ret tt.

Definition rkv_pool : Rd unit :=
  nIndex <- key_read as_int64 ;;
  keypool <- value_read as_keypool ;;
  on_wallet (called (CallLoadKeyPool nIndex keypool)).

Definition rkv_version : Rd unit :=
  v <- value_read as_int ;;
  on_wss (set_nFileVersion v) ;;
  if (v =? 10300)%Z then on_wss (set_nFileVersion 300) else ret tt.

Definition rkv_cscript : Rd unit :=
  hash <- key_read as_uint160 ;;
  script <- value_read as_bytes ;;
  ok <- call_bool (fun w => LoadCScript E w script) (CallLoadCScript script) ;;
  if negb ok then leave_with MsgLoadCScriptFailed else ret tt.

Definition rkv_orderposnext : Rd unit :=
  v <- value_read as_int64 ;;
  on_wallet (set_nOrderPosNext v).

Definition rkv_destdata : Rd unit :=
  strAddress <- key_read as_string ;;
  strKey <- key_read as_string ;;
  strValue <- value_read as_string ;;
  on_wallet (called (CallLoadDestData (DecodeDestination E strAddress)
                                      strKey strValue)).

Definition rkv_hdchain : Rd unit :=
  chain <- value_read as_hdchain ;;
  on_wallet (called (CallSetHDChain chain)).

Definition rkv_flags : Rd unit :=
  flags <- value_read as_uint64 ;;
  ok <- call_bool (fun w => SetWalletFlags E w flags)
                  (CallSetWalletFlags flags) ;;
  if negb ok then leave_with MsgUnknownFlags else ret tt.

Definition rkv_other (t : string) : Rd unit :=
  if negb (t =? "bestblock")%string && negb (t =? "bestblock_nomerkle")%string
     && negb (t =? "minversion")%string && negb (t =? "acentry")%string
  then on_wss incr_unknown_records
  else ret tt.

(** The [if]/[else if] chain on [strType]. *)
Definition rkv_dispatch (t : string) : Rd unit :=
  if (t =? "name")%string then rkv_name
  else if (t =? "purpose")%string then rkv_purpose
  else if (t =? "tx")%string then rkv_tx
  else if (t =? "watchs")%string then rkv_watchs
  else if (t =? "key")%string || (t =? "wkey")%string
       then rkv_key (t =? "key")%string
  else if (t =? "mkey")%string then rkv_mkey
  else if (t =? "ckey")%string then rkv_ckey
  else if (t =? "keymeta")%string then rkv_keymeta
  else if (t =? "watchmeta")%string then rkv_watchmeta
  else if (t =? "defaultkey")%string then rkv_defaultkey
  else if (t =? "pool")%string then rkv_pool
  else if (t =? "version")%string then rkv_version
  else if (t =? "cscript")%string then rkv_cscript
  else if (t =? "orderposnext")%string then rkv_orderposnext
  else if (t =? "destdata")%string then rkv_destdata
  else if (t =? "hdchain")%string then rkv_hdchain
  else if (t =? "flags")%string then rkv_flags
  else rkv_other t.

Definition rkv_body : Rd unit :=
  t <- key_read as_string ;;
  set_strType t ;;
  rkv_dispatch t.

(** [ReadKeyValue(pwallet, ssKey, ssValue, wss, strType, strErr)]: the value
    returned and the arguments as the call leaves them. *)
Definition ReadKeyValue (st : rkv) : bool * rkv :=
  match rkv_body st with
  | (Some _, st') => (true, st')
  | (None, st') => (false, st')
  end.

(** The arguments as the two callers set them up: fresh [strType], [strErr]. *)
Definition rkv_args (w : CWallet) (k v : CDataStream) (s : CWalletScanState)
  : rkv :=
  {| pwallet := w; ssKey := k; ssValue := v; wss := s;
     strType := EmptyString; strErr := MsgEmpty |}.

End Codec.

(** [WalletBatch::IsKeyType] *)
Definition IsKeyType (strType : string) : bool :=
  (strType =? "key")%string || (strType =? "wkey")%string
  || (strType =? "mkey")%string || (strType =? "ckey")%string.

(** ** The key-value engine

    Modelled from the spec: the engine ([BerkeleyBatch], db.h) and the
    [WriteIC]/[EraseIC] wrappers of walletdb.h are not part of the sources.
    The store maps a serialized key to a serialized value; [db_records] lists
    its records in cursor order.  Point read, write and erase, opening a
    cursor and reading at the cursor each are one call into the engine, and a
    call can fail: [db_faults] schedules the coming calls, one entry per call,
    [true] for a call that fails; past the end of the schedule no call
    fails.  A failed call changes no record.  The place a new key takes in the
    cursor order depends on the bytes of the key, which a stream of fields
    does not have: a new record goes to the end. *)
#[global] Instance byte_eq_dec : EqDecision Byte.byte := Byte.byte_eq_dec.

#[global] Instance CWalletTx_eq_dec : EqDecision CWalletTx.
Proof. solve_decision. Defined.

#[global] Instance CWalletKey_eq_dec : EqDecision CWalletKey.
Proof. solve_decision. Defined.

#[global] Instance item_eq_dec : EqDecision item.
Proof. solve_decision. Defined.

(** One call into the engine: whether it goes through, and the schedule
    left. *)
Definition engine_call (b : BerkeleyBatch) : bool * BerkeleyBatch :=
  match db_faults b with
  | [] => (true, b)
  | f :: fs => (negb f, {| db_records := db_records b; db_faults := fs |})
  end.

Fixpoint db_lookup (key : CDataStream) (recs : list record)
  : option CDataStream :=
  match recs with
  | [] => None
  | (k, v) :: rest => if bool_decide (k = key) then Some v
                      else db_lookup key rest
  end.

Fixpoint db_put (key value : CDataStream) (recs : list record) : list record :=
  match recs with
  | [] => [(key, value)]
  | (k, v) :: rest => if bool_decide (k = key) then (key, value) :: rest
                      else (k, v) :: db_put key value rest
  end.

Fixpoint db_del (key : CDataStream) (recs : list record) : list record :=
  match recs with
  | [] => []
  | (k, v) :: rest => if bool_decide (k = key) then db_del key rest
                      else (k, v) :: db_del key rest
  end.

(** [m_batch.Read(key, value)]: [None] when it returns false (the call
    failed, the key is absent, or the value does not unserialize). *)
Definition Read {A} (as_A : item -> option A) (key : CDataStream)
  (b : BerkeleyBatch) : option A * BerkeleyBatch :=
  let (ok, b') := engine_call b in
  if ok then
    match db_lookup key (db_records b') with
    | Some v => match unserialize as_A v with
                | Some (a, _) => (Some a, b')
                | None => (None, b')
                end
    | None => (None, b')
    end
  else (None, b').

(** [m_batch.Write(key, value, fOverwrite)] *)
Definition Write (key value : CDataStream) (fOverwrite : bool)
  (b : BerkeleyBatch) : bool * BerkeleyBatch :=
  let (ok, b') := engine_call b in
  if ok then
    if negb fOverwrite && bool_decide (is_Some (db_lookup key (db_records b')))
    then (false, b')
    else (true, {| db_records := db_put key value (db_records b');
                   db_faults := db_faults b' |})
  else (false, b').

(** [m_batch.Erase(key)]: erasing an absent key succeeds. *)
Definition Erase (key : CDataStream) (b : BerkeleyBatch)
  : bool * BerkeleyBatch :=
  let (ok, b') := engine_call b in
  if ok then (true, {| db_records := db_del key (db_records b');
                       db_faults := db_faults b' |})
  else (false, b').

(** [m_batch.GetCursor()]: the records the cursor will deliver, or [None]
    for the null pointer. *)
Definition GetCursor (b : BerkeleyBatch) : option (list record) * BerkeleyBatch :=
  let (ok, b') := engine_call b in
  if ok then (Some (db_records b'), b') else (None, b').

Inductive cursor_ret :=
| CursorRecord (ssKey ssValue : CDataStream)
| CursorNotFound
| CursorError.

(** [m_batch.ReadAtCursor(pcursor, ssKey, ssValue)] *)
Definition ReadAtCursor (pcursor : list record) (b : BerkeleyBatch)
  : cursor_ret * list record * BerkeleyBatch :=
  let (ok, b') := engine_call b in
  if ok then
    match pcursor with
    | [] => (CursorNotFound, [], b')
    | (k, v) :: rest => (CursorRecord k v, rest, b')
    end
  else (CursorError, pcursor, b').

Definition WriteIC (key value : CDataStream) (fOverwrite : bool)
  (b : BerkeleyBatch) : bool * BerkeleyBatch :=
  Write key value fOverwrite b.

Definition EraseIC (key : CDataStream) (b : BerkeleyBatch)
  : bool * BerkeleyBatch :=
  Erase key b.

(** ** Writers of [WalletBatch] *)

(** The serialized [std::make_pair(std::string(tag), x)]. *)
Definition tx_key (hash : uint256) : CDataStream :=
  [IString "tx"; IUint256 hash].
Definition pubkey_key (tag : string) (vchPubKey : CPubKey) : CDataStream :=
  [IString tag; IPubKey vchPubKey].

Definition WriteTx (wtx : CWalletTx) (b : BerkeleyBatch)
  : bool * BerkeleyBatch :=
  WriteIC (tx_key (wtx_hash wtx)) [IWalletTx wtx] true b.

Definition EraseTx (hash : uint256) (b : BerkeleyBatch)
  : bool * BerkeleyBatch :=
  EraseIC (tx_key hash) b.

Definition WriteCryptedKey (vchPubKey : CPubKey) (vchCryptedSecret : bytes)
  (keyMeta : CKeyMetadata) (b : BerkeleyBatch) : bool * BerkeleyBatch :=
  let (ok1, b1) :=
    WriteIC (pubkey_key "keymeta" vchPubKey) [IKeyMetadata keyMeta] true b in
  if negb ok1 then (false, b1)
  else
    let (ok2, b2) :=
      WriteIC (pubkey_key "ckey" vchPubKey) [IBytes vchCryptedSecret] false b1 in
    if negb ok2 then (false, b2)
    else
      let (_, b3) := EraseIC (pubkey_key "key" vchPubKey) b2 in
      let (_, b4) := EraseIC (pubkey_key "wkey" vchPubKey) b3 in
      (true, b4).

(** [m_batch.WriteVersion(nVersion)]: the engine keeps the schema version
    under the key ["version"]. *)
Definition WriteVersion (nVersion : Z) (b : BerkeleyBatch)
  : bool * BerkeleyBatch :=
  Write [IString "version"] [IInt nVersion] true b.

(** ** [WalletBatch::LoadWallet]

    What the function writes to the log is left out.  Inside its [try] block
    nothing throws: the engine reports a failure through the value it
    returns, and [ReadKeyValue] catches what the reads from the streams
    throw; so the [catch (...)] that sets [DB_CORRUPT] has no counterpart
    here.  [pwallet->ReorderTransactions ()] is the wallet's: it works on the
    store the wallet is kept in, through a batch of its own, and may rewrite
    what it finds there.  Here it is handed the store as [LoadWallet] has
    left it and gives back its result with the store as it leaves it; of what
    it does to the wallet the model keeps the call. *)

(** Modelled from the spec: [gArgs.SoftSetBoolArg] (util/system) sets an
    argument only when the operator has not set it; the argument here is
    [-rescan], which requests a full rescan on the next start. *)
Definition SoftSetBoolArg (arg : option bool) (v : bool) : option bool :=
  match arg with
  | Some _ => arg
  | None => Some v
  end.

(** The locals of [LoadWallet] that the scan loop changes, with the wallet
    behind [pwallet] and the [-rescan] argument. *)
Record load_state := mkLoad {
  l_wallet : CWallet;
  l_wss : CWalletScanState;
  l_fNoncriticalErrors : bool;
  l_result : DBErrors;
  l_rescan : option bool
}.

Section Load.
Context (E : Env).

(** What the loop does with one record read at the cursor. *)
Definition load_record (k v : CDataStream) (l : load_state) : load_state :=
  let (ok, st) := ReadKeyValue E (rkv_args (l_wallet l) k v (l_wss l)) in
  if negb ok then
    if IsKeyType (strType st) || (strType st =? "defaultkey")%string then
      {| l_wallet := pwallet st; l_wss := wss st;
         l_fNoncriticalErrors := l_fNoncriticalErrors l;
         l_result := DB_CORRUPT; l_rescan := l_rescan l |}
    else if (strType st =? "flags")%string then
      {| l_wallet := pwallet st; l_wss := wss st;
         l_fNoncriticalErrors := l_fNoncriticalErrors l;
         l_result := DB_TOO_NEW; l_rescan := l_rescan l |}
    else
      {| l_wallet := pwallet st; l_wss := wss st;
         l_fNoncriticalErrors := true;
         l_result := l_result l;
         l_rescan := if (strType st =? "tx")%string
                     then SoftSetBoolArg (l_rescan l) true
                     else l_rescan l |}
  else
    {| l_wallet := pwallet st; l_wss := wss st;
       l_fNoncriticalErrors := l_fNoncriticalErrors l;
       l_result := l_result l; l_rescan := l_rescan l |}.

(** The [while (true)] loop.  The first component is [false] when the loop
    is left by [return DBErrors::CORRUPT] (the read at the cursor failed) and
    [true] when it is left by [break]. *)
Fixpoint load_scan (pcursor : list record) (b : BerkeleyBatch)
  (l : load_state) : bool * BerkeleyBatch * load_state :=
  let (ok, b') := engine_call b in
  if ok then
    match pcursor with
    | [] => (true, b', l)
    | (k, v) :: rest => load_scan rest b' (load_record k v l)
    end
  else (false, b', l).

(** [for (hash : wss.vWalletUpgrade) WriteTx(pwallet->mapWallet.at(hash))];
    [false] when [at] throws. *)
Fixpoint rewrite_upgraded (hashes : list uint256) (w : CWallet)
  (b : BerkeleyBatch) : bool * BerkeleyBatch :=
  match hashes with
  | [] => (true, b)
  | hash :: rest =>
      match mapWallet w !! hash with
      | None => (false, b)
      | Some wtx => rewrite_upgraded rest w (snd (WriteTx wtx b))
      end
  end.

(** How a call of [LoadWallet] ends. *)
Inductive load_outcome :=
| Returns (r : DBErrors)
| Throws_out_of_range.

(** The part of [LoadWallet] after the [try] block, entered with the
    [result] and the flags the scan left. *)
Definition load_finalize (b : BerkeleyBatch) (l : load_state)
  : load_outcome * BerkeleyBatch * CWallet * option bool :=
  let result := if l_fNoncriticalErrors l && bool_decide (l_result l = DB_LOAD_OK)
                then DB_NONCRITICAL_ERROR else l_result l in
  let s := l_wss l in
  let w := set_walletVersion (nFileVersion s) (l_wallet l) in
  if negb (bool_decide (result = DB_LOAD_OK)) then
    (Returns result, b, w, l_rescan l)
  else
    let w1 := if negb (uint_add (uint_add (nKeys s) (nCKeys s)) (nWatchKeys s)
                       =? nKeyMeta s)%Z
              then called (CallUpdateTimeFirstKey 1) w else w in
    let (found, b1) := rewrite_upgraded (vWalletUpgrade s) w1 b in
    if negb found then (Throws_out_of_range, b1, w1, l_rescan l)
    else if fIsEncrypted s
            && ((nFileVersion s =? 40000)%Z || (nFileVersion s =? 50000)%Z)
    then (Returns DB_NEED_REWRITE, b1, w1, l_rescan l)
    else
      let b2 := if (nFileVersion s <? CLIENT_VERSION E)%Z
                then snd (WriteVersion (CLIENT_VERSION E) b1) else b1 in
      if fAnyUnordered s then
        let (r, b3) := ReorderTransactions E w1 b2 in
        (Returns r, b3, called CallReorderTransactions w1, l_rescan l)
      else (Returns result, b2, w1, l_rescan l).

Definition minversion_key : CDataStream := [IString "minversion"].

(** The locals as [LoadWallet] initializes them. *)
Definition load_start (w : CWallet) (rescan : option bool) : load_state :=
  {| l_wallet := w; l_wss := new_scan_state; l_fNoncriticalErrors := false;
     l_result := DB_LOAD_OK; l_rescan := rescan |}.

(** The wallet after the check of [minversion], when the check passes. *)
Definition load_minversion (nMinVersion : option Z) (w : CWallet) : CWallet :=
  match nMinVersion with
  | Some v => called (CallLoadMinVersion v) w
  | None => w
  end.

Definition too_new (nMinVersion : option Z) : bool :=
  match nMinVersion with
  | Some v => (FEATURE_LATEST E <? v)%Z
  | None => false
  end.

(** [LoadWallet(pwallet)] on the batch [b]: how the call ends, the batch, the
    wallet and the [-rescan] argument afterwards. *)
Definition LoadWallet (b : BerkeleyBatch) (w : CWallet) (rescan : option bool)
  : load_outcome * BerkeleyBatch * CWallet * option bool :=
  let (nMinVersion, b1) := Read as_int minversion_key b in
  if too_new nMinVersion then (Returns DB_TOO_NEW, b1, w, rescan)
  else
    let w1 := load_minversion nMinVersion w in
    match GetCursor b1 with
    | (None, b2) => (Returns DB_CORRUPT, b2, w1, rescan)
    | (Some pcursor, b2) =>
        match load_scan pcursor b2 (load_start w1 rescan) with
        | (false, b3, l) => (Returns DB_CORRUPT, b3, l_wallet l, l_rescan l)
        | (true, b3, l) => load_finalize b3 l
        end
    end.

End Load.

(** ** [FindWalletTx] and [ZapSelectTx] *)
Section Zap.
Context (E : Env).

(** The loop of [FindWalletTx] with the result it leads to: [DB_CORRUPT]
    returned from inside the loop, or set by the [catch (...)] when a read
    from a stream throws, and [DB_LOAD_OK] after [break]. *)
Fixpoint find_scan (pcursor : list record) (b : BerkeleyBatch)
  (vTxHash : list uint256) (vWtx : list CWalletTx)
  : DBErrors * BerkeleyBatch * list uint256 * list CWalletTx :=
  let (ok, b') := engine_call b in
  if ok then
    match pcursor with
    | [] => (DB_LOAD_OK, b', vTxHash, vWtx)
    | (ssKey, ssValue) :: rest =>
        match unserialize as_string ssKey with
        | None => (DB_CORRUPT, b', vTxHash, vWtx)
        | Some (strType, ssKey') =>
            if (strType =? "tx")%string then
              match unserialize as_uint256 ssKey' with
              | None => (DB_CORRUPT, b', vTxHash, vWtx)
              | Some (hash, _) =>
                  match unserialize as_wallettx ssValue with
                  | None => (DB_CORRUPT, b', vTxHash, vWtx)
                  | Some (wtx, _) =>
                      find_scan rest b' (vTxHash ++ [hash]) (vWtx ++ [wtx])
                  end
              end
            else find_scan rest b' vTxHash vWtx
        end
    end
  else (DB_CORRUPT, b', vTxHash, vWtx).

Definition FindWalletTx (b : BerkeleyBatch) (vTxHash : list uint256)
  (vWtx : list CWalletTx)
  : DBErrors * BerkeleyBatch * list uint256 * list CWalletTx :=
  let (nMinVersion, b1) := Read as_int minversion_key b in
  if too_new E nMinVersion then (DB_TOO_NEW, b1, vTxHash, vWtx)
  else
    match GetCursor b1 with
    | (None, b2) => (DB_CORRUPT, b2, vTxHash, vWtx)
    | (Some pcursor, b2) => find_scan pcursor b2 vTxHash vWtx
    end.

(** [std::sort] on a vector of [uint256]; the order is the one of
    [operator<], a strict total order, taken here on the numbers. *)
Definition sort_hashes (v : list uint256) : list uint256 :=
  merge_sort N.le v.

(** The inner [while] loop, which moves [it] forward as long as it is not at
    the end and points to a hash below [hash]; the iterator is the part of
    the vector from it on. *)
Fixpoint advance (hash : uint256) (it : list uint256) : list uint256 :=
  match it with
  | [] => []
  | x :: rest => if (x <? hash)%N then advance hash rest else it
  end.

(** The [for] loop over the sorted [vTxHash]: [delerror], the batch and
    [vTxHashOut] at its end. *)
Fixpoint zap_loop (vTxHash it : list uint256) (b : BerkeleyBatch)
  (delerror : bool) (vTxHashOut : list uint256)
  : bool * BerkeleyBatch * list uint256 :=
  match vTxHash with
  | [] => (delerror, b, vTxHashOut)
  | hash :: rest =>
      match advance hash it with
      | [] => (delerror, b, vTxHashOut)
      | x :: it' =>
          if (x =? hash)%N then
            let (ok, b') := EraseTx hash b in
            zap_loop rest (x :: it') b' (delerror || negb ok)
                     (vTxHashOut ++ [hash])
          else zap_loop rest (x :: it') b delerror vTxHashOut
      end
  end.

(** [ZapSelectTx(vTxHashIn, vTxHashOut)]: the value returned, the batch and
    the two vectors afterwards. *)
Definition ZapSelectTx (b : BerkeleyBatch) (vTxHashIn vTxHashOut : list uint256)
  : DBErrors * BerkeleyBatch * list uint256 * list uint256 :=
  match FindWalletTx b [] [] with
  | (err, b1, vTxHash, vWtx) =>
      if negb (bool_decide (err = DB_LOAD_OK)) then
        (err, b1, vTxHashIn, vTxHashOut)
      else
        match zap_loop (sort_hashes vTxHash) (sort_hashes vTxHashIn) b1 false
                       vTxHashOut with
        | (delerror, b2, out) =>
            (if delerror then DB_CORRUPT else DB_LOAD_OK, b2,
             sort_hashes vTxHashIn, out)
        end
  end.

(** ** [RecoverKeysOnlyFilter]

    [callbackData] points to a wallet, which the decoding changes; the value
    returned and that wallet afterwards. *)
Definition RecoverKeysOnlyFilter (dummyWallet : CWallet)
  (ssKey ssValue : CDataStream) : bool * CWallet :=
  let (fReadOK, st) :=
    ReadKeyValue E (rkv_args dummyWallet ssKey ssValue new_scan_state) in
  if negb (IsKeyType (strType st)) && negb (strType st =? "hdchain")%string
  then (false, pwallet st)
  else if negb fReadOK then (false, pwallet st)
  else (true, pwallet st).

End Zap.

(** ** [AutoBackupWallet]

    The file system as the function sees it.  [backups_files] lists the
    entries of the backup folder in the order the directory iterator delivers
    them; an entry has its file name, its last write time and whether it is a
    regular file.  [create_directories_ok], [copy_file_ok] and [undeletable]
    say which of the calls that change the file system go wrong:
    [fs::create_directories] returns false, [fs::copy_file] throws, and
    [fs::remove] throws for the names in [undeletable].  [dateTimeStr] is the
    value of [DateTimeStrFormat(".%Y-%m-%d-%H-%M", GetTime())] and
    [copy_mtime] the last write time the copy gets.  The order in which
    [fs::directory_iterator] delivers the entries of a directory is not
    specified: [backups_files] is any order, and [copy_index] is the place
    among them at which the iterator delivers the copy once it is there (at
    the end when [copy_index] is past the last entry). *)
Record file := mkFile {
  f_name : string;
  f_mtime : Z;
  f_regular : bool
}.

Record backup_world := mkWorld {
  nWalletBackups : Z;
  backups_exists : bool;
  backups_files : list file;
  source_exists : bool;
  create_directories_ok : bool;
  copy_file_ok : bool;
  undeletable : list string;
  dateTimeStr : string;
  copy_mtime : Z;
  copy_index : nat
}.

Definition set_nWalletBackups (n : Z) (wd : backup_world) : backup_world :=
  {| nWalletBackups := n; backups_exists := backups_exists wd;
     backups_files := backups_files wd; source_exists := source_exists wd;
     create_directories_ok := create_directories_ok wd;
     copy_file_ok := copy_file_ok wd; undeletable := undeletable wd;
     dateTimeStr := dateTimeStr wd; copy_mtime := copy_mtime wd;
     copy_index := copy_index wd |}.

Definition set_backups (exists_ : bool) (files : list file)
  (wd : backup_world) : backup_world :=
  {| nWalletBackups := nWalletBackups wd; backups_exists := exists_;
     backups_files := files; source_exists := source_exists wd;
     create_directories_ok := create_directories_ok wd;
     copy_file_ok := copy_file_ok wd; undeletable := undeletable wd;
     dateTimeStr := dateTimeStr wd; copy_mtime := copy_mtime wd;
     copy_index := copy_index wd |}.

(** The texts left in [strBackupWarning] and [strBackupError]; [BMsgEmpty]
    is the empty string, [BWarnDeleteFailed] carries the file the failure is
    about. *)
Inductive backup_message :=
| BMsgEmpty
| BErrCreateFolder
| BWarnLocked
| BWarnExists
| BWarnCopyFailed
| BWarnDeleteFailed (name : string).

(** [path::stem()] of Boost.Filesystem on a file name: the name up to its
    last dot, the whole name when it has no dot or is [.] or [..]. *)
Fixpoint before_last_dot_rev (r : list ascii) : option (list ascii) :=
  match r with
  | [] => None
  | c :: rest => if Ascii.eqb c "."%char then Some rest
                 else before_last_dot_rev rest
  end.

Definition stem (name : string) : string :=
  if (name =? ".")%string || (name =? "..")%string then name
  else match before_last_dot_rev (rev (list_ascii_of_string name)) with
       | Some r => string_of_list_ascii (rev r)
       | None => name
       end.

Definition file_exists (name : string) (files : list file) : bool :=
  existsb (fun f => (f_name f =? name)%string) files.

(** The entries of a directory once a file has been added to it, in the
    order of the iterator: the new entry takes place [i]. *)
Definition insert_entry (i : nat) (f : file) (files : list file)
  : list file :=
  take i files ++ f :: drop i files.

(** [fs::remove] of an entry that can be removed. *)
Definition remove_file (name : string) (files : list file) : list file :=
  List.filter (fun f => negb (f_name f =? name)%string) files.

(** [folder_set.insert]: a [std::multimap] keeps its entries by ascending
    key and puts a new entry behind the entries of the same key. *)
Fixpoint multimap_insert (f : file) (m : list file) : list file :=
  match m with
  | [] => [f]
  | g :: rest => if (f_mtime f <? f_mtime g)%Z then f :: m
                 else g :: multimap_insert f rest
  end.

(** Whether the directory loop puts the entry into [folder_set]. *)
Definition is_backup_of (strWalletFile : string) (f : file) : bool :=
  f_regular f && (stem (f_name f) =? strWalletFile)%string.

(** The directory loop: [folder_set] after it. *)
Fixpoint build_folder_set (strWalletFile : string) (files : list file)
  (folder_set : list file) : list file :=
  match files with
  | [] => folder_set
  | f :: rest =>
      build_folder_set strWalletFile rest
        (if is_backup_of strWalletFile f then multimap_insert f folder_set
         else folder_set)
  end.

(** The loop backward through [folder_set], entered with the entries still
    to visit (newest first) and [counter]: the name of the entry whose
    removal threw, if one did, and the folder afterwards. *)
Fixpoint sweep (todo : list file) (counter : Z) (wd : backup_world)
  (files : list file) : option string * list file :=
  match todo with
  | [] => (None, files)
  | f :: rest =>
      if (counter + 1 >? nWalletBackups wd)%Z then
        if bool_decide (f_name f ∈ undeletable wd) then (Some (f_name f), files)
        else sweep rest (counter + 1) wd (remove_file (f_name f) files)
      else sweep rest (counter + 1) wd files
  end.

Section Backup.
Context (E : Env).

(** "Keep only the last 10 backups": the part of the function from the
    directory loop on. *)
Definition retention (strWalletFile : string) (w : option CWallet)
  (wd : backup_world)
  : bool * backup_message * backup_message * option CWallet * backup_world :=
  match sweep (rev (build_folder_set strWalletFile (backups_files wd) []))
              0 wd (backups_files wd) with
  | (Some name, files) =>
      (false, BWarnDeleteFailed name, BMsgEmpty, w, set_backups true files wd)
  | (None, files) =>
      (true, BMsgEmpty, BMsgEmpty, w, set_backups true files wd)
  end.

(** [AutoBackupWallet(wallet, strWalletFile, strBackupWarning,
    strBackupError)]: the value returned, the two messages, the wallet and
    the world afterwards. *)
Definition AutoBackupWallet (wallet : option CWallet) (strWalletFile : string)
  (wd : backup_world)
  : bool * backup_message * backup_message * option CWallet * backup_world :=
  if (nWalletBackups wd >? 0)%Z then
    if negb (backups_exists wd) && negb (create_directories_ok wd) then
      (false, BMsgEmpty, BErrCreateFolder, wallet, set_nWalletBackups (-1) wd)
    else
      let wd1 := if backups_exists wd then wd else set_backups true [] wd in
      match wallet with
      | Some w =>
          let w' := set_nKeysLeftSinceAutoBackup (GetKeyPoolSize E w) w in
          if IsLocked E w' then
            (false, BWarnLocked, BMsgEmpty, Some w', set_nWalletBackups (-2) wd1)
          else retention strWalletFile (Some w') wd1
      | None =>
          let backupFile := String.append strWalletFile (dateTimeStr wd1) in
          if file_exists backupFile (backups_files wd1) then
            (false, BWarnExists, BMsgEmpty, None, wd1)
          else if source_exists wd1 then
            if copy_file_ok wd1 then
              retention strWalletFile None
                (set_backups true
                   (insert_entry (copy_index wd1)
                      {| f_name := backupFile; f_mtime := copy_mtime wd1;
                         f_regular := true |}
                      (backups_files wd1)) wd1)
            else
              (false, BWarnCopyFailed, BMsgEmpty, None,
               set_nWalletBackups (-1) wd1)
          else retention strWalletFile None wd1
      end
  else (false, BMsgEmpty, BMsgEmpty, wallet, wd).

End Backup.

(** ** Sample collaborators and inputs

    A concrete [Env] and concrete stores, on which the statements below are
    exercised. *)
Definition sample_env : Env :=
  {| FEATURE_LATEST := 169900;
     CLIENT_VERSION := 170000;
     Hash := fun v => N.succ (N.of_nat (length v));
     Hash160 := fun v => N.of_nat (length v);
     DecodeDestination :=
       fun s => if (s =? EmptyString)%string then CNoDestination
                else CKeyID (N.of_nat (String.length s));
     CPubKey_IsValid := fun p => match p with [] => false | _ => true end;
     CKey_Load :=
       fun pkey pub fSkipCheck =>
         match pkey with
         | [] => None
         | _ => if fSkipCheck then Some pkey
                else if (length pkey =? length pub)%nat then Some pkey
                     else None
         end;
     CheckTransaction := fun wtx nHeight => (true, true);
     GetTransaction := fun _ => None;
     mapBlockIndex := fun _ => None;
     LoadKey := fun _ _ _ => true;
     LoadCryptedKey := fun _ _ _ => true;
     LoadCScript := fun _ _ => true;
     SetWalletFlags := fun _ flags => (flags <? 4)%N;
     ReorderTransactions := fun _ b => (DB_LOAD_OK, b);
     GetKeyPoolSize := fun _ => 100;
     IsLocked := fun _ => false |}.

Definition sample_pubkey : CPubKey := [Byte.x02; Byte.x11].
Definition sample_privkey : CPrivKey := [Byte.x30; Byte.x01].

(** ** Vocabulary of the statements *)

(** A computation leaves a component of the state as it found it. *)
Definition keeps {X A} (proj : rkv -> X) (m : Rd A) : Prop :=
  forall st, proj (snd (m st)) = proj st.

(** The type tag of a record: the string its key starts with, empty when the
    key starts with no string. *)
Definition record_tag (k : CDataStream) : string :=
  match unserialize as_string k with
  | Some (t, _) => t
  | None => EmptyString
  end.

(** No coming call into the engine fails. *)
Definition no_faults (b : BerkeleyBatch) : Prop :=
  Forall (fun f => f = false) (db_faults b).

(** A store that asks for a version above [FEATURE_LATEST] of [sample_env],
    with a [key] record behind. *)
Definition too_new_batch : BerkeleyBatch :=
  {| db_records :=
       [ ([IString "minversion"], [IInt 999999]);
         ([IString "key"; IPubKey sample_pubkey], [IBytes sample_privkey]) ];
     db_faults := [] |}.

(** A transaction written by a version in the legacy window, and its record
    without the three extra fields. *)
Definition legacy_wtx : CWalletTx :=
  {| wtx_hash := 7%N; wtx_vin_empty := true; fTimeReceivedIsTxTime := 31500;
     nOrderPos := -1; wtx_payload := [] |}.

Definition legacy_tx_record : record :=
  ([IString "tx"; IUint256 7%N], [IWalletTx legacy_wtx]).

(** The two plaintext key records: the tag and the first field of the value
    of a [key] record ([is_key]) and of a [wkey] record. *)
Definition key_tag (is_key : bool) : string :=
  if is_key then "key" else "wkey".

Definition privkey_item (is_key : bool) (pkey : CPrivKey) (wkey_more : bytes)
  : item :=
  if is_key then IBytes pkey
  else IWalletKey {| vchPrivKey := pkey; wkey_rest := wkey_more |}.

(** The arguments of [ReadKeyValue] once the tag, the public key and the
    private key of a [key] or [wkey] record are read. *)
Definition after_privkey (is_key : bool) (w : CWallet) (kr rest : CDataStream)
  (s : CWalletScanState) : rkv :=
  {| pwallet := w; ssKey := kr; ssValue := rest;
     wss := if is_key then incr_nKeys s else s;
     strType := key_tag is_key; strErr := MsgEmpty |}.

(** The scan loop when no read at the cursor fails: every record of the
    store goes through [load_record], in cursor order. *)
Definition load_records (E : Env) (recs : list record) (l : load_state)
  : load_state :=
  fold_left (fun l r => load_record E (fst r) (snd r) l) recs l.

(** A store with a [version] record of the legacy value between two other
    records. *)
Definition version_batch : BerkeleyBatch :=
  {| db_records :=
       [ ([IString "name"; IString "addr"], [IString "savings"]);
         ([IString "version"], [IInt 10300]);
         ([IString "orderposnext"], [IInt64 5]) ];
     db_faults := [] |}.

(** A store that holds the plaintext [key] record of [sample_pubkey]; in
    [erase_fault_batch] the third call into the engine fails. *)
Definition plaintext_batch : BerkeleyBatch :=
  {| db_records :=
       [ (pubkey_key "key" sample_pubkey, [IBytes sample_privkey]) ];
     db_faults := [] |}.

Definition erase_fault_batch : BerkeleyBatch :=
  {| db_records :=
       [ (pubkey_key "key" sample_pubkey, [IBytes sample_privkey]) ];
     db_faults := [false; false; true] |}.

(** The tags of the records that the scan loop read and [ReadKeyValue]
    failed to decode, in cursor order. *)
Fixpoint load_failures (E : Env) (pcursor : list record) (b : BerkeleyBatch)
  (l : load_state) : list string :=
  let (ok, b') := engine_call b in
  if ok then
    match pcursor with
    | [] => []
    | (k, v) :: rest =>
        let (decoded, st) :=
          ReadKeyValue E (rkv_args (l_wallet l) k v (l_wss l)) in
        (if decoded then [] else [strType st])
        ++ load_failures E rest b' (load_record E k v l)
    end
  else [].

(** The same for a call of [LoadWallet]: nothing is read when [minversion]
    stops the load or no cursor can be opened. *)
Definition LoadWallet_failures (E : Env) (b : BerkeleyBatch) (w : CWallet)
  (rescan : option bool) : list string :=
  let (nMinVersion, b1) := Read as_int minversion_key b in
  if too_new E nMinVersion then []
  else match GetCursor b1 with
       | (None, _) => []
       | (Some pcursor, b2) =>
           load_failures E pcursor b2
             (load_start (load_minversion nMinVersion w) rescan)
       end.

(** The tags whose failure [LoadWallet] treats as fatal. *)
Definition is_fatal_tag (t : string) : bool :=
  IsKeyType t || (t =? "defaultkey")%string || (t =? "flags")%string.

(** [result] after a failure on a record of tag [t]. *)
Definition result_after_failure (r : DBErrors) (t : string) : DBErrors :=
  if IsKeyType t || (t =? "defaultkey")%string then DB_CORRUPT
  else if (t =? "flags")%string then DB_TOO_NEW
  else r.

(** A [key] record with an invalid public key before a [flags] record with
    a flag [sample_env] does not know. *)
Definition bad_key_record : record := ([IString "key"; IPubKey []], []).
Definition bad_flags_record : record := ([IString "flags"], [IUInt64 8%N]).

Definition key_then_flags_batch : BerkeleyBatch :=
  {| db_records := [bad_key_record; bad_flags_record]; db_faults := [] |}.

(** A store whose only record is a [ckey] record with an invalid public
    key. *)
Definition bad_ckey_batch : BerkeleyBatch :=
  {| db_records := [([IString "ckey"; IPubKey []], [])]; db_faults := [] |}.

Definition bad_key_batch : BerkeleyBatch :=
  {| db_records := [bad_key_record]; db_faults := [] |}.

(** The locals at the end of the scan of a load during which no call into
    the engine fails. *)
Definition scanned (E : Env) (b : BerkeleyBatch) (w : CWallet)
  (rescan : option bool) : load_state :=
  load_records E (db_records b)
    (load_start (load_minversion (fst (Read as_int minversion_key b)) w)
                rescan).

(** A store with a legacy transaction that has no position, and a [name]
    record without a value. *)
Definition bad_name_record : record :=
  ([IString "name"; IString "addr"], []).

Definition noncritical_batch : BerkeleyBatch :=
  {| db_records := [legacy_tx_record; bad_name_record]; db_faults := [] |}.

(** One [EraseTx] for each hash of a list, in order, whatever the earlier
    ones returned: [delerror] and the batch afterwards. *)
Fixpoint erase_all (hashes : list uint256) (b : BerkeleyBatch)
  (delerror : bool) : bool * BerkeleyBatch :=
  match hashes with
  | [] => (delerror, b)
  | hash :: rest =>
      let (ok, b') := EraseTx hash b in
      erase_all rest b' (delerror || negb ok)
  end.

(** The hashes that are both among the wallet transactions found in the
    store and among the requested ones, in sorted order. *)
Definition in_both (vTxHash vTxHashIn : list uint256) : list uint256 :=
  List.filter (fun h => bool_decide (h ∈ vTxHashIn)) (sort_hashes vTxHash).

(** A store with three transactions and another record; in
    [zap_fault_batch] the erasure of the first match fails. *)
Definition plain_wtx (h : uint256) : CWalletTx :=
  {| wtx_hash := h; wtx_vin_empty := true; fTimeReceivedIsTxTime := 0;
     nOrderPos := 0; wtx_payload := [] |}.

Definition zap_records : list record :=
  [ (tx_key 30%N, [IWalletTx (plain_wtx 30%N)]);
    ([IString "name"; IString "addr"], [IString "savings"]);
    (tx_key 10%N, [IWalletTx (plain_wtx 10%N)]);
    (tx_key 20%N, [IWalletTx (plain_wtx 20%N)]) ].

Definition zap_batch : BerkeleyBatch :=
  {| db_records := zap_records; db_faults := [] |}.

Definition zap_fault_batch : BerkeleyBatch :=
  {| db_records := zap_records;
     db_faults := [false; false; false; false; false; false; false; true] |}.

(** [fs::remove] goes through for the entry. *)
Definition deletable (wd : backup_world) (f : file) : bool :=
  negb (bool_decide (f_name f ∈ undeletable wd)).

(** The entries of a list up to the first one that cannot be removed, and
    that one. *)
Fixpoint deletable_prefix (wd : backup_world) (l : list file) : list file :=
  match l with
  | [] => []
  | f :: rest => if deletable wd f then f :: deletable_prefix wd rest else []
  end.

Fixpoint first_undeletable (wd : backup_world) (l : list file)
  : option file :=
  match l with
  | [] => None
  | f :: rest => if deletable wd f then first_undeletable wd rest else Some f
  end.

(** A folder without the entries that have the name of one of [removed]. *)
Definition remove_files (removed files : list file) : list file :=
  List.filter (fun f => negb (bool_decide (f_name f ∈ map f_name removed)))
              files.

(** The order of the entries of [folder_set]. *)
Definition older_or_same (f g : file) : Prop := f_mtime f <= f_mtime g.

(** The backups the sweep visits, newest first. *)
Definition newest_first (strWalletFile : string) (files : list file)
  : list file :=
  rev (build_folder_set strWalletFile files []).

(** The entry that [fs::copy_file] adds to the backup folder. *)
Definition backup_copy (strWalletFile : string) (wd : backup_world) : file :=
  {| f_name := String.append strWalletFile (dateTimeStr wd);
     f_mtime := copy_mtime wd; f_regular := true |}.

(** A backup folder with three backups of [wallet.dat] and a file of
    another wallet.  In [rotation_world] two backups are to be kept and every
    file can be removed; in [abort_world] one backup is to be kept and the
    backups [c] and [a] cannot be removed. *)
Definition backup_a : file :=
  {| f_name := "wallet.dat.a"; f_mtime := 1; f_regular := true |}.
Definition backup_b : file :=
  {| f_name := "wallet.dat.b"; f_mtime := 2; f_regular := true |}.
Definition backup_c : file :=
  {| f_name := "wallet.dat.c"; f_mtime := 3; f_regular := true |}.
Definition other_file : file :=
  {| f_name := "other.dat.a"; f_mtime := 0; f_regular := true |}.

Definition rotation_world : backup_world :=
  {| nWalletBackups := 2; backups_exists := true;
     backups_files := [backup_b; other_file; backup_c; backup_a];
     source_exists := true; create_directories_ok := true;
     copy_file_ok := true; undeletable := [];
     dateTimeStr := ".2024-01-01-10-00"; copy_mtime := 4; copy_index := 1 |}.

Definition abort_world : backup_world :=
  {| nWalletBackups := 1; backups_exists := true;
     backups_files := [backup_b; other_file; backup_c; backup_a];
     source_exists := true; create_directories_ok := true;
     copy_file_ok := true; undeletable := ["wallet.dat.c"; "wallet.dat.a"];
     dateTimeStr := ".2024-01-01-10-00"; copy_mtime := 4; copy_index := 1 |}.

(** ** The other writers and readers of [WalletBatch] *)

Definition name_key (strAddress : string) : CDataStream :=
  [IString "name"; IString strAddress].
Definition purpose_key (strAddress : string) : CDataStream :=
  [IString "purpose"; IString strAddress].

Definition WriteName (strAddress strName : string) (b : BerkeleyBatch)
  : bool * BerkeleyBatch :=
  WriteIC (name_key strAddress) [IString strName] true b.

Definition EraseName (strAddress : string) (b : BerkeleyBatch)
  : bool * BerkeleyBatch :=
  EraseIC (name_key strAddress) b.

Definition WritePurpose (strAddress strPurpose : string) (b : BerkeleyBatch)
  : bool * BerkeleyBatch :=
  WriteIC (purpose_key strAddress) [IString strPurpose] true b.

Definition ErasePurpose (strAddress : string) (b : BerkeleyBatch)
  : bool * BerkeleyBatch :=
  EraseIC (purpose_key strAddress) b.

(** The value of a [key] record: the private key and the hash of public and
    private key. *)
Definition key_value (E : Env) (vchPubKey : CPubKey) (vchPrivKey : CPrivKey)
  : CDataStream :=
  [IBytes vchPrivKey; IUint256 (Hash E (vchPubKey ++ vchPrivKey))].

Definition WriteKey (E : Env) (vchPubKey : CPubKey) (vchPrivKey : CPrivKey)
  (keyMeta : CKeyMetadata) (b : BerkeleyBatch) : bool * BerkeleyBatch :=
  let (ok, b1) :=
    WriteIC (pubkey_key "keymeta" vchPubKey) [IKeyMetadata keyMeta] false b in
  if negb ok then (false, b1)
  else WriteIC (pubkey_key "key" vchPubKey)
               (key_value E vchPubKey vchPrivKey) false b1.

Definition mkey_key (nID : N) : CDataStream := [IString "mkey"; IUInt nID].

Definition WriteMasterKey (nID : N) (kMasterKey : CMasterKey)
  (b : BerkeleyBatch) : bool * BerkeleyBatch :=
  WriteIC (mkey_key nID) [IMasterKey kMasterKey] true b.

Definition WriteCScript (hash : uint160) (redeemScript : CScript)
  (b : BerkeleyBatch) : bool * BerkeleyBatch :=
  WriteIC [IString "cscript"; IUint160 hash] [IBytes redeemScript] false b.

Definition watchmeta_key (dest : CScript) : CDataStream :=
  [IString "watchmeta"; IBytes dest].
Definition watchs_key (dest : CScript) : CDataStream :=
  [IString "watchs"; IBytes dest].

Definition WriteWatchOnly (dest : CScript) (keyMeta : CKeyMetadata)
  (b : BerkeleyBatch) : bool * BerkeleyBatch :=
  let (ok, b1) := WriteIC (watchmeta_key dest) [IKeyMetadata keyMeta] true b in
  if negb ok then (false, b1)
  else WriteIC (watchs_key dest) [IChar char_1] true b1.

Definition EraseWatchOnly (dest : CScript) (b : BerkeleyBatch)
  : bool * BerkeleyBatch :=
  let (ok, b1) := EraseIC (watchmeta_key dest) b in
  if negb ok then (false, b1)
  else EraseIC (watchs_key dest) b1.

Definition WriteOrderPosNext (nOrderPosNext : Z) (b : BerkeleyBatch)
  : bool * BerkeleyBatch :=
  WriteIC [IString "orderposnext"] [IInt64 nOrderPosNext] true b.

Definition pool_key (nPool : Z) : CDataStream := [IString "pool"; IInt64 nPool].

Definition ReadPool (nPool : Z) (b : BerkeleyBatch)
  : option CKeyPool * BerkeleyBatch :=
  Read as_keypool (pool_key nPool) b.

Definition WritePool (nPool : Z) (keypool : CKeyPool) (b : BerkeleyBatch)
  : bool * BerkeleyBatch :=
  WriteIC (pool_key nPool) [IKeyPool keypool] true b.

Definition ErasePool (nPool : Z) (b : BerkeleyBatch) : bool * BerkeleyBatch :=
  EraseIC (pool_key nPool) b.

Definition WriteMinVersion (nVersion : Z) (b : BerkeleyBatch)
  : bool * BerkeleyBatch :=
  WriteIC minversion_key [IInt nVersion] true b.

Definition destdata_key (address key : string) : CDataStream :=
  [IString "destdata"; IString address; IString key].

Definition WriteDestData (address key value : string) (b : BerkeleyBatch)
  : bool * BerkeleyBatch :=
  WriteIC (destdata_key address key) [IString value] true b.

Definition EraseDestData (address key : string) (b : BerkeleyBatch)
  : bool * BerkeleyBatch :=
  EraseIC (destdata_key address key) b.

Definition WriteHDChain (chain : CHDChain) (b : BerkeleyBatch)
  : bool * BerkeleyBatch :=
  WriteIC [IString "hdchain"] [IHDChain chain] true b.

Definition WriteWalletFlags (flags : N) (b : BerkeleyBatch)
  : bool * BerkeleyBatch :=
  WriteIC [IString "flags"] [IUInt64 flags] true b.

(** [m_batch.ReadVersion(nVersion)], the reader that goes with
    [WriteVersion]. *)
Definition ReadVersion (b : BerkeleyBatch) : option Z * BerkeleyBatch :=
  Read as_int [IString "version"] b.

(** ** [ZapWalletTx] *)

(** The loop over [vTxHash]: [false] when an [EraseTx] failed, which ends
    the loop. *)
Fixpoint zap_all (vTxHash : list uint256) (b : BerkeleyBatch)
  : bool * BerkeleyBatch :=
  match vTxHash with
  | [] => (true, b)
  | hash :: rest =>
      let (ok, b') := EraseTx hash b in
      if negb ok then (false, b') else zap_all rest b'
  end.

(** [ZapWalletTx(vWtx)]: the value returned, the batch and [vWtx]
    afterwards. *)
Definition ZapWalletTx (E : Env) (b : BerkeleyBatch) (vWtx : list CWalletTx)
  : DBErrors * BerkeleyBatch * list CWalletTx :=
  match FindWalletTx E b [] vWtx with
  | (err, b1, vTxHash, vWtx') =>
      if negb (bool_decide (err = DB_LOAD_OK)) then (err, b1, vWtx')
      else
        let (ok, b2) := zap_all vTxHash b1 in
        (if ok then DB_LOAD_OK else DB_CORRUPT, b2, vWtx')
  end.

(** ** [WriteBestBlock] and [ReadBestBlock]

    [CBlockLocator] is its vector [vHave].  How a locator is laid out in a
    stream is decided in primitives/block.h, which is not part of the
    sources: the two functions take the layout as [ser] and [unser]. *)
Definition CBlockLocator := list N.

Section BestBlock.
Context (ser : CBlockLocator -> CDataStream)
        (unser : CDataStream -> option CBlockLocator).

(** [m_batch.Read(key, locator)] *)
Definition ReadLocator (key : CDataStream) (b : BerkeleyBatch)
  : option CBlockLocator * BerkeleyBatch :=
  let (ok, b') := engine_call b in
  if ok then
    match db_lookup key (db_records b') with
    | Some v => (unser v, b')
    | None => (None, b')
    end
  else (None, b').

Definition WriteBestBlock (locator : CBlockLocator) (b : BerkeleyBatch)
  : bool * BerkeleyBatch :=
  let (_, b1) := WriteIC [IString "bestblock"] (ser []) true b in
  WriteIC [IString "bestblock_nomerkle"] (ser locator) true b1.

(** [ReadBestBlock(locator)]: the value returned and [locator] afterwards,
    which a read that succeeds has overwritten. *)
Definition ReadBestBlock (locator : CBlockLocator) (b : BerkeleyBatch)
  : bool * CBlockLocator * BerkeleyBatch :=
  let (r1, b1) := ReadLocator [IString "bestblock"] b in
  let locator1 := default locator r1 in
  if bool_decide (is_Some r1) && negb (bool_decide (locator1 = []))
  then (true, locator1, b1)
  else
    let (r2, b2) := ReadLocator [IString "bestblock_nomerkle"] b1 in
    (bool_decide (is_Some r2), default locator1 r2, b2).

End BestBlock.

(** A layout for locators: the number of hashes, then the hashes. *)
Definition sample_ser_locator (l : CBlockLocator) : CDataStream :=
  IUInt64 (N.of_nat (length l)) :: map IUint256 l.

Fixpoint sample_unser_hashes (n : nat) (ss : CDataStream)
  : option CBlockLocator :=
  match n, ss with
  | O, [] => Some []
  | S n', IUint256 h :: rest =>
      match sample_unser_hashes n' rest with
      | Some l => Some (h :: l)
      | None => None
      end
  | _, _ => None
  end.

Definition sample_unser_locator (ss : CDataStream) : option CBlockLocator :=
  match ss with
  | IUInt64 n :: rest => sample_unser_hashes (N.to_nat n) rest
  | _ => None
  end.

(** ** Invariants of the load *)

(** What the [mkey] branch of [ReadKeyValue] works on, and the bound the
    branch maintains (:328-329): no master key has an id above
    [nMasterKeyMaxID]. *)
Definition master_keys_of (w : CWallet) (s : CWalletScanState)
  : gmap N CMasterKey * N :=
  (mapMasterKeys w, nMasterKeyMaxID w).

Definition master_keys_bounded (w : CWallet) : Prop :=
  forall nID k, mapMasterKeys w !! nID = Some k -> (nID <= nMasterKeyMaxID w)%N.

(** What the [tx] branch works on, and what the loop over
    [wss.vWalletUpgrade] needs of it: every hash queued for a rewrite is a
    key of [mapWallet]. *)
Definition upgrade_state_of (w : CWallet) (s : CWalletScanState)
  : gmap N CWalletTx * list uint256 :=
  (mapWallet w, vWalletUpgrade s).

Definition upgrades_loaded (w : CWallet) (s : CWalletScanState) : Prop :=
  Forall (fun h => is_Some (mapWallet w !! h)) (vWalletUpgrade s).

(** A store with two master keys. *)
Definition master_key_batch : BerkeleyBatch :=
  {| db_records :=
       [ ([IString "mkey"; IUInt 3%N], [IMasterKey [Byte.x01]]);
         ([IString "mkey"; IUInt 2%N], [IMasterKey [Byte.x02]]) ];
     db_faults := [] |}.

(** What a load can have done to the record under [key] between two states
    of the store: nothing, or the client version was written under
    [version], or a transaction was written under its hash. *)
Definition load_wrote (E : Env) (key : CDataStream) (b b' : BerkeleyBatch)
  : Prop :=
  db_lookup key (db_records b') = db_lookup key (db_records b)
  \/ (key = [IString "version"]
      /\ db_lookup key (db_records b') = Some [IInt (CLIENT_VERSION E)])
  \/ (exists wtx, key = tx_key (wtx_hash wtx)
      /\ db_lookup key (db_records b') = Some [IWalletTx wtx]).

(** ** [MaybeCompactWalletDB]

    The members of a database handle ([WalletDatabase], db.h) the function
    works on: the counters are [unsigned int], compared only;
    [nLastWalletUpdate] is an [int64_t] time in seconds, and the difference
    of two times is taken without overflow. *)
Record WalletDatabase := mkWalletDatabase {
  nUpdateCounter : Z;
  nLastSeen : Z;
  nLastFlushed : Z;
  nLastWalletUpdate : Z
}.

Definition set_nLastFlushed (v : Z) (dbh : WalletDatabase) : WalletDatabase :=
  {| nUpdateCounter := nUpdateCounter dbh; nLastSeen := nLastSeen dbh;
     nLastFlushed := v; nLastWalletUpdate := nLastWalletUpdate dbh |}.

(** What the function calls and the sources do not define: [flushwallet] is
    the value of [gArgs.GetBoolArg("-flushwallet", DEFAULT_FLUSHWALLET)],
    [GetTime n] the value of the call of [GetTime()] that has [n] calls before
    it, and [PeriodicFlush calls dbh] the value of
    [BerkeleyBatch::PeriodicFlush(dbh)] when it has been invoked on the
    handles [calls] before. *)
Record compact_env := mkCompactEnv {
  flushwallet : bool;
  GetTime : nat -> Z;
  PeriodicFlush : list WalletDatabase -> WalletDatabase -> bool
}.

(** The static flag of the function, the handles of the wallets of
    [GetWallets()] in order (each wallet with a handle of its own), the number
    of calls of [GetTime()] so far, and the handles [PeriodicFlush] has been
    invoked on so far, as they were passed. *)
Record compact_state := mkCompactState {
  fOneThread : bool;
  wallets : list WalletDatabase;
  time_reads : nat;
  flush_calls : list WalletDatabase
}.

(** The body of the loop for one wallet. *)
Definition compact_handle (C : compact_env) (dbh : WalletDatabase)
  (reads : nat) (calls : list WalletDatabase)
  : WalletDatabase * nat * list WalletDatabase :=
  let counter := nUpdateCounter dbh in
  let seen :=
    if negb (nLastSeen dbh =? counter)
    then ({| nUpdateCounter := nUpdateCounter dbh; nLastSeen := counter;
             nLastFlushed := nLastFlushed dbh;
             nLastWalletUpdate := GetTime C reads |}, S reads)
    else (dbh, reads) in
  if negb (nLastFlushed (fst seen) =? counter) then
    if GetTime C (snd seen) - nLastWalletUpdate (fst seen) >=? 2 then
      (if PeriodicFlush C calls (fst seen)
       then set_nLastFlushed counter (fst seen) else fst seen,
       S (snd seen), calls ++ [fst seen])
    else (fst seen, S (snd seen), calls)
  else (fst seen, snd seen, calls).

Fixpoint compact_loop (C : compact_env) (dbhs : list WalletDatabase)
  (reads : nat) (calls : list WalletDatabase)
  : list WalletDatabase * nat * list WalletDatabase :=
  match dbhs with
  | [] => ([], reads, calls)
  | dbh :: rest =>
      match compact_handle C dbh reads calls with
      | (dbh', reads', calls') =>
          match compact_loop C rest reads' calls' with
          | (rest', reads'', calls'') => (dbh' :: rest', reads'', calls'')
          end
      end
  end.

(** [MaybeCompactWalletDB()]: the state it leaves.  [fOneThread.exchange(true)]
    leaves the flag set; the two early returns do not clear it. *)
Definition MaybeCompactWalletDB (C : compact_env) (st : compact_state)
  : compact_state :=
  if fOneThread st then st
  else if negb (flushwallet C) then
    {| fOneThread := true; wallets := wallets st;
       time_reads := time_reads st; flush_calls := flush_calls st |}
  else
    match compact_loop C (wallets st) (time_reads st) (flush_calls st) with
    | (dbhs, reads, calls) =>
        {| fOneThread := false; wallets := dbhs; time_reads := reads;
           flush_calls := calls |}
    end.

(** A clock that advances by one second per reading, a flush that always
    succeeds, and two wallets: one updated since it was last seen, one seen
    three seconds ago and not flushed since. *)
Definition sample_compact_env : compact_env :=
  {| flushwallet := true; GetTime := fun n => 100 + Z.of_nat n;
     PeriodicFlush := fun _ _ => true |}.

Definition sample_compact_state : compact_state :=
  {| fOneThread := false;
     wallets :=
       [ {| nUpdateCounter := 5; nLastSeen := 4; nLastFlushed := 4;
            nLastWalletUpdate := 90 |};
         {| nUpdateCounter := 7; nLastSeen := 7; nLastFlushed := 6;
            nLastWalletUpdate := 97 |} ];
     time_reads := 0; flush_calls := [] |}.

(** * Properties *)

(** ** The reader monad *)

Lemma bind_some {A B} (m : Rd A) (k : A -> Rd B) st a st' :
  m st = (Some a, st') -> bind m k st = k a st'.
Proof. intros H. unfold bind. rewrite H. reflexivity. Qed.

Lemma bind_none {A B} (m : Rd A) (k : A -> Rd B) st st' :
  m st = (None, st') -> bind m k st = (None, st').
Proof. intros H. unfold bind. rewrite H. reflexivity. Qed.

Section Keeps.
Context {X : Type} (proj : rkv -> X).

Lemma keeps_ret {A} (a : A) : keeps proj (ret a).
Proof. intros st. reflexivity. Qed.

Lemma keeps_leave {A} : keeps proj (@leave A).
Proof. intros st. reflexivity. Qed.

Lemma keeps_bind {A B} (m : Rd A) (k : A -> Rd B) :
  keeps proj m -> (forall a, keeps proj (k a)) -> keeps proj (bind m k).
Proof.
  intros Hm Hk st. unfold bind.
  specialize (Hm st). destruct (m st) as [[a|] st']; simpl in *.
  - rewrite Hk. exact Hm.
  - exact Hm.
Qed.

Lemma keeps_try_catch {A} (m : Rd A) (d : A) :
  keeps proj m -> keeps proj (try_catch m d).
Proof.
  intros Hm st. unfold try_catch.
  specialize (Hm st). destruct (m st) as [[a|] st']; exact Hm.
Qed.

Lemma keeps_value_empty : keeps proj value_empty.
Proof. intros st. reflexivity. Qed.

Lemma keeps_get_wallet : keeps proj get_wallet.
Proof. intros st. reflexivity. Qed.

Lemma keeps_get_wss : keeps proj get_wss.
Proof. intros st. reflexivity. Qed.

End Keeps.

(** Reads from the two streams, changes of the wallet and of [strErr] leave
    the scan state alone; only [on_wss] reaches it. *)
Section KeepsWss.
Context {X : Type} (f : CWalletScanState -> X).

Lemma keeps_wss_key_read {A} (as_A : item -> option A) :
  keeps (fun st => f (wss st)) (key_read as_A).
Proof.
  intros st. unfold key_read.
  destruct (unserialize as_A (ssKey st)) as [[a rest]|]; reflexivity.
Qed.

Lemma keeps_wss_value_read {A} (as_A : item -> option A) :
  keeps (fun st => f (wss st)) (value_read as_A).
Proof.
  intros st. unfold value_read.
  destruct (unserialize as_A (ssValue st)) as [[a rest]|]; reflexivity.
Qed.

Lemma keeps_wss_on_wallet g : keeps (fun st => f (wss st)) (on_wallet g).
Proof. intros st. reflexivity. Qed.

Lemma keeps_wss_set_strErr m : keeps (fun st => f (wss st)) (set_strErr m).
Proof. intros st. reflexivity. Qed.

Lemma keeps_wss_set_strType s : keeps (fun st => f (wss st)) (set_strType s).
Proof. intros st. reflexivity. Qed.

Lemma keeps_wss_on_wss g :
  (forall s, f (g s) = f s) -> keeps (fun st => f (wss st)) (on_wss g).
Proof. intros Hg st. simpl. apply Hg. Qed.

End KeepsWss.

(** Nothing but [set_strType] changes [strType]. *)
Lemma keeps_strType_key_read {A} (as_A : item -> option A) :
  keeps strType (key_read as_A).
Proof.
  intros st. unfold key_read.
  destruct (unserialize as_A (ssKey st)) as [[a rest]|]; reflexivity.
Qed.

Lemma keeps_strType_value_read {A} (as_A : item -> option A) :
  keeps strType (value_read as_A).
Proof.
  intros st. unfold value_read.
  destruct (unserialize as_A (ssValue st)) as [[a rest]|]; reflexivity.
Qed.

Lemma keeps_strType_on_wallet g : keeps strType (on_wallet g).
Proof. intros st. reflexivity. Qed.

Lemma keeps_strType_on_wss g : keeps strType (on_wss g).
Proof. intros st. reflexivity. Qed.

Lemma keeps_strType_set_strErr m : keeps strType (set_strErr m).
Proof. intros st. reflexivity. Qed.

(** Splits a computation along its binds, conditionals and matches and
    closes the leaves with the lemmas of the database [keeps]. *)
Create HintDb keeps discriminated.

#[local] Hint Resolve keeps_ret keeps_leave keeps_value_empty keeps_get_wallet
  keeps_get_wss keeps_strType_key_read keeps_strType_value_read
  keeps_strType_on_wallet keeps_strType_on_wss keeps_strType_set_strErr
  keeps_wss_key_read keeps_wss_value_read keeps_wss_on_wallet
  keeps_wss_set_strErr keeps_wss_set_strType : keeps.

Ltac keeps_step :=
  match goal with
  | |- keeps _ (bind _ _) => apply keeps_bind; [ | intros ? ]
  | |- keeps _ (try_catch _ _) => apply keeps_try_catch
  | |- keeps _ (if ?c then _ else _) => destruct c
  | |- keeps _ (match ?x with _ => _ end) => destruct x
  | |- keeps _ _ => solve [ auto with keeps ]
  end.

Ltac keeps_auto := repeat keeps_step.

Section CodecFacts.
Context (E : Env).

Lemma keeps_strType_dispatch t : keeps strType (rkv_dispatch E t).
Proof.
  unfold rkv_dispatch, rkv_name, rkv_purpose, rkv_tx, rkv_tx_legacy,
    rkv_watchs, rkv_key, rkv_key_load, rkv_privkey, rkv_key_hash, rkv_mkey,
    rkv_ckey,
    rkv_keymeta, rkv_watchmeta, rkv_defaultkey, rkv_pool, rkv_version,
    rkv_cscript, rkv_orderposnext, rkv_destdata, rkv_hdchain, rkv_flags,
    rkv_other, leave_with, call_bool.
  keeps_auto.
Qed.

(** [strType] after the call is the tag of the record. *)
Lemma ReadKeyValue_strType w k v s :
  strType (snd (ReadKeyValue E (rkv_args w k v s))) = record_tag k.
Proof.
  unfold ReadKeyValue, rkv_body, record_tag, bind, key_read. simpl.
  destruct (unserialize as_string k) as [[t rest]|]; simpl; [ | reflexivity ].
  match goal with
  | |- context [rkv_dispatch E t ?st] =>
      pose proof (keeps_strType_dispatch t st) as H;
      destruct (rkv_dispatch E t st) as [[u|] st']
  end; simpl in *; exact H.
Qed.

End CodecFacts.

(** ** The keys-only recovery filter *)

(** The tags [IsKeyType] accepts, by name. *)
Lemma IsKeyType_by_name t :
  IsKeyType t = bool_decide (t ∈ ["key"; "wkey"; "mkey"; "ckey"]).
Proof.
  unfold IsKeyType. symmetry.
  destruct (decide (t ∈ ["key"; "wkey"; "mkey"; "ckey"])) as [Hin|Hout].
  - rewrite bool_decide_eq_true_2 by exact Hin.
    rewrite !elem_of_cons, elem_of_nil in Hin.
    destruct Hin as [->|[->|[->|[->|[]]]]]; reflexivity.
  - rewrite bool_decide_eq_false_2 by exact Hout. symmetry.
    repeat (apply orb_false_iff; split);
      apply String.eqb_neq; intros ->; apply Hout;
      rewrite !elem_of_cons; auto 6.
Qed.

(** C8: [RecoverKeysOnlyFilter] keeps a record exactly when the type tag of
    the record is [key], [wkey], [mkey], [ckey] or [hdchain] and
    [ReadKeyValue], the codec of the load pipeline, run on the record with a
    fresh scan state, returns true; every other record is dropped. *)
Theorem RecoverKeysOnlyFilter_keeps_iff (E : Env) (dummyWallet : CWallet)
  (k v : CDataStream) :
  fst (RecoverKeysOnlyFilter E dummyWallet k v) = true <->
  record_tag k ∈ ["key"; "wkey"; "mkey"; "ckey"; "hdchain"] /\
  fst (ReadKeyValue E (rkv_args dummyWallet k v new_scan_state)) = true.
Proof.
  assert (Htags : record_tag k ∈ ["key"; "wkey"; "mkey"; "ckey"; "hdchain"]
                  <-> IsKeyType (record_tag k) = true
                      \/ record_tag k = "hdchain").
  { rewrite IsKeyType_by_name, bool_decide_eq_true.
    rewrite !elem_of_cons, !elem_of_nil. tauto. }
  rewrite Htags. unfold RecoverKeysOnlyFilter.
  pose proof (ReadKeyValue_strType E dummyWallet k v new_scan_state) as Htag.
  destruct (ReadKeyValue E (rkv_args dummyWallet k v new_scan_state))
    as [fReadOK st].
  simpl in Htag. rewrite Htag. simpl.
  destruct (IsKeyType (record_tag k)) eqn:Hkey; simpl.
  - destruct fReadOK; simpl; split; intros H; try discriminate;
      try (destruct H; discriminate); auto.
  - destruct (String.eqb_spec (record_tag k) "hdchain") as [Heq|Hne]; simpl.
    + destruct fReadOK; simpl; split; intros H; try discriminate;
        try (destruct H; discriminate); auto.
    + split; intros H; [ discriminate | ].
      destruct H as [[H|H] _]; [ discriminate | contradiction ].
Qed.

(** ** The engine *)

Lemma engine_call_records b : db_records (snd (engine_call b)) = db_records b.
Proof. unfold engine_call. destruct (db_faults b); reflexivity. Qed.

Lemma engine_call_no_faults b :
  no_faults b ->
  fst (engine_call b) = true /\ no_faults (snd (engine_call b)).
Proof.
  unfold no_faults, engine_call. intros H.
  destruct (db_faults b) as [|f fs] eqn:Hf; simpl.
  - rewrite Hf. split; [ reflexivity | constructor ].
  - inversion H as [|? ? Hhd Htl]; subst. simpl. split; [ reflexivity | exact Htl ].
Qed.

(** ** The check of [minversion] *)

(** C4: when the [minversion] record is present (the point read of it goes
    through) and its value exceeds [FEATURE_LATEST], [LoadWallet] returns
    [TOO_NEW] at once: the read is the only call into the engine, so no
    cursor is opened, and the wallet is the one passed in, so no record has
    been decoded or applied to it. *)
Theorem LoadWallet_minversion_too_new (E : Env) (b : BerkeleyBatch)
  (w : CWallet) (rescan : option bool) (v : Z) (rest : CDataStream) :
  fst (engine_call b) = true ->
  db_lookup minversion_key (db_records b) = Some (IInt v :: rest) ->
  FEATURE_LATEST E < v ->
  LoadWallet E b w rescan
  = (Returns DB_TOO_NEW, snd (engine_call b), w, rescan).
Proof.
  intros Hcall Hrec Hnew. unfold LoadWallet, Read.
  pose proof (engine_call_records b) as Hrecs.
  destruct (engine_call b) as [ok b1]. simpl in *. subst ok.
  rewrite Hrecs, Hrec. simpl.
  assert (Hlt : (FEATURE_LATEST E <? v) = true) by (apply Z.ltb_lt; exact Hnew).
  rewrite Hlt. reflexivity.
Qed.

Lemma LoadWallet_minversion_too_new_witness :
  LoadWallet sample_env too_new_batch empty_wallet None
  = (Returns DB_TOO_NEW, too_new_batch, empty_wallet, None).
Proof.
  apply (LoadWallet_minversion_too_new sample_env too_new_batch empty_wallet
           None 999999 []).
  - reflexivity.
  - reflexivity.
  - simpl. lia.
Defined.

(** ** The [tx] record *)

Section TxRecord.
Context (E : Env).

(** A [tx] record that passes the check, read up to the transaction. *)
Lemma rkv_tx_legacy_run w s hash wtx kr rest :
  tx_check E wtx hash = true ->
  31404 <= fTimeReceivedIsTxTime wtx <= 31703 ->
  forall wtx' st,
    rkv_tx_legacy wtx hash
      {| pwallet := w; ssKey := kr; ssValue := rest; wss := s;
         strType := "tx"; strErr := MsgEmpty |} = (Some wtx', st) ->
    ReadKeyValue E (rkv_args w (IString "tx" :: IUint256 hash :: kr)
                             (IWalletTx wtx :: rest) s)
    = (true,
       {| pwallet := LoadToWallet wtx' (pwallet st); ssKey := ssKey st;
          ssValue := ssValue st;
          wss := if nOrderPos wtx' =? -1 then set_fAnyUnordered true (wss st)
                 else wss st;
          strType := strType st; strErr := strErr st |}).
Proof.
  intros Hcheck Hrange wtx' st Hlegacy.
  unfold ReadKeyValue, rkv_body. cbn.
  unfold rkv_tx. cbn. rewrite Hcheck. cbn.
  rewrite (bind_some _ _ _ _ _ Hlegacy).
  destruct (nOrderPos wtx' =? -1); reflexivity.
Qed.

End TxRecord.

(** C5 (as it holds): a [tx] record that passes the check and whose marker
    [fTimeReceivedIsTxTime] lies in [31404, 31703] is decoded successfully.
    When nothing follows the transaction in the value stream the transaction
    is loaded with the marker reset to 0.  When the three extra fields follow
    it is loaded with the marker replaced by the first of them, a [char],
    converted to the unsigned type of the marker: its value modulo 2^32,
    which is the value itself only when it is not negative.  The other fields
    of the transaction are as read; the transaction is handed to
    [LoadToWallet] and, when [mapWallet] has no entry under the hash, is the
    entry under the hash afterwards.  In both cases the hash is appended to
    [vWalletUpgrade], the list of hashes to rewrite. *)
Theorem ReadKeyValue_legacy_tx (E : Env) (w : CWallet) (s : CWalletScanState)
  (hash : uint256) (wtx : CWalletTx) (kr : CDataStream) :
  tx_check E wtx hash = true ->
  31404 <= fTimeReceivedIsTxTime wtx <= 31703 ->
  let loaded (marker : Z) : CWalletTx :=
    {| wtx_hash := wtx_hash wtx; wtx_vin_empty := wtx_vin_empty wtx;
       fTimeReceivedIsTxTime := marker; nOrderPos := nOrderPos wtx;
       wtx_payload := wtx_payload wtx |} in
  (let r := ReadKeyValue E (rkv_args w (IString "tx" :: IUint256 hash :: kr)
                                     [IWalletTx wtx] s) in
   fst r = true
   /\ pwallet (snd r) = LoadToWallet (loaded 0) w
   /\ wallet_calls (pwallet (snd r))
      = wallet_calls w ++ [CallLoadToWallet (loaded 0)]
   /\ (mapWallet w !! hash = None ->
       mapWallet (pwallet (snd r)) !! hash = Some (loaded 0))
   /\ vWalletUpgrade (wss (snd r)) = vWalletUpgrade s ++ [hash])
  /\
  (forall (fTmp fUnused : Z) (unused_string : string) (rest : CDataStream),
     let r := ReadKeyValue E
                (rkv_args w (IString "tx" :: IUint256 hash :: kr)
                   (IWalletTx wtx :: IChar fTmp :: IChar fUnused
                    :: IString unused_string :: rest) s) in
     fst r = true
     /\ pwallet (snd r) = LoadToWallet (loaded (fTmp mod 4294967296)) w
     /\ wallet_calls (pwallet (snd r))
        = wallet_calls w ++ [CallLoadToWallet (loaded (fTmp mod 4294967296))]
     /\ (mapWallet w !! hash = None ->
         mapWallet (pwallet (snd r)) !! hash
         = Some (loaded (fTmp mod 4294967296)))
     /\ vWalletUpgrade (wss (snd r)) = vWalletUpgrade s ++ [hash]).
Proof.
  intros Hcheck Hrange loaded.
  assert (H1 : (31404 <=? fTimeReceivedIsTxTime wtx) = true)
    by (apply Z.leb_le; lia).
  assert (H2 : (fTimeReceivedIsTxTime wtx <=? 31703) = true)
    by (apply Z.leb_le; lia).
  assert (Hhash : wtx_hash wtx = hash).
  { unfold tx_check in Hcheck.
    apply andb_true_iff in Hcheck. destruct Hcheck as [Hcheck _].
    apply andb_true_iff in Hcheck. destruct Hcheck as [_ Hcheck].
    apply N.eqb_eq. exact Hcheck. }
  assert (Hload : forall marker,
            wallet_calls (LoadToWallet (loaded marker) w)
            = wallet_calls w ++ [CallLoadToWallet (loaded marker)]
            /\ (mapWallet w !! hash = None ->
                mapWallet (LoadToWallet (loaded marker) w) !! hash
                = Some (loaded marker))).
  { intros marker. unfold LoadToWallet. cbn [wtx_hash loaded].
    rewrite Hhash. split.
    - destruct (mapWallet w !! hash); reflexivity.
    - intros Hfree. rewrite Hfree. cbn [called set_mapWallet mapWallet].
      apply lookup_insert_eq. }
  split.
  - erewrite rkv_tx_legacy_run; [ | exact Hcheck | exact Hrange | ].
    2: { unfold rkv_tx_legacy. rewrite H1, H2. cbn. reflexivity. }
    cbn [fst snd pwallet wss].
    change (set_fTimeReceivedIsTxTime 0 wtx) with (loaded 0).
    destruct (Hload 0) as [Hcalls Hentry].
    split; [ reflexivity | ]. split; [ reflexivity | ].
    split; [ exact Hcalls | ]. split; [ exact Hentry | ].
    destruct (nOrderPos (loaded 0) =? -1); reflexivity.
  - intros fTmp fUnused unused_string rest.
    erewrite rkv_tx_legacy_run; [ | exact Hcheck | exact Hrange | ].
    2: { unfold rkv_tx_legacy. rewrite H1, H2. cbn. reflexivity. }
    cbn [fst snd pwallet wss].
    change (set_fTimeReceivedIsTxTime (uint_of_char fTmp) wtx)
      with (loaded (fTmp mod 4294967296)).
    destruct (Hload (fTmp mod 4294967296)) as [Hcalls Hentry].
    split; [ reflexivity | ]. split; [ reflexivity | ].
    split; [ exact Hcalls | ]. split; [ exact Hentry | ].
    destruct (nOrderPos (loaded (fTmp mod 4294967296)) =? -1); reflexivity.
Qed.

(** The first extra field reads as the [char] -1 (the byte 0xff where
    [char] is signed): the transaction is loaded with the marker 4294967295,
    which is not the value of the field. *)
Lemma ReadKeyValue_legacy_tx_negative_char :
  let r := ReadKeyValue sample_env
             (rkv_args empty_wallet [IString "tx"; IUint256 7%N]
                [IWalletTx legacy_wtx; IChar (-1); IChar 0;
                 IString EmptyString] new_scan_state) in
  fst r = true
  /\ fTimeReceivedIsTxTime <$> (mapWallet (pwallet (snd r)) !! 7%N)
     = Some 4294967295.
Proof. vm_compute. split; reflexivity. Qed.

Lemma ReadKeyValue_legacy_tx_witness :
  let r := ReadKeyValue sample_env
             (rkv_args empty_wallet (fst legacy_tx_record)
                       (snd legacy_tx_record) new_scan_state) in
  fst r = true
  /\ mapWallet (pwallet (snd r)) !! 7%N
     = Some {| wtx_hash := 7%N; wtx_vin_empty := true;
               fTimeReceivedIsTxTime := 0; nOrderPos := -1;
               wtx_payload := [] |}
  /\ vWalletUpgrade (wss (snd r)) = [7%N].
Proof.
  destruct (proj1 (ReadKeyValue_legacy_tx sample_env empty_wallet
                     new_scan_state 7%N legacy_wtx [] eq_refl
                     ltac:(simpl; lia)))
    as [Hok [_ [_ [Hentry Hqueue]]]].
  split; [ exact Hok | ]. split; [ | exact Hqueue ].
  apply Hentry. reflexivity.
Defined.

(** ** The [key] and [wkey] records *)

Section KeyRecord.
Context (E : Env).

Lemma rkv_key_load_ok pub pkey fSkip st :
  fst (rkv_key_load E pub pkey fSkip st) = Some tt <->
  exists key, CKey_Load E pkey pub fSkip = Some key
              /\ LoadKey E (pwallet st) key pub = true.
Proof.
  unfold rkv_key_load.
  destruct (CKey_Load E pkey pub fSkip) as [key|]; cbn.
  - destruct (LoadKey E (pwallet st) key pub) eqn:Hl; cbn; split.
    + intros _. exists key. auto.
    + reflexivity.
    + discriminate.
    + intros [key' [Hk Hl']]. inversion Hk; subst. congruence.
  - split; [ discriminate | intros [key [Hk _]]; discriminate ].
Qed.

Lemma rkv_key_load_wallet pub pkey fSkip st :
  fst (rkv_key_load E pub pkey fSkip st) = Some tt ->
  exists key, CKey_Load E pkey pub fSkip = Some key
    /\ pwallet (snd (rkv_key_load E pub pkey fSkip st))
       = called (CallLoadKey key pub) (pwallet st).
Proof.
  unfold rkv_key_load.
  destruct (CKey_Load E pkey pub fSkip) as [key|]; cbn.
  - destruct (LoadKey E (pwallet st) key pub) eqn:Hl; cbn.
    + intros _. exists key. auto.
    + discriminate.
  - discriminate.
Qed.

Lemma ReadKeyValue_key_run w s is_key pub pkey wrest kr rest :
  CPubKey_IsValid E pub = true ->
  ReadKeyValue E (rkv_args w (IString (key_tag is_key) :: IPubKey pub :: kr)
                    (privkey_item is_key pkey wrest :: rest) s)
  = match bind (try_catch (value_read as_uint256) 0%N)
            (fun hash => bind (rkv_key_hash E pub pkey hash)
                              (rkv_key_load E pub pkey))
            (after_privkey is_key w kr rest s) with
    | (Some _, st') => (true, st')
    | (None, st') => (false, st')
    end.
Proof.
  intros Hv. unfold ReadKeyValue, rkv_body.
  destruct is_key; cbn; unfold rkv_key; cbn; rewrite Hv; cbn; reflexivity.
Qed.

End KeyRecord.

(** C6 (as it holds): for a [key] or [wkey] record with a valid public key,
    when a trailing hash that is not null follows the private key, decoding
    succeeds exactly when that hash equals [Hash(pubkey ++ privkey)] and the
    key loads with the recomputation check skipped; when no trailing hash
    follows, or the one that follows is null, decoding succeeds exactly when
    the key loads with the recomputation check performed ([fSkipCheck] false);
    a record that decodes has had its key handed to [LoadKey]. *)
Theorem ReadKeyValue_key_integrity (E : Env) (w : CWallet)
  (s : CWalletScanState) (is_key : bool) (pub : CPubKey) (pkey : CPrivKey)
  (wrest : bytes) (kr rest : CDataStream) :
  CPubKey_IsValid E pub = true ->
  let r := ReadKeyValue E
             (rkv_args w (IString (key_tag is_key) :: IPubKey pub :: kr)
                       (privkey_item is_key pkey wrest :: rest) s) in
  (forall h rest', rest = IUint256 h :: rest' -> h <> 0%N ->
     (fst r = true <->
      h = Hash E (pub ++ pkey)
      /\ exists key, CKey_Load E pkey pub true = Some key
                     /\ LoadKey E w key pub = true))
  /\ (unserialize as_uint256 rest = None
      \/ (exists rest', rest = IUint256 0%N :: rest') ->
      (fst r = true <->
       exists key, CKey_Load E pkey pub false = Some key
                   /\ LoadKey E w key pub = true))
  /\ (fst r = true ->
      exists key fSkipCheck,
        CKey_Load E pkey pub fSkipCheck = Some key
        /\ pwallet (snd r) = called (CallLoadKey key pub) w).
Proof.
  intros Hv r. subst r. rewrite (ReadKeyValue_key_run E _ _ _ _ _ _ _ _ Hv).
  split; [ | split ].
  - intros h rest' -> Hh.
    unfold bind at 1. cbn.
    assert (Hz : (h =? 0)%N = false) by (apply N.eqb_neq; exact Hh).
    unfold rkv_key_hash. rewrite Hz. cbn.
    destruct (N.eqb_spec (Hash E (pub ++ pkey)) h) as [Heq|Hne]; cbn.
    + match goal with
      | |- context [rkv_key_load E pub pkey true ?st] =>
          pose proof (rkv_key_load_ok E pub pkey true st) as Hok;
          destruct (rkv_key_load E pub pkey true st) as [[[]|] st']
      end; cbn in *.
      * split; [ intros _; split; [ auto | apply Hok; reflexivity ] | reflexivity ].
      * split; [ discriminate | ].
        intros [_ Hex]. apply Hok in Hex. discriminate.
    + split; [ discriminate | intros [Heq _]; congruence ].
  - intros Hrest.
    assert (Hrun :
      try_catch (value_read as_uint256) 0%N (after_privkey is_key w kr rest s)
      = (Some 0%N, after_privkey is_key w kr
                     (match rest with IUint256 _ :: rest' => rest' | _ => rest end) s)).
    { unfold try_catch, value_read. cbn.
      destruct Hrest as [Hnone | [rest' ->]].
      - rewrite Hnone. destruct rest as [|[] ?]; try reflexivity. discriminate.
      - reflexivity. }
    rewrite (bind_some _ _ _ _ _ Hrun). cbn.
    match goal with
    | |- context [rkv_key_load E pub pkey false ?st] =>
        pose proof (rkv_key_load_ok E pub pkey false st) as Hok;
        destruct (rkv_key_load E pub pkey false st) as [[[]|] st']
    end; cbn in *.
    + split; [ intros _; apply Hok; reflexivity | reflexivity ].
    + split; [ discriminate | intros Hex; apply Hok in Hex; discriminate ].
  - destruct (bind (try_catch (value_read as_uint256) 0%N) _
                (after_privkey is_key w kr rest s)) as [[u|] st3] eqn:HX;
      cbn; [ intros _ | discriminate ].
    unfold bind in HX.
    destruct (try_catch (value_read as_uint256) 0%N
                (after_privkey is_key w kr rest s)) as [[hash|] st1] eqn:Hread;
      [ | discriminate ].
    assert (Hw1 : pwallet st1 = w).
    { revert Hread. unfold try_catch, value_read. cbn.
      destruct (unserialize as_uint256 rest) as [[a rest0]|];
        intros H; inversion H; reflexivity. }
    destruct (rkv_key_hash E pub pkey hash st1) as [[fSkip|] st2] eqn:Hhash;
      [ | discriminate ].
    assert (Hw2 : pwallet st2 = w).
    { revert Hhash. unfold rkv_key_hash.
      destruct (negb (hash =? 0)%N);
        [ destruct (negb (Hash E (pub ++ pkey) =? hash)%N) | ];
        cbn; intros H; try discriminate; injection H as _ <-; exact Hw1. }
    pose proof (rkv_key_load_wallet E pub pkey fSkip st2) as Hload.
    rewrite HX in Hload. cbn in Hload. destruct u.
    destruct (Hload eq_refl) as [key [Hk Hw3]].
    exists key, fSkip. rewrite Hw3, Hw2. auto.
Qed.

(** A [key] record whose trailing hash is present, null, and different from
    [Hash(pubkey ++ privkey)] is decoded successfully. *)
Lemma ReadKeyValue_key_null_hash_accepted :
  CPubKey_IsValid sample_env sample_pubkey = true
  /\ Hash sample_env (sample_pubkey ++ sample_privkey) <> 0%N
  /\ fst (ReadKeyValue sample_env
            (rkv_args empty_wallet [IString "key"; IPubKey sample_pubkey]
                      [IBytes sample_privkey; IUint256 0%N] new_scan_state))
     = true.
Proof. repeat split. discriminate. Qed.

Lemma ReadKeyValue_key_integrity_witness :
  fst (ReadKeyValue sample_env
         (rkv_args empty_wallet [IString "key"; IPubKey sample_pubkey]
                   [IBytes sample_privkey; IUint256 5%N] new_scan_state))
  = true.
Proof.
  refine (proj2 (proj1 (ReadKeyValue_key_integrity sample_env empty_wallet
                          new_scan_state true sample_pubkey sample_privkey []
                          [] [IUint256 5%N] eq_refl) 5%N [] eq_refl _) _).
  - discriminate.
  - split; [ reflexivity | ].
    exists sample_privkey. split; reflexivity.
Defined.

(** ** The scan loop *)

Section ScanFacts.
Context (E : Env).

(** One turn of the loop is one [ReadAtCursor]. *)
Lemma load_scan_ReadAtCursor pcursor b l :
  load_scan E pcursor b l
  = match ReadAtCursor pcursor b with
    | (CursorRecord k v, rest, b') => load_scan E rest b' (load_record E k v l)
    | (CursorNotFound, _, b') => (true, b', l)
    | (CursorError, _, b') => (false, b', l)
    end.
Proof.
  unfold ReadAtCursor. destruct pcursor as [|[k v] rest]; simpl;
    destruct (engine_call b) as [[] b']; reflexivity.
Qed.

Lemma load_scan_no_faults pcursor b l :
  no_faults b ->
  exists b', load_scan E pcursor b l = (true, b', load_records E pcursor l)
             /\ no_faults b' /\ db_records b' = db_records b.
Proof.
  revert b l. induction pcursor as [|[k v] rest IH]; intros b l Hb; simpl;
    destruct (engine_call_no_faults b Hb) as [Hok Hb'];
    pose proof (engine_call_records b) as Hrecs;
    destruct (engine_call b) as [ok b1]; simpl in *; subst ok.
  - exists b1. auto.
  - destruct (IH b1 (load_record E k v l) Hb') as [b' [Hscan [Hnf Hr]]].
    exists b'. rewrite Hscan. repeat split; [ exact Hnf | congruence ].
Qed.

Lemma load_records_app recs1 recs2 l :
  load_records E (recs1 ++ recs2) l
  = load_records E recs2 (load_records E recs1 l).
Proof. unfold load_records. apply fold_left_app. Qed.

(** What [load_record] hands on of the scan state is what [ReadKeyValue]
    left. *)
Lemma load_record_wss k v l :
  l_wss (load_record E k v l)
  = wss (snd (ReadKeyValue E (rkv_args (l_wallet l) k v (l_wss l)))).
Proof.
  unfold load_record.
  destruct (ReadKeyValue E (rkv_args (l_wallet l) k v (l_wss l))) as [[] st];
    simpl; [ reflexivity | ].
  destruct (IsKeyType (strType st) || (strType st =? "defaultkey")%string);
    [ reflexivity | ].
  destruct (strType st =? "flags")%string; reflexivity.
Qed.

End ScanFacts.

(** ** The [version] record *)

Ltac keeps_wss_step :=
  match goal with
  | |- keeps _ (on_wss _) => apply keeps_wss_on_wss; intros ?; reflexivity
  | _ => keeps_step
  end.

Section VersionRecord.
Context (E : Env).

(** Only the [version] branch writes [nFileVersion]. *)
Lemma keeps_nFileVersion_dispatch t :
  t <> "version" ->
  keeps (fun st => nFileVersion (wss st)) (rkv_dispatch E t).
Proof.
  intros Ht. unfold rkv_dispatch.
  destruct (String.eqb_spec t "version") as [Heq|_]; [ contradiction | ].
  cbv iota.
  unfold rkv_name, rkv_purpose, rkv_tx, rkv_tx_legacy,
    rkv_watchs, rkv_key, rkv_key_load, rkv_privkey, rkv_key_hash, rkv_mkey,
    rkv_ckey, rkv_keymeta, rkv_watchmeta, rkv_defaultkey, rkv_pool,
    rkv_cscript, rkv_orderposnext, rkv_destdata, rkv_hdchain, rkv_flags,
    rkv_other, leave_with, call_bool.
  repeat keeps_wss_step.
Qed.

Lemma ReadKeyValue_other_keeps_nFileVersion w k v s :
  record_tag k <> "version" ->
  nFileVersion (wss (snd (ReadKeyValue E (rkv_args w k v s))))
  = nFileVersion s.
Proof.
  intros Ht. unfold ReadKeyValue, rkv_body, record_tag, bind, key_read in *.
  simpl in *.
  destruct (unserialize as_string k) as [[t rest]|]; simpl; [ | reflexivity ].
  match goal with
  | |- context [rkv_dispatch E t ?st] =>
      pose proof (keeps_nFileVersion_dispatch t Ht st) as H;
      destruct (rkv_dispatch E t st) as [[u|] st']
  end; simpl in *; exact H.
Qed.

Lemma ReadKeyValue_version w kr vr s (v : Z) :
  ReadKeyValue E (rkv_args w (IString "version" :: kr) (IInt v :: vr) s)
  = (true,
     {| pwallet := w; ssKey := kr; ssValue := vr;
        wss := set_nFileVersion (if v =? 10300 then 300 else v) s;
        strType := "version"; strErr := MsgEmpty |}).
Proof.
  unfold ReadKeyValue, rkv_body. cbn. unfold rkv_version. cbn.
  destruct (v =? 10300); reflexivity.
Qed.

Lemma load_records_keep_nFileVersion recs l :
  Forall (fun r => record_tag (fst r) <> "version") recs ->
  nFileVersion (l_wss (load_records E recs l)) = nFileVersion (l_wss l).
Proof.
  intros Hrecs. revert l. induction Hrecs as [|r recs Hr _ IH]; intros l.
  - reflexivity.
  - unfold load_records in *. simpl. rewrite IH, load_record_wss.
    apply ReadKeyValue_other_keeps_nFileVersion. exact Hr.
Qed.

(** The wallet [load_finalize] leaves carries the file version of the scan
    state, on every path. *)
Lemma load_finalize_walletVersion b l :
  walletVersion (snd (fst (load_finalize E b l))) = nFileVersion (l_wss l).
Proof.
  unfold load_finalize.
  repeat match goal with
         | |- context [if ?c then _ else _] => destruct c; simpl
         | |- context [let (_, _) := ?x in _] => destruct x; simpl
         end; reflexivity.
Qed.

End VersionRecord.

(** C7: when the scan of a store runs to its end (no call into the engine
    fails and [minversion] does not stop the load) and the [version] record
    of the store holds 10300, the file version in the scan state after the
    scan is 300, and so is [walletVersion], which [LoadWallet] stores into
    the wallet model. *)
Theorem LoadWallet_version_10300_is_300 (E : Env) (b : BerkeleyBatch)
  (w : CWallet) (rescan : option bool) (pre post : list record)
  (kr vr : CDataStream) :
  no_faults b ->
  too_new E (fst (Read as_int minversion_key b)) = false ->
  db_records b
  = pre ++ (IString "version" :: kr, IInt 10300 :: vr) :: post ->
  Forall (fun r => record_tag (fst r) <> "version") post ->
  (forall l, nFileVersion (l_wss (load_records E (db_records b) l)) = 300)
  /\ walletVersion (snd (fst (LoadWallet E b w rescan))) = 300.
Proof.
  intros Hnf Hmin Hrecs Hpost.
  assert (Hscan : forall l,
            nFileVersion (l_wss (load_records E (db_records b) l)) = 300).
  { intros l. rewrite Hrecs, load_records_app.
    change (load_records E ((IString "version" :: kr, IInt 10300 :: vr) :: post)
              (load_records E pre l))
      with (load_records E post
              (load_record E (IString "version" :: kr) (IInt 10300 :: vr)
                 (load_records E pre l))).
    rewrite (load_records_keep_nFileVersion E post _ Hpost).
    rewrite load_record_wss, ReadKeyValue_version. reflexivity. }
  split; [ exact Hscan | ].
  unfold LoadWallet.
  unfold Read in *.
  destruct (engine_call_no_faults b Hnf) as [Hok Hnf1].
  pose proof (engine_call_records b) as Hr1.
  destruct (engine_call b) as [ok b1]. simpl in Hok, Hnf1, Hr1. subst ok.
  set (nMinVersion :=
         match db_lookup minversion_key (db_records b1) with
         | Some v => match unserialize as_int v with
                     | Some (a, _) => (Some a, b1)
                     | None => (None, b1)
                     end
         | None => (None, b1)
         end) in *.
  assert (Hb1 : snd nMinVersion = b1).
  { subst nMinVersion. destruct (db_lookup minversion_key (db_records b1));
      [ destruct (unserialize as_int c) as [[? ?]|] | ]; reflexivity. }
  destruct nMinVersion as [mv b1']. simpl in Hb1, Hmin. subst b1'.
  rewrite Hmin. unfold GetCursor.
  destruct (engine_call_no_faults b1 Hnf1) as [Hok2 Hnf2].
  pose proof (engine_call_records b1) as Hr2.
  destruct (engine_call b1) as [ok2 b2]. simpl in Hok2, Hnf2, Hr2. subst ok2.
  destruct (load_scan_no_faults E (db_records b2) b2
              (load_start (load_minversion mv w) rescan) Hnf2)
    as [b3 [Hls [Hnf3 Hr3]]].
  rewrite Hls, load_finalize_walletVersion.
  rewrite Hr2, Hr1. apply Hscan.
Qed.

Lemma LoadWallet_version_10300_is_300_witness :
  walletVersion
    (snd (fst (LoadWallet sample_env version_batch empty_wallet None))) = 300.
Proof.
  refine (proj2 (LoadWallet_version_10300_is_300 sample_env version_batch
                   empty_wallet None
                   [([IString "name"; IString "addr"], [IString "savings"])]
                   [([IString "orderposnext"], [IInt64 5])] [] [] _ _ _ _)).
  - constructor.
  - reflexivity.
  - reflexivity.
  - repeat constructor. discriminate.
Defined.

(** ** Point writes and erasures *)

Lemma db_lookup_put_eq key value recs :
  db_lookup key (db_put key value recs) = Some value.
Proof.
  induction recs as [|[k v] rest IH]; simpl.
  - rewrite bool_decide_eq_true_2; reflexivity.
  - destruct (bool_decide (k = key)) eqn:Hk; simpl.
    + rewrite bool_decide_eq_true_2; reflexivity.
    + rewrite Hk. exact IH.
Qed.

Lemma db_lookup_put_ne key key' value recs :
  key <> key' ->
  db_lookup key' (db_put key value recs) = db_lookup key' recs.
Proof.
  intros Hne. induction recs as [|[k v] rest IH]; simpl.
  - rewrite bool_decide_eq_false_2; [ reflexivity | exact Hne ].
  - destruct (bool_decide (k = key)) eqn:Hk; simpl.
    + apply bool_decide_eq_true_1 in Hk. subst k.
      rewrite !bool_decide_eq_false_2 by exact Hne. reflexivity.
    + rewrite IH. reflexivity.
Qed.

Lemma db_lookup_del_eq key recs : db_lookup key (db_del key recs) = None.
Proof.
  induction recs as [|[k v] rest IH]; simpl; [ reflexivity | ].
  destruct (bool_decide (k = key)) eqn:Hk; simpl; [ exact IH | ].
  rewrite Hk. exact IH.
Qed.

Lemma db_lookup_del_ne key key' recs :
  key <> key' -> db_lookup key' (db_del key recs) = db_lookup key' recs.
Proof.
  intros Hne. induction recs as [|[k v] rest IH]; simpl; [ reflexivity | ].
  destruct (bool_decide (k = key)) eqn:Hk; simpl.
  - apply bool_decide_eq_true_1 in Hk. subst k.
    rewrite bool_decide_eq_false_2; [ exact IH | exact Hne ].
  - rewrite IH. reflexivity.
Qed.

(** A write that returns true has stored the value and touched no other key;
    one that returns false has changed no record. *)
Lemma Write_true key value fOverwrite b b' :
  Write key value fOverwrite b = (true, b') ->
  db_lookup key (db_records b') = Some value
  /\ (forall key', key <> key' ->
        db_lookup key' (db_records b') = db_lookup key' (db_records b))
  /\ db_faults b' = tail (db_faults b).
Proof.
  destruct b as [recs faults]. unfold Write, engine_call. simpl.
  destruct faults as [|[] fs]; simpl;
    try discriminate;
    destruct (negb fOverwrite && _); intros H; inversion H; subst; simpl;
    (split; [ apply db_lookup_put_eq | split; [ | reflexivity ] ]);
    intros key' Hne; apply db_lookup_put_ne; exact Hne.
Qed.

Lemma Write_false key value fOverwrite b b' :
  Write key value fOverwrite b = (false, b') ->
  db_records b' = db_records b.
Proof.
  destruct b as [recs faults]. unfold Write, engine_call. simpl.
  destruct faults as [|[] fs]; simpl;
    try (destruct (negb fOverwrite && _));
    intros H; inversion H; subst; reflexivity.
Qed.

Lemma Write_faults key value fOverwrite b :
  db_faults (snd (Write key value fOverwrite b)) = tail (db_faults b).
Proof.
  destruct b as [recs faults]. unfold Write, engine_call. simpl.
  destruct faults as [|[] fs]; simpl; try reflexivity;
    destruct (negb fOverwrite && _); reflexivity.
Qed.

(** An erasure touches no other key; when its call into the engine goes
    through, the key is gone. *)
Lemma Erase_other key b key' :
  key <> key' ->
  db_lookup key' (db_records (snd (Erase key b)))
  = db_lookup key' (db_records b).
Proof.
  intros Hne. destruct b as [recs faults]. unfold Erase, engine_call. simpl.
  destruct faults as [|[] fs]; simpl;
    try reflexivity; apply db_lookup_del_ne; exact Hne.
Qed.

Lemma Erase_gone key b :
  head (db_faults b) <> Some true ->
  db_lookup key (db_records (snd (Erase key b))) = None.
Proof.
  destruct b as [recs faults]. simpl. intros Hok.
  unfold Erase, engine_call. simpl.
  destruct faults as [|[] fs]; simpl;
    [ apply db_lookup_del_eq | contradiction Hok; reflexivity
    | apply db_lookup_del_eq ].
Qed.

Lemma Erase_faults key b :
  db_faults (snd (Erase key b)) = tail (db_faults b).
Proof.
  destruct b as [recs faults]. unfold Erase, engine_call. simpl.
  destruct faults as [|[] fs]; reflexivity.
Qed.

(** ** [WriteCryptedKey] *)

(** C10 (as it holds): after a [WriteCryptedKey] for a public key that
    returns true, the store holds the [keymeta] and the [ckey] record written
    for that key, and each plaintext form ([key], [wkey]) whose erasure went
    through is gone, so that no plaintext record of the key is left when
    both erasures go through (they are the third and the fourth call into
    the engine); after one that returns false, because writing [keymeta] or
    [ckey] failed, the [key] and [wkey] records are as before and at most
    the two writes have been attempted. *)
Theorem WriteCryptedKey_replaces_plaintext (vchPubKey : CPubKey)
  (vchCryptedSecret : bytes) (keyMeta : CKeyMetadata) (b : BerkeleyBatch) :
  let r := WriteCryptedKey vchPubKey vchCryptedSecret keyMeta b in
  (fst r = true ->
   db_lookup (pubkey_key "keymeta" vchPubKey) (db_records (snd r))
   = Some [IKeyMetadata keyMeta]
   /\ db_lookup (pubkey_key "ckey" vchPubKey) (db_records (snd r))
      = Some [IBytes vchCryptedSecret]
   /\ (db_faults b !! 2%nat <> Some true ->
       db_lookup (pubkey_key "key" vchPubKey) (db_records (snd r)) = None)
   /\ (db_faults b !! 3%nat <> Some true ->
       db_lookup (pubkey_key "wkey" vchPubKey) (db_records (snd r)) = None))
  /\
  (fst r = false ->
   db_lookup (pubkey_key "key" vchPubKey) (db_records (snd r))
   = db_lookup (pubkey_key "key" vchPubKey) (db_records b)
   /\ db_lookup (pubkey_key "wkey" vchPubKey) (db_records (snd r))
      = db_lookup (pubkey_key "wkey" vchPubKey) (db_records b)
   /\ (length (db_faults b) <= length (db_faults (snd r)) + 2)%nat).
Proof.
  unfold WriteCryptedKey, WriteIC, EraseIC.
  destruct (Write (pubkey_key "keymeta" vchPubKey) [IKeyMetadata keyMeta]
              true b) as [ok1 b1] eqn:Hw1.
  destruct ok1; simpl.
  - destruct (Write_true _ _ _ _ _ Hw1) as [Hmeta [Hoth1 Hf1]].
    destruct (Write (pubkey_key "ckey" vchPubKey) [IBytes vchCryptedSecret]
                false b1) as [ok2 b2] eqn:Hw2.
    destruct ok2; simpl.
    + destruct (Write_true _ _ _ _ _ Hw2) as [Hckey [Hoth2 Hf2]].
      pose proof (Erase_faults (pubkey_key "key" vchPubKey) b2) as Hf3.
      pose proof (Erase_other (pubkey_key "key" vchPubKey) b2) as Hoth3.
      pose proof (Erase_gone (pubkey_key "key" vchPubKey) b2) as Hgone3.
      destruct (Erase (pubkey_key "key" vchPubKey) b2) as [ok3 b3].
      pose proof (Erase_other (pubkey_key "wkey" vchPubKey) b3) as Hoth4.
      pose proof (Erase_gone (pubkey_key "wkey" vchPubKey) b3) as Hgone4.
      destruct (Erase (pubkey_key "wkey" vchPubKey) b3) as [ok4 b4].
      simpl in *. split; [ intros _ | discriminate ].
      assert (Hhd2 : head (db_faults b2) = db_faults b !! 2%nat).
      { rewrite Hf2, Hf1. destruct (db_faults b) as [|? [|? [|? ?]]]; reflexivity. }
      assert (Hhd3 : head (db_faults b3) = db_faults b !! 3%nat).
      { rewrite Hf3, Hf2, Hf1.
        destruct (db_faults b) as [|? [|? [|? [|? ?]]]]; reflexivity. }
      repeat split.
      * rewrite Hoth4, Hoth3, Hoth2 by discriminate. exact Hmeta.
      * rewrite Hoth4, Hoth3 by discriminate. exact Hckey.
      * intros Hok. rewrite Hoth4 by discriminate.
        apply Hgone3. rewrite Hhd2. exact Hok.
      * intros Hok. apply Hgone4. rewrite Hhd3. exact Hok.
    + split; [ discriminate | intros _ ].
      pose proof (Write_false _ _ _ _ _ Hw2) as Hr2.
      rewrite Hr2, !Hoth1 by discriminate.
      repeat split.
      pose proof (Write_faults (pubkey_key "ckey" vchPubKey)
                    [IBytes vchCryptedSecret] false b1) as Hf2.
      rewrite Hw2 in Hf2. simpl in Hf2. rewrite Hf2, Hf1.
      destruct (db_faults b) as [|? [|? ?]]; simpl; lia.
  - split; [ discriminate | intros _ ].
    pose proof (Write_false _ _ _ _ _ Hw1) as Hr1. rewrite Hr1.
    repeat split.
    pose proof (Write_faults (pubkey_key "keymeta" vchPubKey)
                  [IKeyMetadata keyMeta] true b) as Hf1.
    rewrite Hw1 in Hf1. simpl in Hf1. rewrite Hf1.
    destruct (db_faults b) as [|? ?]; simpl; lia.
Qed.

(** The erasure of the plaintext [key] record fails, [WriteCryptedKey]
    returns true all the same, and the store then holds both the [ckey] and
    the plaintext [key] record of the public key. *)
Lemma WriteCryptedKey_plaintext_survives :
  let r := WriteCryptedKey sample_pubkey [Byte.x99] [] erase_fault_batch in
  fst r = true
  /\ db_lookup (pubkey_key "ckey" sample_pubkey) (db_records (snd r))
     = Some [IBytes [Byte.x99]]
  /\ db_lookup (pubkey_key "key" sample_pubkey) (db_records (snd r))
     = Some [IBytes sample_privkey].
Proof. repeat split. Qed.

Lemma WriteCryptedKey_replaces_plaintext_witness :
  let r := WriteCryptedKey sample_pubkey [Byte.x99] [] plaintext_batch in
  db_lookup (pubkey_key "keymeta" sample_pubkey) (db_records (snd r))
  = Some [IKeyMetadata []]
  /\ db_lookup (pubkey_key "ckey" sample_pubkey) (db_records (snd r))
     = Some [IBytes [Byte.x99]]
  /\ db_lookup (pubkey_key "key" sample_pubkey) (db_records (snd r)) = None
  /\ db_lookup (pubkey_key "wkey" sample_pubkey) (db_records (snd r)) = None.
Proof.
  destruct (proj1 (WriteCryptedKey_replaces_plaintext sample_pubkey
                     [Byte.x99] [] plaintext_batch) eq_refl)
    as [Hmeta [Hckey [Hkey Hwkey]]].
  split; [ exact Hmeta | ].
  split; [ exact Hckey | ].
  split; [ apply Hkey | apply Hwkey ]; discriminate.
Defined.

(** ** Fatal record failures *)

Section FatalFailures.
Context (E : Env).

Lemma load_record_result k v l :
  l_result (load_record E k v l)
  = let (decoded, st) :=
      ReadKeyValue E (rkv_args (l_wallet l) k v (l_wss l)) in
    if decoded then l_result l
    else result_after_failure (l_result l) (strType st).
Proof.
  unfold load_record, result_after_failure.
  destruct (ReadKeyValue E (rkv_args (l_wallet l) k v (l_wss l))) as [[] st];
    simpl; [ reflexivity | ].
  destruct (IsKeyType (strType st) || (strType st =? "defaultkey")%string);
    [ reflexivity | ].
  destruct (strType st =? "flags")%string; reflexivity.
Qed.

(** [result] at the end of the loop, whichever way it is left. *)
Lemma load_scan_result pcursor b l :
  l_result (snd (load_scan E pcursor b l))
  = fold_left result_after_failure (load_failures E pcursor b l) (l_result l).
Proof.
  revert b l. induction pcursor as [|[k v] rest IH]; intros b l; simpl;
    destruct (engine_call b) as [[] b']; simpl; try reflexivity.
  rewrite IH, load_record_result.
  destruct (ReadKeyValue E (rkv_args (l_wallet l) k v (l_wss l))) as [[] st];
    reflexivity.
Qed.

End FatalFailures.

Lemma result_after_failure_fatal r t :
  is_fatal_tag t = true ->
  result_after_failure r t
  = if (t =? "flags")%string then DB_TOO_NEW else DB_CORRUPT.
Proof.
  unfold is_fatal_tag, result_after_failure.
  destruct (String.eqb_spec t "flags") as [->|Hne]; [ reflexivity | ].
  destruct (IsKeyType t || (t =? "defaultkey")%string); [ reflexivity | ].
  discriminate.
Qed.

Lemma result_after_failure_other r t :
  is_fatal_tag t = false -> result_after_failure r t = r.
Proof.
  unfold is_fatal_tag, result_after_failure.
  destruct (IsKeyType t || (t =? "defaultkey")%string); [ discriminate | ].
  simpl. intros ->. reflexivity.
Qed.

(** The last fatal failure decides. *)
Lemma fold_result_after_failure tags r :
  fold_left result_after_failure tags r
  = match last (List.filter is_fatal_tag tags) with
    | Some t => if (t =? "flags")%string then DB_TOO_NEW else DB_CORRUPT
    | None => r
    end.
Proof.
  revert r. induction tags as [|t tags IH]; intros r; simpl; [ reflexivity | ].
  rewrite IH. destruct (is_fatal_tag t) eqn:Ht.
  - rewrite (result_after_failure_fatal r t Ht).
    destruct (List.filter is_fatal_tag tags) as [|t' tags'] eqn:Hf; simpl.
    + reflexivity.
    + change (last (t :: t' :: tags')) with (last (t' :: tags')).
      destruct (last (t' :: tags')) as [t''|] eqn:Hl; [ reflexivity | ].
      apply last_None in Hl. discriminate.
  - rewrite (result_after_failure_other r t Ht). reflexivity.
Qed.

Lemma Read_batch {A} (as_A : item -> option A) key b :
  snd (Read as_A key b) = snd (engine_call b).
Proof.
  unfold Read. destruct (engine_call b) as [[] b1]; simpl; [ | reflexivity ].
  destruct (db_lookup key (db_records b1)) as [v|]; [ | reflexivity ].
  destruct (unserialize as_A v) as [[a rest]|]; reflexivity.
Qed.

Lemma GetCursor_no_faults b :
  no_faults b ->
  GetCursor b = (Some (db_records b), snd (engine_call b))
  /\ no_faults (snd (engine_call b)).
Proof.
  intros Hnf. unfold GetCursor.
  destruct (engine_call_no_faults b Hnf) as [Hok Hnf'].
  pose proof (engine_call_records b) as Hr.
  destruct (engine_call b) as [ok b']. simpl in *. subst ok.
  rewrite Hr. auto.
Qed.

(** A result other than [DB_LOAD_OK] is returned as it is. *)
Lemma load_finalize_not_ok (E : Env) b l :
  l_result l <> DB_LOAD_OK ->
  load_finalize E b l
  = (Returns (l_result l), b,
     set_walletVersion (nFileVersion (l_wss l)) (l_wallet l), l_rescan l).
Proof.
  intros Hne. unfold load_finalize.
  rewrite (bool_decide_eq_false_2 _ Hne), andb_false_r.
  rewrite (bool_decide_eq_false_2 _ Hne). reflexivity.
Qed.

(** The tags whose failure the load treats as fatal, by name. *)
Lemma is_fatal_tag_by_name t :
  is_fatal_tag t
  = bool_decide (t ∈ ["key"; "wkey"; "mkey"; "ckey"; "defaultkey"; "flags"]).
Proof.
  unfold is_fatal_tag. rewrite IsKeyType_by_name.
  destruct (decide (t ∈ ["key"; "wkey"; "mkey"; "ckey"; "defaultkey";
                         "flags"])) as [Hin|Hout].
  - rewrite (bool_decide_eq_true_2 _ Hin).
    rewrite !elem_of_cons, elem_of_nil in Hin.
    destruct Hin as [->|[->|[->|[->|[->|[->|[]]]]]]]; reflexivity.
  - rewrite (bool_decide_eq_false_2 _ Hout).
    repeat (apply orb_false_iff; split).
    + apply bool_decide_eq_false_2. intros Hin. apply Hout.
      rewrite !elem_of_cons, elem_of_nil in Hin. rewrite !elem_of_cons.
      tauto.
    + apply String.eqb_neq. intros ->. apply Hout.
      rewrite !elem_of_cons. auto 8.
    + apply String.eqb_neq. intros ->. apply Hout.
      rewrite !elem_of_cons. auto 8.
Qed.

(** C1 (as it holds): when a record whose tag is [key], [wkey], [mkey],
    [ckey], [defaultkey] or [flags] fails to decode during a load, the
    outcome of [LoadWallet] is [CORRUPT] or [TOO_NEW], hence neither [OK]
    nor [NONCRITICAL_ERROR]; it is [CORRUPT] when the last such record is a
    [key], [wkey], [mkey], [ckey] or [defaultkey] record, and [TOO_NEW] when
    the last such record is a [flags] record and no call into the engine
    fails. *)
Theorem LoadWallet_fatal_failure (E : Env) (b : BerkeleyBatch) (w : CWallet)
  (rescan : option bool) :
  let out := fst (fst (fst (LoadWallet E b w rescan))) in
  let fatal :=
    List.filter
      (fun t => bool_decide (t ∈ ["key"; "wkey"; "mkey"; "ckey";
                                  "defaultkey"; "flags"]))
      (LoadWallet_failures E b w rescan) in
  (fatal <> [] -> out = Returns DB_CORRUPT \/ out = Returns DB_TOO_NEW)
  /\ (forall t, last fatal = Some t -> t <> "flags" ->
      out = Returns DB_CORRUPT)
  /\ (last fatal = Some "flags" -> no_faults b -> out = Returns DB_TOO_NEW).
Proof.
  rewrite <- (List.filter_ext _ _ is_fatal_tag_by_name).
  unfold LoadWallet, LoadWallet_failures.
  pose proof (Read_batch as_int minversion_key b) as Hb1.
  destruct (Read as_int minversion_key b) as [mv b1]. simpl in Hb1.
  destruct (too_new E mv).
  { simpl. repeat split; intros; congruence. }
  pose proof (GetCursor_no_faults b1) as Hcur.
  destruct (GetCursor b1) as [[pcursor|] b2].
  2: { simpl. repeat split; intros; congruence. }
  set (l0 := load_start (load_minversion mv w) rescan).
  pose proof (load_scan_result E pcursor b2 l0) as Hres.
  rewrite fold_result_after_failure in Hres.
  pose proof (load_scan_no_faults E pcursor b2 l0) as Hscan.
  destruct (load_scan E pcursor b2 l0) as [[left_by_break b3] l].
  simpl in Hres. cbv zeta.
  destruct (last (List.filter is_fatal_tag (load_failures E pcursor b2 l0)))
    as [t|] eqn:Hlast.
  2: { apply last_None in Hlast. rewrite Hlast.
       repeat split; intros; congruence. }
  assert (Hne : l_result l <> DB_LOAD_OK).
  { rewrite Hres. destruct (t =? "flags")%string; discriminate. }
  split; [ | split ].
  - intros _. destruct left_by_break; simpl; [ | auto ].
    rewrite (load_finalize_not_ok E b3 l Hne). simpl. rewrite Hres.
    destruct (t =? "flags")%string; auto.
  - intros t' Ht' Hflags. inversion Ht'; subst t'.
    destruct left_by_break; simpl; [ | reflexivity ].
    rewrite (load_finalize_not_ok E b3 l Hne). simpl. rewrite Hres.
    destruct (String.eqb_spec t "flags"); [ contradiction | reflexivity ].
  - intros Ht Hnf. inversion Ht; subst t.
    assert (Hnf1 : no_faults b1).
    { rewrite Hb1. apply engine_call_no_faults. exact Hnf. }
    destruct (Hcur Hnf1) as [Hget Hnf2].
    inversion Hget; subst pcursor b2.
    destruct (Hscan Hnf2) as [b' [Hls _]].
    inversion Hls; subst.
    rewrite (load_finalize_not_ok E _ _ Hne). simpl. rewrite Hres.
    reflexivity.
Qed.

(** A [key] record fails to decode and the outcome is [TOO_NEW], not
    [CORRUPT]: a [flags] record fails after it. *)
Lemma LoadWallet_key_failure_too_new :
  LoadWallet_failures sample_env key_then_flags_batch empty_wallet None
  = ["key"; "flags"]
  /\ fst (fst (fst (LoadWallet sample_env key_then_flags_batch empty_wallet
                      None)))
     = Returns DB_TOO_NEW.
Proof. split; reflexivity. Qed.

Lemma LoadWallet_fatal_failure_witness :
  LoadWallet_failures sample_env bad_ckey_batch empty_wallet None = ["ckey"]
  /\ fst (fst (fst (LoadWallet sample_env bad_ckey_batch empty_wallet None)))
     = Returns DB_CORRUPT.
Proof.
  split; [ reflexivity | ].
  refine (proj1 (proj2 (LoadWallet_fatal_failure sample_env bad_ckey_batch
                          empty_wallet None)) "ckey" _ _).
  - reflexivity.
  - discriminate.
Defined.

(** ** Record errors and the migration steps *)

Section Migration.
Context (E : Env).

Lemma load_record_noncritical k v l :
  l_fNoncriticalErrors (load_record E k v l)
  = let (decoded, st) :=
      ReadKeyValue E (rkv_args (l_wallet l) k v (l_wss l)) in
    l_fNoncriticalErrors l
    || (if decoded then false else negb (is_fatal_tag (strType st))).
Proof.
  unfold load_record, is_fatal_tag.
  destruct (ReadKeyValue E (rkv_args (l_wallet l) k v (l_wss l))) as [[] st];
    simpl; [ rewrite orb_false_r; reflexivity | ].
  destruct (IsKeyType (strType st) || (strType st =? "defaultkey")%string);
    simpl; [ rewrite orb_false_r; reflexivity | ].
  destruct (strType st =? "flags")%string; simpl;
    [ rewrite orb_false_r | rewrite orb_true_r ]; reflexivity.
Qed.

(** [fNoncriticalErrors] at the end of the loop. *)
Lemma load_scan_noncritical pcursor b l :
  l_fNoncriticalErrors (snd (load_scan E pcursor b l))
  = l_fNoncriticalErrors l
    || existsb (fun t => negb (is_fatal_tag t)) (load_failures E pcursor b l).
Proof.
  revert b l. induction pcursor as [|[k v] rest IH]; intros b l; simpl;
    destruct (engine_call b) as [[] b']; simpl;
    try (rewrite orb_false_r; reflexivity).
  rewrite IH, load_record_noncritical.
  destruct (ReadKeyValue E (rkv_args (l_wallet l) k v (l_wss l))) as [[] st];
    simpl.
  - rewrite orb_false_r. reflexivity.
  - rewrite orb_assoc. reflexivity.
Qed.

(** A load during which no call into the engine fails and that [minversion]
    does not stop comes to [load_finalize] with the locals of the scan and
    every record in place. *)
Lemma LoadWallet_no_faults b w rescan :
  no_faults b ->
  too_new E (fst (Read as_int minversion_key b)) = false ->
  exists b2 b3,
    LoadWallet E b w rescan = load_finalize E b3 (scanned E b w rescan)
    /\ db_records b3 = db_records b /\ no_faults b3
    /\ db_records b2 = db_records b
    /\ load_scan E (db_records b) b2
         (load_start (load_minversion (fst (Read as_int minversion_key b)) w)
                     rescan)
       = (true, b3, scanned E b w rescan)
    /\ LoadWallet_failures E b w rescan
       = load_failures E (db_records b) b2
           (load_start (load_minversion (fst (Read as_int minversion_key b)) w)
                       rescan).
Proof.
  intros Hnf Hmin. unfold LoadWallet, LoadWallet_failures, scanned.
  pose proof (Read_batch as_int minversion_key b) as Hb1.
  destruct (Read as_int minversion_key b) as [mv b1]. simpl in *.
  rewrite Hmin.
  destruct (engine_call_no_faults b Hnf) as [_ Hnf1]. rewrite <- Hb1 in Hnf1.
  pose proof (engine_call_records b) as Hr1. rewrite <- Hb1 in Hr1.
  destruct (GetCursor_no_faults b1 Hnf1) as [Hget Hnf2]. rewrite Hget.
  pose proof (engine_call_records b1) as Hr2.
  set (b2 := snd (engine_call b1)) in *.
  destruct (load_scan_no_faults E (db_records b1) b2
              (load_start (load_minversion mv w) rescan) Hnf2)
    as [b3 [Hls [Hnf3 Hr3]]].
  exists b2, b3. rewrite Hls, Hr1.
  split; [ reflexivity | ]. split; [ congruence | ].
  split; [ exact Hnf3 | ]. split; [ congruence | ].
  split; [ rewrite <- Hr1; exact Hls | reflexivity ].
Qed.

(** The result the scan hands to [load_finalize], after the downgrade. *)
Lemma load_finalize_skip b l :
  (if l_fNoncriticalErrors l && bool_decide (l_result l = DB_LOAD_OK)
   then DB_NONCRITICAL_ERROR else l_result l) <> DB_LOAD_OK ->
  load_finalize E b l
  = (Returns (if l_fNoncriticalErrors l && bool_decide (l_result l = DB_LOAD_OK)
              then DB_NONCRITICAL_ERROR else l_result l),
     b, set_walletVersion (nFileVersion (l_wss l)) (l_wallet l), l_rescan l).
Proof.
  intros Hne. unfold load_finalize.
  rewrite (bool_decide_eq_false_2 _ Hne). reflexivity.
Qed.

End Migration.

Lemma existsb_nonfatal_failures tags :
  tags <> [] -> List.filter is_fatal_tag tags = [] ->
  existsb (fun t => negb (is_fatal_tag t)) tags = true.
Proof.
  destruct tags as [|t tags]; [ contradiction | ]. intros _. simpl.
  destruct (is_fatal_tag t); [ discriminate | reflexivity ].
Qed.

(** C2 (as it holds): in a load during which no call into the engine fails
    and only records with other tags than the key-bearing ones, [defaultkey]
    and [flags] fail to decode, the outcome is downgraded from [OK] to
    [NONCRITICAL_ERROR]; and whenever some record failed to decode the
    outcome is [NONCRITICAL_ERROR], [CORRUPT] or [TOO_NEW] and [LoadWallet]
    returns before the migration steps: every record of the store is as it
    was (no transaction re-persisted, no version written) and the wallet is
    the one the scan left, with [walletVersion] set and no further callback
    (no reordering); [NONCRITICAL_ERROR] skips the migration steps just as
    the fatal outcomes do. *)
Theorem LoadWallet_record_errors_skip_migration (E : Env) (b : BerkeleyBatch)
  (w : CWallet) (rescan : option bool) :
  no_faults b ->
  LoadWallet_failures E b w rescan <> [] ->
  let r := LoadWallet E b w rescan in
  let l := scanned E b w rescan in
  (List.filter is_fatal_tag (LoadWallet_failures E b w rescan) = [] ->
   fst (fst (fst r)) = Returns DB_NONCRITICAL_ERROR)
  /\ (fst (fst (fst r)) = Returns DB_NONCRITICAL_ERROR
      \/ fst (fst (fst r)) = Returns DB_CORRUPT
      \/ fst (fst (fst r)) = Returns DB_TOO_NEW)
  /\ db_records (snd (fst (fst r))) = db_records b
  /\ snd (fst r) = set_walletVersion (nFileVersion (l_wss l)) (l_wallet l)
  /\ snd r = l_rescan l.
Proof.
  intros Hnf Hfail.
  assert (Hmin : too_new E (fst (Read as_int minversion_key b)) = false).
  { destruct (too_new E (fst (Read as_int minversion_key b))) eqn:Hmin;
      [ | reflexivity ].
    contradiction Hfail. unfold LoadWallet_failures.
    destruct (Read as_int minversion_key b) as [mv b1]. simpl in Hmin.
    rewrite Hmin. reflexivity. }
  destruct (LoadWallet_no_faults E b w rescan Hnf Hmin)
    as [b2 [b3 [Hload [Hr3 [_ [_ [Hls Hfs]]]]]]].
  cbv zeta. rewrite Hload. rewrite Hfs in *.
  set (l0 := load_start (load_minversion (fst (Read as_int minversion_key b)) w)
                        rescan) in *.
  pose proof (load_scan_result E (db_records b) b2 l0) as Hres.
  pose proof (load_scan_noncritical E (db_records b) b2 l0) as Hnc.
  rewrite Hls in Hres, Hnc. simpl in Hres, Hnc.
  rewrite fold_result_after_failure in Hres.
  set (l := scanned E b w rescan) in *.
  set (result := if l_fNoncriticalErrors l
                    && bool_decide (l_result l = DB_LOAD_OK)
                 then DB_NONCRITICAL_ERROR else l_result l).
  assert (Hcases :
    (List.filter is_fatal_tag (load_failures E (db_records b) b2 l0) = [] ->
     result = DB_NONCRITICAL_ERROR)
    /\ (result = DB_NONCRITICAL_ERROR \/ result = DB_CORRUPT
        \/ result = DB_TOO_NEW)).
  { subst result.
    destruct (last (List.filter is_fatal_tag
                      (load_failures E (db_records b) b2 l0)))
      as [t|] eqn:Hlast.
    - assert (Hne : l_result l <> DB_LOAD_OK).
      { rewrite Hres. destruct (t =? "flags")%string; discriminate. }
      rewrite (bool_decide_eq_false_2 _ Hne), andb_false_r.
      split.
      + intros Hnil. rewrite Hnil in Hlast. discriminate.
      + rewrite Hres. destruct (t =? "flags")%string; auto.
    - apply last_None in Hlast.
      rewrite (existsb_nonfatal_failures _ Hfail Hlast) in Hnc.
      rewrite Hnc, Hres. simpl. auto. }
  destruct Hcases as [Hdown Hskip].
  assert (Hne : result <> DB_LOAD_OK).
  { destruct Hskip as [-> | [-> | ->]]; discriminate. }
  rewrite (load_finalize_skip E b3 l Hne). simpl. fold result.
  split; [ intros Hnil; rewrite (Hdown Hnil); reflexivity | ].
  split; [ destruct Hskip as [-> | [-> | ->]]; auto | ].
  split; [ exact Hr3 | ]. split; reflexivity.
Qed.

(** Only a [name] record fails to decode; a hash is queued for rewrite, a
    transaction has no position and the file version is below
    [CLIENT_VERSION].  The outcome is [NONCRITICAL_ERROR], and none of the
    migration steps is performed: the stored transaction still has its
    legacy marker, there is no [version] record, and the last callback is the
    [LoadToWallet] of the scan. *)
Lemma LoadWallet_noncritical_skips_migration :
  let r := LoadWallet sample_env noncritical_batch empty_wallet None in
  let l := scanned sample_env noncritical_batch empty_wallet None in
  LoadWallet_failures sample_env noncritical_batch empty_wallet None = ["name"]
  /\ vWalletUpgrade (l_wss l) = [7%N]
  /\ fAnyUnordered (l_wss l) = true
  /\ nFileVersion (l_wss l) < CLIENT_VERSION sample_env
  /\ fst (fst (fst r)) = Returns DB_NONCRITICAL_ERROR
  /\ db_lookup (tx_key 7%N) (db_records (snd (fst (fst r))))
     = Some [IWalletTx legacy_wtx]
  /\ db_lookup [IString "version"] (db_records (snd (fst (fst r)))) = None
  /\ last (wallet_calls (snd (fst r)))
     = Some (CallLoadToWallet (set_fTimeReceivedIsTxTime 0 legacy_wtx)).
Proof. vm_compute. repeat split; congruence. Qed.

Lemma LoadWallet_record_errors_skip_migration_witness :
  fst (fst (fst (LoadWallet sample_env noncritical_batch empty_wallet None)))
  = Returns DB_NONCRITICAL_ERROR
  /\ db_records
       (snd (fst (fst (LoadWallet sample_env noncritical_batch empty_wallet
                         None))))
     = db_records noncritical_batch.
Proof.
  destruct (LoadWallet_record_errors_skip_migration sample_env
              noncritical_batch empty_wallet None)
    as [Hdown [_ [Hrecs _]]].
  - constructor.
  - discriminate.
  - split; [ apply Hdown; reflexivity | exact Hrecs ].
Defined.

(** ** Selective erase *)

Lemma advance_split hash it :
  exists dropped, it = dropped ++ advance hash it
                  /\ Forall (fun x => (x < hash)%N) dropped
                  /\ (forall x rest, advance hash it = x :: rest -> (hash <= x)%N).
Proof.
  induction it as [|x it IH]; simpl.
  - exists []. repeat split; [ constructor | discriminate ].
  - destruct (N.ltb_spec x hash) as [Hlt|Hge].
    + destruct IH as [dropped [Heq [Hall Hhd]]].
      exists (x :: dropped). split; [ simpl; congruence | ].
      split; [ constructor; assumption | exact Hhd ].
    + exists []. repeat split; [ constructor | ].
      intros x' rest H. inversion H; subst. exact Hge.
Qed.

Lemma advance_elem_of hash it r :
  (hash <= r)%N -> r ∈ it <-> r ∈ advance hash it.
Proof.
  intros Hr. destruct (advance_split hash it) as [dropped [Heq [Hall _]]].
  rewrite Heq at 1. rewrite elem_of_app. split; [ | auto ].
  intros [Hin|Hin]; [ | exact Hin ].
  rewrite Forall_forall in Hall. specialize (Hall r Hin). lia.
Qed.

Lemma advance_sorted hash it :
  StronglySorted N.le it -> StronglySorted N.le (advance hash it).
Proof.
  intros Hs. destruct (advance_split hash it) as [dropped [Heq _]].
  rewrite Heq in Hs. apply StronglySorted_app_1_r in Hs. exact Hs.
Qed.

Lemma filter_elem_of_ext (l1 l2 vs : list N) :
  Forall (fun r => r ∈ l1 <-> r ∈ l2) vs ->
  List.filter (fun h => bool_decide (h ∈ l1)) vs
  = List.filter (fun h => bool_decide (h ∈ l2)) vs.
Proof.
  induction 1 as [|r vs Hr _ IH]; simpl; [ reflexivity | ].
  rewrite IH. rewrite (bool_decide_ext (r ∈ l1) (r ∈ l2) Hr). reflexivity.
Qed.

Lemma zap_loop_spec vs : forall it b delerror out,
  StronglySorted N.le vs -> StronglySorted N.le it ->
  zap_loop vs it b delerror out
  = (fst (erase_all (List.filter (fun h => bool_decide (h ∈ it)) vs) b delerror),
     snd (erase_all (List.filter (fun h => bool_decide (h ∈ it)) vs) b delerror),
     out ++ List.filter (fun h => bool_decide (h ∈ it)) vs).
Proof.
  induction vs as [|hash rest IH]; intros it b delerror out Hvs Hit; simpl.
  - rewrite app_nil_r. reflexivity.
  - apply StronglySorted_inv in Hvs. destruct Hvs as [Hrest Hle].
    pose proof (advance_sorted hash it Hit) as Hadv.
    assert (Hmem : forall r, (hash <= r)%N -> r ∈ it <-> r ∈ advance hash it)
      by (intros r Hr; apply advance_elem_of; exact Hr).
    assert (Hfilter :
      List.filter (fun h => bool_decide (h ∈ it)) rest
      = List.filter (fun h => bool_decide (h ∈ advance hash it)) rest).
    { apply filter_elem_of_ext. rewrite Forall_forall in Hle |- *.
      intros r Hr. apply Hmem. apply Hle. exact Hr. }
    rewrite Hfilter.
    rewrite (bool_decide_ext (hash ∈ it) (hash ∈ advance hash it)
               (Hmem hash (N.le_refl hash))).
    destruct (advance_split hash it) as [_ [_ [_ Hhd]]].
    destruct (advance hash it) as [|x it'] eqn:Hadv_eq.
    + rewrite bool_decide_eq_false_2 by (apply not_elem_of_nil).
      assert (Hnil : List.filter (fun h : N => bool_decide (h ∈ @nil N)) rest
                     = []).
      { clear. induction rest as [|r rest IH]; [ reflexivity | ].
        cbn [List.filter].
        rewrite bool_decide_eq_false_2 by (apply not_elem_of_nil). exact IH. }
      rewrite Hnil, app_nil_r. reflexivity.
    + specialize (Hhd x it' eq_refl).
      destruct (N.eqb_spec x hash) as [->|Hne].
      * rewrite bool_decide_eq_true_2 by (apply list_elem_of_here). simpl.
        destruct (EraseTx hash b) as [ok b'].
        rewrite (IH _ _ _ _ Hrest Hadv). rewrite <- app_assoc. reflexivity.
      * assert (Hnot : hash ∉ x :: it').
        { apply StronglySorted_inv in Hadv. destruct Hadv as [_ Hall].
          rewrite Forall_forall in Hall.
          intros Hin. apply elem_of_cons in Hin. destruct Hin as [->|Hin].
          - contradiction.
          - specialize (Hall hash Hin). lia. }
        rewrite (bool_decide_eq_false_2 _ Hnot).
        apply (IH _ _ _ _ Hrest Hadv).
Qed.

Lemma db_lookup_del_None key key' recs :
  db_lookup key' recs = None -> db_lookup key' (db_del key recs) = None.
Proof.
  induction recs as [|[k v] rest IH]; simpl; [ reflexivity | ].
  destruct (bool_decide (k = key')) eqn:Hk'; [ discriminate | ].
  intros Hnone. destruct (bool_decide (k = key)); simpl.
  - apply IH. exact Hnone.
  - rewrite Hk'. apply IH. exact Hnone.
Qed.

Lemma Erase_keeps_absent key key' b :
  db_lookup key' (db_records b) = None ->
  db_lookup key' (db_records (snd (Erase key b))) = None.
Proof.
  destruct b as [recs faults]. unfold Erase, engine_call. simpl.
  destruct faults as [|[] fs]; simpl; intros H;
    try exact H; apply db_lookup_del_None; exact H.
Qed.

Lemma Erase_ok key b :
  fst (Erase key b) = negb (default false (head (db_faults b))).
Proof.
  destruct b as [recs faults]. unfold Erase, engine_call. simpl.
  destruct faults as [|[] fs]; reflexivity.
Qed.

(** Every hash of the list costs one call into the engine. *)
Lemma erase_all_faults hashes b delerror :
  db_faults (snd (erase_all hashes b delerror))
  = drop (length hashes) (db_faults b).
Proof.
  revert b delerror. induction hashes as [|h rest IH]; intros b delerror; simpl.
  - rewrite drop_0. reflexivity.
  - unfold EraseTx, EraseIC.
    pose proof (Erase_faults (tx_key h) b) as Hf.
    destruct (Erase (tx_key h) b) as [ok b']. simpl in Hf.
    rewrite IH, Hf. destruct (db_faults b); [ | reflexivity ].
    simpl. rewrite drop_nil. reflexivity.
Qed.

(** [delerror] is set exactly when one of these calls fails. *)
Lemma erase_all_delerror hashes b delerror :
  fst (erase_all hashes b delerror)
  = delerror || existsb id (take (length hashes) (db_faults b)).
Proof.
  revert b delerror. induction hashes as [|h rest IH]; intros b delerror; simpl.
  - rewrite orb_false_r. reflexivity.
  - unfold EraseTx, EraseIC.
    pose proof (Erase_faults (tx_key h) b) as Hf.
    pose proof (Erase_ok (tx_key h) b) as Hok.
    destruct (Erase (tx_key h) b) as [ok b']. simpl in Hf, Hok.
    rewrite IH, Hf, Hok.
    destruct (db_faults b) as [|f fs]; simpl.
    + rewrite ?take_nil. simpl. rewrite ?orb_false_r. reflexivity.
    + rewrite negb_involutive, orb_assoc. reflexivity.
Qed.

(** A hash whose erasure goes through has no record afterwards. *)
Lemma erase_all_erased hashes b delerror i h :
  hashes !! i = Some h ->
  db_faults b !! i <> Some true ->
  db_lookup (tx_key h) (db_records (snd (erase_all hashes b delerror))) = None.
Proof.
  assert (Habsent : forall hs b d key,
            db_lookup key (db_records b) = None ->
            db_lookup key (db_records (snd (erase_all hs b d))) = None).
  { induction hs as [|h' hs IH]; intros b0 d key Hnone; simpl; [ exact Hnone | ].
    unfold EraseTx, EraseIC.
    pose proof (Erase_keeps_absent (tx_key h') key b0 Hnone) as Hk.
    destruct (Erase (tx_key h') b0) as [ok b']. apply IH. exact Hk. }
  revert b delerror i.
  induction hashes as [|h' rest IH]; intros b delerror i Hi Hok;
    [ discriminate | ].
  simpl. unfold EraseTx, EraseIC.
  pose proof (Erase_faults (tx_key h') b) as Hf.
  pose proof (Erase_gone (tx_key h') b) as Hgone.
  destruct (Erase (tx_key h') b) as [ok b'] eqn:Herase. simpl in Hf, Hgone.
  destruct i as [|i]; simpl in Hi.
  - inversion Hi; subst h'. apply Habsent. apply Hgone.
    destruct (db_faults b); [ discriminate | exact Hok ].
  - apply (IH b' _ i Hi). rewrite Hf.
    destruct (db_faults b); [ discriminate | exact Hok ].
Qed.

Lemma in_both_elem_of vTxHash vTxHashIn h :
  h ∈ in_both vTxHash vTxHashIn <-> h ∈ vTxHash /\ h ∈ vTxHashIn.
Proof.
  unfold in_both, sort_hashes.
  rewrite list_elem_of_In, filter_In, <- list_elem_of_In.
  rewrite bool_decide_eq_true, (merge_sort_Permutation N.le vTxHash).
  reflexivity.
Qed.

Lemma in_both_sort_In vTxHash vTxHashIn :
  List.filter (fun h => bool_decide (h ∈ sort_hashes vTxHashIn))
              (sort_hashes vTxHash)
  = in_both vTxHash vTxHashIn.
Proof.
  unfold in_both. apply filter_elem_of_ext. apply Forall_forall.
  intros h _. unfold sort_hashes.
  rewrite (merge_sort_Permutation N.le vTxHashIn). reflexivity.
Qed.

Lemma StronglySorted_filter (f : N -> bool) l :
  StronglySorted N.le l -> StronglySorted N.le (List.filter f l).
Proof.
  induction 1 as [|x l Hl IH Hx]; simpl; [ constructor | ].
  destruct (f x); [ | exact IH ].
  constructor; [ exact IH | ].
  rewrite Forall_forall in Hx |- *. intros y Hy. apply Hx.
  apply list_elem_of_In in Hy. apply filter_In in Hy.
  apply list_elem_of_In. tauto.
Qed.

(** C9: when [FindWalletTx] succeeds, [ZapSelectTx] leaves [vTxHashIn]
    sorted, and its walk over the two sorted lists does one [EraseTx] for
    each hash that is both among the transactions found and among the
    requested ones, in ascending order and whatever the earlier erasures
    returned (one call into the engine per such hash); these hashes are
    appended to [vTxHashOut], the record of each hash whose erasure went
    through is gone, and the value returned is [CORRUPT] when one of the
    erasures failed and [OK] otherwise. *)
Theorem ZapSelectTx_erases_matches (E : Env) (b b1 : BerkeleyBatch)
  (vTxHashIn vTxHashOut found : list uint256) (vWtx : list CWalletTx) :
  FindWalletTx E b [] [] = (DB_LOAD_OK, b1, found, vWtx) ->
  let matches := in_both found vTxHashIn in
  let r := ZapSelectTx E b vTxHashIn vTxHashOut in
  r = (if fst (erase_all matches b1 false) then DB_CORRUPT else DB_LOAD_OK,
       snd (erase_all matches b1 false),
       sort_hashes vTxHashIn, vTxHashOut ++ matches)
  /\ StronglySorted N.le (sort_hashes vTxHashIn)
  /\ sort_hashes vTxHashIn ≡ₚ vTxHashIn
  /\ StronglySorted N.le matches
  /\ (forall h, h ∈ matches <-> h ∈ found /\ h ∈ vTxHashIn)
  /\ db_faults (snd (fst (fst r))) = drop (length matches) (db_faults b1)
  /\ fst (fst (fst r))
     = (if existsb id (take (length matches) (db_faults b1))
        then DB_CORRUPT else DB_LOAD_OK)
  /\ (forall i h, matches !! i = Some h -> db_faults b1 !! i <> Some true ->
      db_lookup (tx_key h) (db_records (snd (fst (fst r)))) = None).
Proof.
  intros Hfind matches r.
  assert (Hsorted_in : StronglySorted N.le (sort_hashes vTxHashIn))
    by (apply StronglySorted_merge_sort; apply _).
  assert (Hsorted_found : StronglySorted N.le (sort_hashes found))
    by (apply StronglySorted_merge_sort; apply _).
  assert (Hr : r = (if fst (erase_all matches b1 false)
                    then DB_CORRUPT else DB_LOAD_OK,
                    snd (erase_all matches b1 false),
                    sort_hashes vTxHashIn, vTxHashOut ++ matches)).
  { subst r. unfold ZapSelectTx. rewrite Hfind. simpl.
    rewrite (zap_loop_spec _ _ _ _ _ Hsorted_found Hsorted_in).
    rewrite in_both_sort_In. reflexivity. }
  split; [ exact Hr | ].
  split; [ exact Hsorted_in | ].
  split; [ apply merge_sort_Permutation | ].
  split; [ apply StronglySorted_filter; exact Hsorted_found | ].
  split; [ intros h; apply in_both_elem_of | ].
  rewrite Hr. simpl.
  split; [ apply erase_all_faults | ].
  split; [ rewrite erase_all_delerror; reflexivity | ].
  intros i h Hi Hok. apply (erase_all_erased _ _ _ i h Hi Hok).
Qed.

(** With no failure in the engine, the two requested transactions that
    exist are erased and the third one and the other record stay. *)
Example ZapSelectTx_run :
  let r := ZapSelectTx sample_env zap_batch [20%N; 10%N; 40%N] [] in
  r = (DB_LOAD_OK, snd (fst (fst r)), [10%N; 20%N; 40%N], [10%N; 20%N])
  /\ map fst (db_records (snd (fst (fst r))))
     = [tx_key 30%N; [IString "name"; IString "addr"]].
Proof. split; reflexivity. Qed.

Lemma ZapSelectTx_erases_matches_witness :
  let r := ZapSelectTx sample_env zap_fault_batch [20%N; 10%N; 40%N] [] in
  r = (DB_CORRUPT, snd (fst (fst r)), [10%N; 20%N; 40%N], [10%N; 20%N])
  /\ db_lookup (tx_key 20%N) (db_records (snd (fst (fst r)))) = None.
Proof.
  destruct (ZapSelectTx_erases_matches sample_env zap_fault_batch
              {| db_records := zap_records; db_faults := [true] |}
              [20%N; 10%N; 40%N] [] [30%N; 10%N; 20%N]
              [plain_wtx 30%N; plain_wtx 10%N; plain_wtx 20%N] eq_refl)
    as [Hr [_ [_ [_ [_ [_ [_ Hgone]]]]]]].
  split.
  - rewrite Hr. reflexivity.
  - apply (Hgone 1%nat 20%N); [ reflexivity | discriminate ].
Defined.

(** ** Backup rotation *)

Lemma multimap_insert_Permutation f m : multimap_insert f m ≡ₚ f :: m.
Proof.
  induction m as [|g m IH]; simpl; [ reflexivity | ].
  destruct (f_mtime f <? f_mtime g); [ reflexivity | ].
  rewrite IH. apply Permutation_swap.
Qed.

Lemma multimap_insert_sorted f m :
  StronglySorted older_or_same m ->
  StronglySorted older_or_same (multimap_insert f m).
Proof.
  induction 1 as [|g m Hm IH Hg]; simpl.
  - repeat constructor.
  - destruct (Z.ltb_spec (f_mtime f) (f_mtime g)) as [Hlt|Hge].
    + constructor; [ constructor; assumption | ].
      constructor; [ unfold older_or_same; lia | ].
      rewrite Forall_forall in Hg |- *. intros x Hx.
      specialize (Hg x Hx). unfold older_or_same in *. lia.
    + constructor; [ exact IH | ].
      rewrite (multimap_insert_Permutation f m).
      constructor; [ exact Hge | exact Hg ].
Qed.

Lemma build_folder_set_Permutation wf files acc :
  build_folder_set wf files acc
  ≡ₚ acc ++ List.filter (is_backup_of wf) files.
Proof.
  revert acc. induction files as [|f files IH]; intros acc; simpl.
  - rewrite app_nil_r. reflexivity.
  - rewrite IH. destruct (is_backup_of wf f); [ | reflexivity ].
    rewrite multimap_insert_Permutation. simpl.
    apply Permutation_middle.
Qed.

Lemma build_folder_set_sorted wf files acc :
  StronglySorted older_or_same acc ->
  StronglySorted older_or_same (build_folder_set wf files acc).
Proof.
  revert acc. induction files as [|f files IH]; intros acc Hacc; simpl.
  - exact Hacc.
  - apply IH. destruct (is_backup_of wf f); [ | exact Hacc ].
    apply multimap_insert_sorted. exact Hacc.
Qed.

Lemma StronglySorted_rev {A} (R : relation A) l :
  StronglySorted R l -> StronglySorted (flip R) (rev l).
Proof.
  induction 1 as [|x l Hl IH Hx]; simpl; [ constructor | ].
  apply StronglySorted_app_2.
  - intros y z Hy Hz. apply list_elem_of_singleton in Hz. subst z.
    unfold flip. rewrite Forall_forall in Hx. apply Hx.
    apply list_elem_of_In. apply in_rev. apply list_elem_of_In. exact Hy.
  - exact IH.
  - repeat constructor.
Qed.

Lemma newest_first_Permutation wf files :
  newest_first wf files ≡ₚ List.filter (is_backup_of wf) files.
Proof.
  unfold newest_first. rewrite <- Permutation_rev.
  apply (build_folder_set_Permutation wf files []).
Qed.

Lemma newest_first_sorted wf files :
  StronglySorted (flip older_or_same) (newest_first wf files).
Proof.
  apply StronglySorted_rev. apply build_folder_set_sorted. constructor.
Qed.

Lemma remove_files_nil files : remove_files [] files = files.
Proof.
  unfold remove_files. cbn [map].
  induction files as [|f files IH]; [ reflexivity | ].
  cbn [List.filter]. rewrite bool_decide_eq_false_2 by apply not_elem_of_nil.
  cbn [negb]. rewrite IH. reflexivity.
Qed.

Lemma remove_files_cons f removed files :
  remove_files removed (remove_file (f_name f) files)
  = remove_files (f :: removed) files.
Proof.
  unfold remove_files, remove_file. cbn [map].
  induction files as [|g files IH]; [ reflexivity | ].
  cbn [List.filter].
  destruct (String.eqb_spec (f_name g) (f_name f)) as [Heq|Hne]; simpl.
  - rewrite IH.
    rewrite (bool_decide_eq_true_2 (f_name g ∈ f_name f :: map f_name removed))
      by (rewrite Heq; apply list_elem_of_here).
    reflexivity.
  - rewrite IH.
    rewrite (bool_decide_ext (f_name g ∈ f_name f :: map f_name removed)
               (f_name g ∈ map f_name removed)).
    + reflexivity.
    + rewrite elem_of_cons. tauto.
Qed.

Lemma sweep_past todo : forall counter wd files,
  nWalletBackups wd <= counter ->
  sweep todo counter wd files
  = (f_name <$> first_undeletable wd todo,
     remove_files (deletable_prefix wd todo) files).
Proof.
  induction todo as [|f rest IH]; intros counter wd files Hc; simpl.
  - rewrite remove_files_nil. reflexivity.
  - assert (Hgt : (counter + 1 >? nWalletBackups wd) = true)
      by (apply Z.gtb_lt; lia).
    rewrite Hgt. unfold deletable.
    destruct (bool_decide (f_name f ∈ undeletable wd)); simpl.
    + rewrite remove_files_nil. reflexivity.
    + rewrite IH by lia. rewrite remove_files_cons. reflexivity.
Qed.

Lemma sweep_spec todo : forall counter wd files,
  0 <= counter <= nWalletBackups wd ->
  sweep todo counter wd files
  = (f_name <$> first_undeletable wd
                  (drop (Z.to_nat (nWalletBackups wd - counter)) todo),
     remove_files
       (deletable_prefix wd
          (drop (Z.to_nat (nWalletBackups wd - counter)) todo)) files).
Proof.
  induction todo as [|f rest IH]; intros counter wd files Hc.
  - rewrite drop_nil. simpl. rewrite remove_files_nil. reflexivity.
  - destruct (Z.eq_dec counter (nWalletBackups wd)) as [Heq|Hne].
    + replace (nWalletBackups wd - counter) with 0 by lia.
      simpl Z.to_nat. rewrite drop_0. apply sweep_past. lia.
    + assert (Hle : (counter + 1 >? nWalletBackups wd) = false).
      { destruct (Z.gtb_spec (counter + 1) (nWalletBackups wd));
          [ lia | reflexivity ]. }
      simpl. rewrite Hle.
      replace (Z.to_nat (nWalletBackups wd - counter))
        with (S (Z.to_nat (nWalletBackups wd - (counter + 1)))) by lia.
      simpl. apply IH. lia.
Qed.

Lemma deletable_prefix_split wd l :
  exists rest, l = deletable_prefix wd l ++ rest
    /\ first_undeletable wd l = head rest
    /\ Forall (fun f => deletable wd f = true) (deletable_prefix wd l).
Proof.
  induction l as [|f l IH]; simpl.
  - exists []. repeat split. constructor.
  - destruct (deletable wd f) eqn:Hd.
    + destruct IH as [rest [Heq [Hfirst Hall]]].
      exists rest. simpl. split; [ congruence | ].
      split; [ exact Hfirst | constructor; assumption ].
    + exists (f :: l). repeat split. constructor.
Qed.

Lemma filter_all {A} (p : A -> bool) l :
  (forall x, x ∈ l -> p x = true) -> List.filter p l = l.
Proof.
  induction l as [|x l IH]; intros H; simpl; [ reflexivity | ].
  rewrite (H x) by apply list_elem_of_here.
  rewrite IH; [ reflexivity | ].
  intros y Hy. apply H. apply list_elem_of_further. exact Hy.
Qed.

Lemma filter_none {A} (p : A -> bool) l :
  (forall x, x ∈ l -> p x = false) -> List.filter p l = [].
Proof.
  induction l as [|x l IH]; intros H; simpl; [ reflexivity | ].
  rewrite (H x) by apply list_elem_of_here.
  apply IH. intros y Hy. apply H. apply list_elem_of_further. exact Hy.
Qed.

Lemma filter_comm {A} (p q : A -> bool) l :
  List.filter p (List.filter q l) = List.filter q (List.filter p l).
Proof.
  induction l as [|x l IH]; simpl; [ reflexivity | ].
  destruct (q x) eqn:Hq, (p x) eqn:Hp; simpl; rewrite ?Hq, ?Hp, IH;
    reflexivity.
Qed.

Lemma filter_Permutation {A} (p : A -> bool) l1 l2 :
  l1 ≡ₚ l2 -> List.filter p l1 ≡ₚ List.filter p l2.
Proof.
  induction 1 as [|x l1 l2 _ IH|x y l|l1 l2 l3 _ IH1 _ IH2]; simpl.
  - reflexivity.
  - destruct (p x); [ constructor | ]; exact IH.
  - destruct (p x), (p y); try reflexivity. apply Permutation_swap.
  - etransitivity; eassumption.
Qed.

Lemma NoDup_map_filter {A B} (g : A -> B) (p : A -> bool) l :
  NoDup (map g l) -> NoDup (map g (List.filter p l)).
Proof.
  induction l as [|x l IH]; simpl; intros Hnd; [ constructor | ].
  apply NoDup_cons in Hnd. destruct Hnd as [Hx Hl].
  destruct (p x); simpl; [ | apply IH; exact Hl ].
  apply NoDup_cons. split; [ | apply IH; exact Hl ].
  intros Hin. apply Hx.
  apply list_elem_of_In in Hin. apply in_map_iff in Hin.
  destruct Hin as [y [Hy Hyin]]. apply filter_In in Hyin.
  apply list_elem_of_In. apply in_map_iff. exists y. tauto.
Qed.

(** Removing a block of a list without repeated names leaves the rest. *)
Lemma remove_files_block removed A B :
  NoDup (map f_name (A ++ removed ++ B)) ->
  remove_files removed (A ++ removed ++ B) = A ++ B.
Proof.
  intros Hnd. unfold remove_files. rewrite !List.filter_app.
  rewrite !map_app in Hnd.
  apply NoDup_app in Hnd. destruct Hnd as [_ [HA Hnd]].
  apply NoDup_app in Hnd. destruct Hnd as [_ [HB _]].
  assert (Hin : forall x l, x ∈ l -> f_name x ∈ map f_name l).
  { intros x l Hx. apply list_elem_of_In. apply in_map.
    apply list_elem_of_In. exact Hx. }
  rewrite (filter_all _ A), (filter_none _ removed), (filter_all _ B).
  - reflexivity.
  - intros x Hx. apply negb_true_iff. apply bool_decide_eq_false_2.
    intros Hr. apply (HB (f_name x) Hr). apply Hin. exact Hx.
  - intros x Hx. apply negb_false_iff. apply bool_decide_eq_true_2.
    apply Hin. exact Hx.
  - intros x Hx. apply negb_true_iff. apply bool_decide_eq_false_2.
    intros Hr. apply (HA (f_name x)); [ apply Hin; exact Hx | ].
    apply elem_of_app. left. exact Hr.
Qed.

Lemma file_exists_false name files :
  file_exists name files = false -> name ∉ map f_name files.
Proof.
  unfold file_exists. induction files as [|f files IH]; simpl; intros H.
  - apply not_elem_of_nil.
  - apply orb_false_iff in H. destruct H as [Hf Hrest].
    intros Hin. apply elem_of_cons in Hin. destruct Hin as [Heq|Hin].
    + apply String.eqb_neq in Hf. congruence.
    + exact (IH Hrest Hin).
Qed.

Lemma first_undeletable_ext wd wd' l :
  undeletable wd = undeletable wd' ->
  first_undeletable wd l = first_undeletable wd' l.
Proof.
  intros Hu. induction l as [|f l IH]; simpl; [ reflexivity | ].
  unfold deletable. rewrite Hu, IH. reflexivity.
Qed.

Lemma deletable_prefix_ext wd wd' l :
  undeletable wd = undeletable wd' ->
  deletable_prefix wd l = deletable_prefix wd' l.
Proof.
  intros Hu. induction l as [|f l IH]; simpl; [ reflexivity | ].
  unfold deletable. rewrite Hu, IH. reflexivity.
Qed.

Lemma insert_entry_Permutation i f files :
  insert_entry i f files ≡ₚ f :: files.
Proof.
  unfold insert_entry. rewrite <- Permutation_middle, take_drop.
  reflexivity.
Qed.

Lemma insert_entry_elem_of i f files g :
  g ∈ insert_entry i f files <-> g = f \/ g ∈ files.
Proof.
  rewrite insert_entry_Permutation. apply elem_of_cons.
Qed.

(** C3 (as it holds): a rotation for a wallet that is not loaded, whose
    file exists and is copied under a fresh name, with a retention N between
    1 and 10 and K backups of the wallet in the folder before.  The backups
    then number K+1; the sweep visits them newest first, keeps the first N
    and removes the others one after the other, each of them at most as new
    as each backup kept.  When every removal goes through the function
    returns true and exactly min(K+1, N) backups are left, the N newest.
    When a removal fails the sweep stops there: the function returns false
    with the message of that failure, the first one, and the file and every
    older backup are left in the folder. *)
Theorem AutoBackupWallet_retention (E : Env) (strWalletFile : string)
  (wd : backup_world) (K : nat) :
  1 <= nWalletBackups wd <= 10 ->
  backups_exists wd = true ->
  NoDup (map f_name (backups_files wd)) ->
  length (List.filter (is_backup_of strWalletFile) (backups_files wd)) = K ->
  source_exists wd = true ->
  copy_file_ok wd = true ->
  file_exists (f_name (backup_copy strWalletFile wd)) (backups_files wd)
  = false ->
  stem (f_name (backup_copy strWalletFile wd)) = strWalletFile ->
  let N := Z.to_nat (nWalletBackups wd) in
  let files1 := insert_entry (copy_index wd) (backup_copy strWalletFile wd)
                  (backups_files wd) in
  let order := newest_first strWalletFile files1 in
  let doomed := drop N order in
  let r := AutoBackupWallet E None strWalletFile wd in
  let files' := backups_files (snd r) in
  length order = S K
  /\ (forall k d, k ∈ take N order -> d ∈ doomed -> f_mtime d <= f_mtime k)
  /\ match first_undeletable wd doomed with
     | None =>
         fst r = (true, BMsgEmpty, BMsgEmpty, None)
         /\ files' = remove_files doomed files1
         /\ List.filter (is_backup_of strWalletFile) files' ≡ₚ take N order
         /\ length (List.filter (is_backup_of strWalletFile) files')
            = min (S K) N
     | Some f =>
         fst r = (false, BWarnDeleteFailed (f_name f), BMsgEmpty, None)
         /\ files' = remove_files (deletable_prefix wd doomed) files1
         /\ List.filter (is_backup_of strWalletFile) files'
            ≡ₚ take N order ++ drop (length (deletable_prefix wd doomed)) doomed
         /\ f ∈ files'
     end.
Proof.
  intros HN Hexists Hnodup HK Hsource Hcopy Hfresh Hstem N files1 order doomed.
  (* the run of the function *)
  assert (Hrun :
    AutoBackupWallet E None strWalletFile wd
    = match first_undeletable wd doomed with
      | Some f => (false, BWarnDeleteFailed (f_name f), BMsgEmpty, None,
                   set_backups true
                     (remove_files (deletable_prefix wd doomed) files1)
                     (set_backups true files1 wd))
      | None => (true, BMsgEmpty, BMsgEmpty, None,
                 set_backups true
                   (remove_files (deletable_prefix wd doomed) files1)
                   (set_backups true files1 wd))
      end).
  { unfold AutoBackupWallet.
    assert (Hpos : (nWalletBackups wd >? 0) = true) by (apply Z.gtb_lt; lia).
    rewrite Hpos, Hexists. simpl negb. cbn [andb].
    change (String.append strWalletFile (dateTimeStr wd))
      with (f_name (backup_copy strWalletFile wd)).
    rewrite Hfresh, Hsource, Hcopy.
    unfold retention.
    change ({| f_name := f_name (backup_copy strWalletFile wd);
               f_mtime := copy_mtime wd; f_regular := true |})
      with (backup_copy strWalletFile wd).
    fold files1.
    change (rev (build_folder_set strWalletFile
                   (backups_files (set_backups true files1 wd)) []))
      with order.
    rewrite sweep_spec by (simpl; lia).
    change (nWalletBackups (set_backups true files1 wd)) with (nWalletBackups wd).
    rewrite Z.sub_0_r. fold N. fold doomed.
    rewrite (first_undeletable_ext (set_backups true files1 wd) wd doomed)
      by reflexivity.
    rewrite (deletable_prefix_ext (set_backups true files1 wd) wd doomed)
      by reflexivity.
    destruct (first_undeletable wd doomed); reflexivity. }
  (* the backups before the sweep *)
  assert (Hperm : order ≡ₚ List.filter (is_backup_of strWalletFile) files1)
    by apply newest_first_Permutation.
  assert (Hcopy_backup : is_backup_of strWalletFile (backup_copy strWalletFile wd)
                         = true).
  { unfold is_backup_of. rewrite Hstem. simpl. apply String.eqb_refl. }
  assert (Hlen : length order = S K).
  { rewrite Hperm. unfold files1.
    rewrite (filter_Permutation _ _ _ (insert_entry_Permutation _ _ _)).
    simpl. rewrite Hcopy_backup. simpl. rewrite HK. reflexivity. }
  assert (Hnodup1 : NoDup (map f_name files1)).
  { unfold files1.
    rewrite (Permutation_map f_name (insert_entry_Permutation _ _ _)).
    simpl. apply NoDup_cons. split; [ | exact Hnodup ].
    exact (file_exists_false _ _ Hfresh). }
  assert (Hnodup_order : NoDup (map f_name order)).
  { rewrite (Permutation_map f_name Hperm). apply NoDup_map_filter. exact Hnodup1. }
  destruct (deletable_prefix_split wd doomed) as [rest [Hsplit [Hfirst _]]].
  assert (Horder : order = take N order ++ deletable_prefix wd doomed ++ rest).
  { rewrite <- Hsplit. unfold doomed. rewrite take_drop. reflexivity. }
  assert (Hleft :
    List.filter (is_backup_of strWalletFile)
      (remove_files (deletable_prefix wd doomed) files1)
    ≡ₚ take N order ++ rest).
  { unfold remove_files at 1. rewrite filter_comm.
    fold (remove_files (deletable_prefix wd doomed)
            (List.filter (is_backup_of strWalletFile) files1)).
    unfold remove_files. rewrite <- (filter_Permutation _ _ _ Hperm).
    fold (remove_files (deletable_prefix wd doomed) order).
    rewrite Horder at 1. apply Permutation_refl'.
    apply remove_files_block. rewrite <- Horder. exact Hnodup_order. }
  assert (Hrest : rest = drop (length (deletable_prefix wd doomed)) doomed).
  { rewrite Hsplit at 2. rewrite drop_app_length. reflexivity. }
  split; [ exact Hlen | ].
  split.
  { intros k d Hk Hd.
    pose proof (newest_first_sorted strWalletFile files1) as Hsorted.
    fold order in Hsorted. rewrite <- (take_drop N order) in Hsorted.
    exact (StronglySorted_app_1_elem_of _ _ _ k d Hsorted Hk Hd). }
  cbv zeta. rewrite Hrun.
  destruct (first_undeletable wd doomed) as [f|] eqn:Hf;
    cbn [fst snd backups_files set_backups].
  - split; [ reflexivity | ]. split; [ reflexivity | ].
    split; [ rewrite <- Hrest; exact Hleft | ].
    assert (Hin : f ∈ List.filter (is_backup_of strWalletFile)
                        (remove_files (deletable_prefix wd doomed) files1)).
    { rewrite Hleft. apply elem_of_app. right.
      destruct rest as [|g rest']; [ discriminate | ].
      simpl in Hfirst. inversion Hfirst; subst g. apply list_elem_of_here. }
    apply list_elem_of_In in Hin. apply filter_In in Hin.
    apply list_elem_of_In. tauto.
  - assert (Hnil : rest = []) by (destruct rest; [ reflexivity | discriminate ]).
    clear Hrest. rewrite Hnil, app_nil_r in Hsplit, Hleft.
    rewrite <- Hsplit in *.
    split; [ reflexivity | ]. split; [ reflexivity | ].
    split; [ exact Hleft | ].
    rewrite Hleft, length_take, Hlen. lia.
Qed.

(** Retention 1, three backups before, and the backups [c] and [a] cannot be
    removed.  The sweep keeps the copy, fails on [c] and stops: the message
    is about [c], the first failure, and [b], which could be removed, is
    still there; four backups are left. *)
Lemma AutoBackupWallet_sweep_aborts :
  let r := AutoBackupWallet sample_env None "wallet.dat" abort_world in
  fst r = (false, BWarnDeleteFailed "wallet.dat.c", BMsgEmpty, None)
  /\ deletable abort_world backup_b = true
  /\ backup_b ∈ backups_files (snd r)
  /\ length (List.filter (is_backup_of "wallet.dat") (backups_files (snd r)))
     = 4%nat.
Proof.
  vm_compute. repeat split. apply list_elem_of_here.
Qed.

Lemma AutoBackupWallet_retention_witness :
  let r := AutoBackupWallet sample_env None "wallet.dat" rotation_world in
  fst r = (true, BMsgEmpty, BMsgEmpty, None)
  /\ length (List.filter (is_backup_of "wallet.dat") (backups_files (snd r)))
     = 2%nat.
Proof.
  pose proof (AutoBackupWallet_retention sample_env "wallet.dat"
                rotation_world 3) as H.
  destruct H as [_ [_ H]].
  - simpl. lia.
  - reflexivity.
  - apply (bool_decide_unpack _). vm_compute. exact I.
  - reflexivity.
  - reflexivity.
  - reflexivity.
  - reflexivity.
  - reflexivity.
  - change (first_undeletable rotation_world
              (drop (Z.to_nat (nWalletBackups rotation_world))
                 (newest_first "wallet.dat"
                    (backups_files rotation_world
                     ++ [backup_copy "wallet.dat" rotation_world]))))
      with (@None file) in H.
    destruct H as [Hret [_ [_ Hcount]]].
    split; [ exact Hret | exact Hcount ].
Defined.

(** ** Writers against the engine *)

(** A call into the engine that goes through. *)
Lemma Write_ok key value fOverwrite b :
  fst (engine_call b) = true ->
  fOverwrite = true \/ db_lookup key (db_records b) = None ->
  Write key value fOverwrite b
  = (true, {| db_records := db_put key value (db_records b);
              db_faults := tail (db_faults b) |}).
Proof.
  destruct b as [recs faults]. unfold Write, engine_call. simpl.
  intros Hok Hfree.
  assert (Hguard : negb fOverwrite && bool_decide (is_Some (db_lookup key recs))
                   = false).
  { destruct Hfree as [->|Hnone]; [ reflexivity | ].
    rewrite Hnone. rewrite (bool_decide_eq_false_2 (is_Some None));
      [ apply andb_false_r | ].
    intros [x Hx]. discriminate. }
  destruct faults as [|[] fs]; simpl in *; try discriminate;
    rewrite Hguard; reflexivity.
Qed.

Lemma Write_exists key value b v0 :
  db_lookup key (db_records b) = Some v0 ->
  fst (Write key value false b) = false
  /\ db_records (snd (Write key value false b)) = db_records b.
Proof.
  destruct b as [recs faults]. unfold Write, engine_call. simpl. intros Hv.
  assert (Hguard : bool_decide (is_Some (db_lookup key recs)) = true).
  { rewrite Hv. apply bool_decide_eq_true_2. eauto. }
  destruct faults as [|[] fs]; simpl; rewrite ?Hguard; split; reflexivity.
Qed.

Lemma Read_ok {A} (as_A : item -> option A) key b v a rest :
  fst (engine_call b) = true ->
  db_lookup key (db_records b) = Some v ->
  unserialize as_A v = Some (a, rest) ->
  fst (Read as_A key b) = Some a.
Proof.
  intros Hok Hv Ha. unfold Read.
  pose proof (engine_call_records b) as Hr.
  destruct (engine_call b) as [ok b']. simpl in *. subst ok.
  rewrite Hr, Hv, Ha. reflexivity.
Qed.

Lemma Read_absent {A} (as_A : item -> option A) key b :
  db_lookup key (db_records b) = None -> fst (Read as_A key b) = None.
Proof.
  intros Hv. unfold Read.
  pose proof (engine_call_records b) as Hr.
  destruct (engine_call b) as [[] b']; simpl in *; [ | reflexivity ].
  rewrite Hr, Hv. reflexivity.
Qed.

Lemma Erase_true key b b' :
  Erase key b = (true, b') ->
  db_records b' = db_del key (db_records b)
  /\ db_faults b' = tail (db_faults b).
Proof.
  destruct b as [recs faults]. unfold Erase, engine_call. simpl.
  destruct faults as [|[] fs]; simpl; intros H; inversion H; subst; auto.
Qed.

Lemma Erase_false key b b' :
  Erase key b = (false, b') ->
  db_records b' = db_records b /\ db_faults b' = tail (db_faults b).
Proof.
  destruct b as [recs faults]. unfold Erase, engine_call. simpl.
  destruct faults as [|[] fs]; simpl; intros H; inversion H; subst; auto.
Qed.

(** ** [WriteKey] *)

(** X1: a [key] record that [WriteKey] has stored decodes, and on the fast
    path: when the hash of public and private key is not null, the key is
    loaded with the recomputation check skipped ([fSkipCheck] true).  The
    call of [LoadKey] is the one thing that happens to the wallet, and the
    scan state has [nKeys] raised by one (modulo 2^32) and nothing else
    changed. *)
Theorem WriteKey_then_ReadKeyValue (E : Env) (vchPubKey : CPubKey)
  (vchPrivKey : CPrivKey) (keyMeta : CKeyMetadata) (b b' : BerkeleyBatch)
  (w : CWallet) (s : CWalletScanState) (key : CKey) :
  WriteKey E vchPubKey vchPrivKey keyMeta b = (true, b') ->
  CPubKey_IsValid E vchPubKey = true ->
  Hash E (vchPubKey ++ vchPrivKey) <> 0%N ->
  CKey_Load E vchPrivKey vchPubKey true = Some key ->
  LoadKey E w key vchPubKey = true ->
  exists v,
    db_lookup (pubkey_key "key" vchPubKey) (db_records b') = Some v
    /\ ReadKeyValue E (rkv_args w (pubkey_key "key" vchPubKey) v s)
       = (true,
          {| pwallet :=
               {| mapAddressBook := mapAddressBook w;
                  mapMasterKeys := mapMasterKeys w;
                  nMasterKeyMaxID := nMasterKeyMaxID w;
                  nOrderPosNext := nOrderPosNext w;
                  walletVersion := walletVersion w;
                  mapWallet := mapWallet w;
                  nKeysLeftSinceAutoBackup := nKeysLeftSinceAutoBackup w;
                  wallet_calls := wallet_calls w ++ [CallLoadKey key vchPubKey] |};
             ssKey := []; ssValue := [];
             wss :=
               {| nKeys := (nKeys s + 1) mod 4294967296;
                  nCKeys := nCKeys s;
                  nWatchKeys := nWatchKeys s;
                  nKeyMeta := nKeyMeta s;
                  m_unknown_records := m_unknown_records s;
                  fIsEncrypted := fIsEncrypted s;
                  fAnyUnordered := fAnyUnordered s;
                  nFileVersion := nFileVersion s;
                  vWalletUpgrade := vWalletUpgrade s |};
             strType := "key"; strErr := MsgEmpty |}).
Proof.
  intros Hwrite Hvalid Hhash Hload Hkey.
  exists (key_value E vchPubKey vchPrivKey). split.
  - unfold WriteKey, WriteIC in Hwrite.
    destruct (Write (pubkey_key "keymeta" vchPubKey) [IKeyMetadata keyMeta]
                false b) as [[] b1]; simpl in Hwrite; [ | discriminate ].
    destruct (Write_true _ _ _ _ _ Hwrite) as [Hv _]. exact Hv.
  - unfold pubkey_key, key_value.
    pose proof (ReadKeyValue_key_run E w s true vchPubKey vchPrivKey [] []
                  [IUint256 (Hash E (vchPubKey ++ vchPrivKey))] Hvalid)
      as Hrun.
    cbn [key_tag privkey_item] in Hrun. rewrite Hrun.
    unfold bind at 1. cbn.
    assert (Hz : (Hash E (vchPubKey ++ vchPrivKey) =? 0)%N = false)
      by (apply N.eqb_neq; exact Hhash).
    unfold rkv_key_hash. rewrite Hz, N.eqb_refl. cbn.
    unfold rkv_key_load. rewrite Hload. cbn. rewrite Hkey. reflexivity.
Qed.

Lemma WriteKey_then_ReadKeyValue_witness :
  exists v,
    db_lookup (pubkey_key "key" sample_pubkey)
      (db_records (snd (WriteKey sample_env sample_pubkey sample_privkey []
                          {| db_records := []; db_faults := [] |})))
    = Some v
    /\ fst (ReadKeyValue sample_env
              (rkv_args empty_wallet (pubkey_key "key" sample_pubkey) v
                        new_scan_state)) = true.
Proof.
  destruct (WriteKey_then_ReadKeyValue sample_env sample_pubkey sample_privkey
              [] {| db_records := []; db_faults := [] |}
              (snd (WriteKey sample_env sample_pubkey sample_privkey []
                      {| db_records := []; db_faults := [] |}))
              empty_wallet new_scan_state sample_privkey)
    as [v [Hv Hread]].
  - reflexivity.
  - reflexivity.
  - discriminate.
  - reflexivity.
  - reflexivity.
  - exists v. split; [ exact Hv | rewrite Hread; reflexivity ].
Defined.

(** X2: [WriteKey] overwrites nothing.  When the [keymeta] record of the
    public key exists it returns false and changes no record; when the [key]
    record exists it returns false and that record keeps its value. *)
Theorem WriteKey_never_overwrites (E : Env) (vchPubKey : CPubKey)
  (vchPrivKey : CPrivKey) (keyMeta : CKeyMetadata) (b : BerkeleyBatch) :
  let r := WriteKey E vchPubKey vchPrivKey keyMeta b in
  (forall v0,
     db_lookup (pubkey_key "keymeta" vchPubKey) (db_records b) = Some v0 ->
     fst r = false /\ db_records (snd r) = db_records b)
  /\ (forall v0,
        db_lookup (pubkey_key "key" vchPubKey) (db_records b) = Some v0 ->
        fst r = false
        /\ db_lookup (pubkey_key "key" vchPubKey) (db_records (snd r))
           = Some v0).
Proof.
  unfold WriteKey, WriteIC. split.
  - intros v0 Hv0.
    destruct (Write_exists (pubkey_key "keymeta" vchPubKey)
                [IKeyMetadata keyMeta] b v0 Hv0) as [Hf Hr].
    destruct (Write (pubkey_key "keymeta" vchPubKey) [IKeyMetadata keyMeta]
                false b) as [ok b1]. simpl in *. subst ok. simpl. auto.
  - intros v0 Hv0.
    destruct (Write (pubkey_key "keymeta" vchPubKey) [IKeyMetadata keyMeta]
                false b) as [[] b1] eqn:Hw1; simpl.
    + destruct (Write_true _ _ _ _ _ Hw1) as [_ [Hoth _]].
      assert (Hv1 : db_lookup (pubkey_key "key" vchPubKey) (db_records b1)
                    = Some v0)
        by (rewrite Hoth by discriminate; exact Hv0).
      destruct (Write_exists (pubkey_key "key" vchPubKey)
                  (key_value E vchPubKey vchPrivKey) b1 v0 Hv1) as [Hf Hr].
      split; [ exact Hf | rewrite Hr; exact Hv1 ].
    + rewrite (Write_false _ _ _ _ _ Hw1). auto.
Qed.

Lemma WriteKey_never_overwrites_witness :
  fst (WriteKey sample_env sample_pubkey [Byte.x77] [] plaintext_batch) = false
  /\ db_lookup (pubkey_key "key" sample_pubkey)
       (db_records (snd (WriteKey sample_env sample_pubkey [Byte.x77] []
                           plaintext_batch)))
     = Some [IBytes sample_privkey].
Proof.
  exact (proj2 (WriteKey_never_overwrites sample_env sample_pubkey [Byte.x77]
                  [] plaintext_batch) [IBytes sample_privkey] eq_refl).
Defined.

(** ** The key pool *)

(** X3: a key pool entry written with [WritePool] is what [ReadPool] reads
    at that index, the entries at the other indexes are as before, and after
    [ErasePool] has gone through [ReadPool] finds nothing at the index. *)
Theorem WritePool_ReadPool_ErasePool (nPool : Z) (keypool : CKeyPool)
  (b b1 : BerkeleyBatch) :
  WritePool nPool keypool b = (true, b1) ->
  (fst (engine_call b1) = true -> fst (ReadPool nPool b1) = Some keypool)
  /\ (forall m, m <> nPool ->
      db_lookup (pool_key m) (db_records b1)
      = db_lookup (pool_key m) (db_records b))
  /\ (forall b2, ErasePool nPool b1 = (true, b2) ->
      fst (ReadPool nPool b2) = None).
Proof.
  unfold WritePool, ReadPool, ErasePool, WriteIC, EraseIC. intros Hw.
  destruct (Write_true _ _ _ _ _ Hw) as [Hv [Hoth _]].
  split; [ | split ].
  - intros Hok. apply (Read_ok as_keypool _ _ _ keypool [] Hok Hv). reflexivity.
  - intros m Hm. apply Hoth. unfold pool_key. congruence.
  - intros b2 He. apply Read_absent.
    destruct (Erase_true _ _ _ He) as [Hr _]. rewrite Hr.
    apply db_lookup_del_eq.
Qed.

Lemma WritePool_ReadPool_ErasePool_witness :
  fst (ReadPool 3 (snd (WritePool 3 [Byte.x01]
                          {| db_records := []; db_faults := [] |})))
  = Some [Byte.x01].
Proof.
  refine (proj1 (WritePool_ReadPool_ErasePool 3 [Byte.x01]
                   {| db_records := []; db_faults := [] |} _ eq_refl) _).
  reflexivity.
Defined.

(** ** Watch-only scripts *)

(** X4: after a [WriteWatchOnly] that returns true the store holds the
    [watchs] record with the marker ['1'] and the [watchmeta] record of the
    script; decoding the two records registers the script as watch-only and
    its metadata (the two callbacks are what happens to the wallet), and
    raises [nWatchKeys] and then [nKeyMeta] by one (modulo 2^32), with
    nothing else of the scan state changed. *)
Theorem WriteWatchOnly_then_ReadKeyValue (E : Env) (dest : CScript)
  (keyMeta : CKeyMetadata) (b b' : BerkeleyBatch) (w : CWallet)
  (s : CWalletScanState) :
  WriteWatchOnly dest keyMeta b = (true, b') ->
  db_lookup (watchs_key dest) (db_records b') = Some [IChar 49]
  /\ db_lookup (watchmeta_key dest) (db_records b')
     = Some [IKeyMetadata keyMeta]
  /\ ReadKeyValue E (rkv_args w (watchs_key dest) [IChar 49] s)
     = (true,
        {| pwallet :=
             {| mapAddressBook := mapAddressBook w;
                mapMasterKeys := mapMasterKeys w;
                nMasterKeyMaxID := nMasterKeyMaxID w;
                nOrderPosNext := nOrderPosNext w;
                walletVersion := walletVersion w;
                mapWallet := mapWallet w;
                nKeysLeftSinceAutoBackup := nKeysLeftSinceAutoBackup w;
                wallet_calls := wallet_calls w ++ [CallLoadWatchOnly dest] |};
           ssKey := []; ssValue := [];
           wss :=
             {| nKeys := nKeys s;
                nCKeys := nCKeys s;
                nWatchKeys := (nWatchKeys s + 1) mod 4294967296;
                nKeyMeta := nKeyMeta s;
                m_unknown_records := m_unknown_records s;
                fIsEncrypted := fIsEncrypted s;
                fAnyUnordered := fAnyUnordered s;
                nFileVersion := nFileVersion s;
                vWalletUpgrade := vWalletUpgrade s |};
           strType := "watchs"; strErr := MsgEmpty |})
  /\ ReadKeyValue E (rkv_args w (watchmeta_key dest) [IKeyMetadata keyMeta] s)
     = (true,
        {| pwallet :=
             {| mapAddressBook := mapAddressBook w;
                mapMasterKeys := mapMasterKeys w;
                nMasterKeyMaxID := nMasterKeyMaxID w;
                nOrderPosNext := nOrderPosNext w;
                walletVersion := walletVersion w;
                mapWallet := mapWallet w;
                nKeysLeftSinceAutoBackup := nKeysLeftSinceAutoBackup w;
                wallet_calls := wallet_calls w
                             ++ [CallLoadScriptMetadata (Hash160 E dest) keyMeta] |};
           ssKey := []; ssValue := [];
           wss :=
             {| nKeys := nKeys s;
                nCKeys := nCKeys s;
                nWatchKeys := nWatchKeys s;
                nKeyMeta := (nKeyMeta s + 1) mod 4294967296;
                m_unknown_records := m_unknown_records s;
                fIsEncrypted := fIsEncrypted s;
                fAnyUnordered := fAnyUnordered s;
                nFileVersion := nFileVersion s;
                vWalletUpgrade := vWalletUpgrade s |};
           strType := "watchmeta"; strErr := MsgEmpty |}).
Proof.
  unfold WriteWatchOnly, WriteIC. intros Hw.
  destruct (Write (watchmeta_key dest) [IKeyMetadata keyMeta] true b)
    as [[] b1] eqn:Hw1; simpl in Hw; [ | discriminate ].
  destruct (Write_true _ _ _ _ _ Hw1) as [Hmeta _].
  destruct (Write_true _ _ _ _ _ Hw) as [Hwatch [Hoth _]].
  split; [ exact Hwatch | ].
  split; [ rewrite Hoth by discriminate; exact Hmeta | ].
  split; reflexivity.
Qed.

Lemma WriteWatchOnly_then_ReadKeyValue_witness :
  db_lookup (watchs_key [Byte.x51])
    (db_records (snd (WriteWatchOnly [Byte.x51] []
                        {| db_records := []; db_faults := [] |})))
  = Some [IChar 49].
Proof.
  exact (proj1 (WriteWatchOnly_then_ReadKeyValue sample_env [Byte.x51] []
                  {| db_records := []; db_faults := [] |} _ empty_wallet
                  new_scan_state eq_refl)).
Defined.

(** X5: [EraseWatchOnly] erases the metadata first.  When it returns true
    neither record of the script is left.  When the first erasure fails it
    returns false after that one call and changes no record.  When the first
    erasure goes through and the second fails it returns false with the
    [watchmeta] record gone and the [watchs] record as it was. *)
Theorem EraseWatchOnly_cases (dest : CScript) (b : BerkeleyBatch) :
  let r := EraseWatchOnly dest b in
  (fst r = true ->
   db_lookup (watchmeta_key dest) (db_records (snd r)) = None
   /\ db_lookup (watchs_key dest) (db_records (snd r)) = None)
  /\ (db_faults b !! 0%nat = Some true ->
      fst r = false /\ db_records (snd r) = db_records b
      /\ db_faults (snd r) = tail (db_faults b))
  /\ (db_faults b !! 0%nat = Some false -> db_faults b !! 1%nat = Some true ->
      fst r = false
      /\ db_lookup (watchmeta_key dest) (db_records (snd r)) = None
      /\ db_lookup (watchs_key dest) (db_records (snd r))
         = db_lookup (watchs_key dest) (db_records b)).
Proof.
  destruct b as [recs faults]. unfold EraseWatchOnly, EraseIC, Erase,
    engine_call. simpl.
  split; [ | split ].
  - destruct faults as [|[] [|[] fs]]; simpl; intros H; try discriminate;
      (split;
       [ rewrite db_lookup_del_ne by discriminate; apply db_lookup_del_eq
       | apply db_lookup_del_eq ]).
  - destruct faults as [|[] fs]; simpl; intros H; try discriminate. auto.
  - destruct faults as [|[] [|[] fs]]; simpl; intros H1 H2; try discriminate.
    split; [ reflexivity | ].
    split; [ apply db_lookup_del_eq | ].
    apply db_lookup_del_ne. discriminate.
Qed.

Lemma EraseWatchOnly_cases_witness :
  let b := snd (WriteWatchOnly [Byte.x51] []
                  {| db_records := []; db_faults := [false; false; false; true] |}) in
  fst (EraseWatchOnly [Byte.x51] b) = false
  /\ db_lookup (watchs_key [Byte.x51]) (db_records (snd (EraseWatchOnly [Byte.x51] b)))
     = Some [IChar char_1].
Proof.
  destruct (proj2 (proj2 (EraseWatchOnly_cases [Byte.x51]
              (snd (WriteWatchOnly [Byte.x51] []
                 {| db_records := [];
                    db_faults := [false; false; false; true] |}))))
              eq_refl eq_refl) as [Hf [_ Hw]].
  split; [ exact Hf | rewrite Hw; reflexivity ].
Defined.

(** ** [WriteMinVersion] *)

(** X6: once [WriteMinVersion] has stored a version above [FEATURE_LATEST],
    [LoadWallet] returns [TOO_NEW] with the wallet untouched, and
    [FindWalletTx] returns [TOO_NEW] with its two vectors untouched. *)
Theorem WriteMinVersion_too_new_stops_readers (E : Env) (nVersion : Z)
  (b b1 : BerkeleyBatch) (w : CWallet) (rescan : option bool)
  (vTxHash : list uint256) (vWtx : list CWalletTx) :
  WriteMinVersion nVersion b = (true, b1) ->
  FEATURE_LATEST E < nVersion ->
  fst (engine_call b1) = true ->
  LoadWallet E b1 w rescan
  = (Returns DB_TOO_NEW, snd (engine_call b1), w, rescan)
  /\ FindWalletTx E b1 vTxHash vWtx
     = (DB_TOO_NEW, snd (engine_call b1), vTxHash, vWtx).
Proof.
  unfold WriteMinVersion, WriteIC. intros Hw Hnew Hok.
  destruct (Write_true _ _ _ _ _ Hw) as [Hv _].
  assert (Hread : Read as_int minversion_key b1
                  = (Some nVersion, snd (engine_call b1))).
  { unfold Read. pose proof (engine_call_records b1) as Hr.
    destruct (engine_call b1) as [ok b2]. simpl in *. subst ok.
    rewrite Hr, Hv. reflexivity. }
  assert (Hlt : (FEATURE_LATEST E <? nVersion) = true)
    by (apply Z.ltb_lt; exact Hnew).
  unfold LoadWallet, FindWalletTx. rewrite Hread. simpl. rewrite Hlt.
  split; reflexivity.
Qed.

Lemma WriteMinVersion_too_new_stops_readers_witness :
  fst (fst (fst (LoadWallet sample_env
                   (snd (WriteMinVersion 999999
                           {| db_records := []; db_faults := [] |}))
                   empty_wallet None)))
  = Returns DB_TOO_NEW.
Proof.
  pose proof (WriteMinVersion_too_new_stops_readers sample_env 999999
                {| db_records := []; db_faults := [] |}
                (snd (WriteMinVersion 999999
                        {| db_records := []; db_faults := [] |}))
                empty_wallet None [] [] eq_refl ltac:(simpl; lia) eq_refl)
    as [H _].
  rewrite H. reflexivity.
Defined.

(** ** [WriteCryptedKey] on a key that is encrypted already *)

(** X7: when the [ckey] record of the public key exists and the first call
    into the engine goes through, [WriteCryptedKey] returns false; the
    [ckey] record and the plaintext records are as before, but the [keymeta]
    record has been replaced by the new metadata. *)
Theorem WriteCryptedKey_existing_ckey (vchPubKey : CPubKey)
  (vchCryptedSecret : bytes) (keyMeta : CKeyMetadata) (b : BerkeleyBatch)
  (v0 : CDataStream) :
  db_lookup (pubkey_key "ckey" vchPubKey) (db_records b) = Some v0 ->
  fst (engine_call b) = true ->
  let r := WriteCryptedKey vchPubKey vchCryptedSecret keyMeta b in
  fst r = false
  /\ db_lookup (pubkey_key "ckey" vchPubKey) (db_records (snd r)) = Some v0
  /\ db_lookup (pubkey_key "keymeta" vchPubKey) (db_records (snd r))
     = Some [IKeyMetadata keyMeta]
  /\ db_lookup (pubkey_key "key" vchPubKey) (db_records (snd r))
     = db_lookup (pubkey_key "key" vchPubKey) (db_records b)
  /\ db_lookup (pubkey_key "wkey" vchPubKey) (db_records (snd r))
     = db_lookup (pubkey_key "wkey" vchPubKey) (db_records b).
Proof.
  intros Hv0 Hok. unfold WriteCryptedKey, WriteIC.
  rewrite (Write_ok _ _ true b Hok (or_introl eq_refl)). simpl.
  set (b1 := {| db_records := db_put (pubkey_key "keymeta" vchPubKey)
                                [IKeyMetadata keyMeta] (db_records b);
                db_faults := tail (db_faults b) |}).
  assert (Hv1 : db_lookup (pubkey_key "ckey" vchPubKey) (db_records b1)
                = Some v0)
    by (simpl; rewrite db_lookup_put_ne by discriminate; exact Hv0).
  destruct (Write_exists (pubkey_key "ckey" vchPubKey)
              [IBytes vchCryptedSecret] b1 v0 Hv1) as [Hf Hr].
  destruct (Write (pubkey_key "ckey" vchPubKey) [IBytes vchCryptedSecret]
              false b1) as [ok b2]. simpl in Hf, Hr. subst ok. simpl.
  rewrite Hr. simpl.
  split; [ reflexivity | ].
  split; [ rewrite db_lookup_put_ne by discriminate; exact Hv0 | ].
  split; [ apply db_lookup_put_eq | ].
  split; apply db_lookup_put_ne; discriminate.
Qed.

Lemma WriteCryptedKey_existing_ckey_witness :
  let b := {| db_records :=
                [ (pubkey_key "ckey" sample_pubkey, [IBytes [Byte.x01]]);
                  (pubkey_key "keymeta" sample_pubkey, [IKeyMetadata []]) ];
              db_faults := [] |} in
  let r := WriteCryptedKey sample_pubkey [Byte.x99] [Byte.x05] b in
  fst r = false
  /\ db_lookup (pubkey_key "keymeta" sample_pubkey) (db_records (snd r))
     = Some [IKeyMetadata [Byte.x05]].
Proof.
  destruct (WriteCryptedKey_existing_ckey sample_pubkey [Byte.x99] [Byte.x05]
              {| db_records :=
                   [ (pubkey_key "ckey" sample_pubkey, [IBytes [Byte.x01]]);
                     (pubkey_key "keymeta" sample_pubkey, [IKeyMetadata []]) ];
                 db_faults := [] |} [IBytes [Byte.x01]] eq_refl eq_refl)
    as [Hf [_ [Hmeta _]]].
  split; [ exact Hf | exact Hmeta ].
Defined.

(** ** Master keys *)

(** X8: the record that [WriteMasterKey] stores decodes into the wallet when
    the wallet has no master key of that id: the key is entered under the id
    and [nMasterKeyMaxID] becomes the larger of its old value and the id.
    When the wallet has a master key of that id the record is rejected and
    the wallet is not changed. *)
Theorem WriteMasterKey_then_ReadKeyValue (E : Env) (nID : N)
  (kMasterKey : CMasterKey) (b b' : BerkeleyBatch) (w : CWallet)
  (s : CWalletScanState) :
  WriteMasterKey nID kMasterKey b = (true, b') ->
  let r := ReadKeyValue E (rkv_args w (mkey_key nID) [IMasterKey kMasterKey] s)
  in
  db_lookup (mkey_key nID) (db_records b') = Some [IMasterKey kMasterKey]
  /\ (mapMasterKeys w !! nID = None ->
      fst r = true
      /\ mapMasterKeys (pwallet (snd r))
         = <[nID := kMasterKey]> (mapMasterKeys w)
      /\ nMasterKeyMaxID (pwallet (snd r)) = N.max (nMasterKeyMaxID w) nID)
  /\ (is_Some (mapMasterKeys w !! nID) ->
      fst r = false /\ pwallet (snd r) = w
      /\ strErr (snd r) = MsgDuplicateMasterKey nID).
Proof.
  unfold WriteMasterKey, WriteIC. intros Hw.
  destruct (Write_true _ _ _ _ _ Hw) as [Hv _].
  split; [ exact Hv | ].
  unfold ReadKeyValue, rkv_body, mkey_key. cbn. unfold rkv_mkey. cbn.
  split.
  - intros Hnone. rewrite Hnone. cbn.
    destruct (N.ltb_spec (nMasterKeyMaxID w) nID) as [Hlt|Hge]; cbn.
    + repeat split. symmetry. apply N.max_r. lia.
    + repeat split. symmetry. apply N.max_l. exact Hge.
  - intros [k Hk]. rewrite Hk. cbn. repeat split.
Qed.

Lemma WriteMasterKey_then_ReadKeyValue_witness :
  nMasterKeyMaxID
    (pwallet (snd (ReadKeyValue sample_env
                     (rkv_args empty_wallet (mkey_key 4%N) [IMasterKey []]
                               new_scan_state))))
  = 4%N.
Proof.
  destruct (proj1 (proj2 (WriteMasterKey_then_ReadKeyValue sample_env 4%N []
                            {| db_records := []; db_faults := [] |} _
                            empty_wallet new_scan_state eq_refl)) eq_refl)
    as [_ [_ Hmax]].
  rewrite Hmax. reflexivity.
Defined.

(** ** The best block *)

Lemma engine_call_ok_no_faults b :
  no_faults b ->
  engine_call b
  = (true, {| db_records := db_records b; db_faults := tail (db_faults b) |})
  /\ no_faults {| db_records := db_records b;
                  db_faults := tail (db_faults b) |}.
Proof.
  destruct b as [recs faults]. unfold no_faults, engine_call. simpl.
  intros H. destruct faults as [|f fs]; simpl.
  - split; [ reflexivity | constructor ].
  - inversion H as [|? ? Hf Hfs]; subst. simpl. auto.
Qed.

(** X9: with a layout in which every locator reads back, and no call into
    the engine failing, [WriteBestBlock] returns true, leaves the empty
    locator under [bestblock], and [ReadBestBlock] then returns true with the
    locator that was written, which it takes from [bestblock_nomerkle]. *)
Theorem WriteBestBlock_then_ReadBestBlock
  (ser : CBlockLocator -> CDataStream)
  (unser : CDataStream -> option CBlockLocator)
  (locator locator0 : CBlockLocator) (b : BerkeleyBatch) :
  (forall l, unser (ser l) = Some l) ->
  no_faults b ->
  let w := WriteBestBlock ser locator b in
  fst w = true
  /\ db_lookup [IString "bestblock"] (db_records (snd w)) = Some (ser [])
  /\ fst (ReadBestBlock unser locator0 (snd w)) = (true, locator).
Proof.
  intros Hround Hnf.
  destruct (engine_call_ok_no_faults b Hnf) as [Hc1 Hnf1].
  assert (Hok1 : fst (engine_call b) = true) by (rewrite Hc1; reflexivity).
  unfold WriteBestBlock, WriteIC.
  rewrite (Write_ok _ _ true b Hok1 (or_introl eq_refl)).
  set (b1 := {| db_records := db_put [IString "bestblock"] (ser [])
                                (db_records b);
                db_faults := tail (db_faults b) |}).
  assert (Hnfb1 : no_faults b1) by exact Hnf1.
  destruct (engine_call_ok_no_faults b1 Hnfb1) as [Hc2 Hnf2].
  assert (Hok2 : fst (engine_call b1) = true) by (rewrite Hc2; reflexivity).
  rewrite (Write_ok _ _ true b1 Hok2 (or_introl eq_refl)).
  set (b2 := {| db_records := db_put [IString "bestblock_nomerkle"]
                                (ser locator) (db_records b1);
                db_faults := tail (db_faults b1) |}).
  assert (Hbest : db_lookup [IString "bestblock"] (db_records b2)
                  = Some (ser [])).
  { simpl. rewrite db_lookup_put_ne by discriminate. apply db_lookup_put_eq. }
  assert (Hnom : db_lookup [IString "bestblock_nomerkle"] (db_records b2)
                 = Some (ser locator))
    by (simpl; apply db_lookup_put_eq).
  cbv zeta. cbn [fst snd].
  split; [ reflexivity | ]. split; [ exact Hbest | ].
  assert (Hnfb2 : no_faults b2) by exact Hnf2.
  destruct (engine_call_ok_no_faults b2 Hnfb2) as [Hc3 Hnf3].
  unfold ReadBestBlock, ReadLocator. rewrite Hc3. cbn [db_records].
  rewrite Hbest, Hround. cbn [default].
  rewrite (bool_decide_eq_true_2 (@nil N = [])) by reflexivity.
  rewrite andb_false_r.
  set (b3 := {| db_records := db_records b2;
                db_faults := tail (db_faults b2) |}).
  assert (Hnfb3 : no_faults b3) by exact Hnf3.
  destruct (engine_call_ok_no_faults b3 Hnfb3) as [Hc4 _].
  change (db_lookup [IString "bestblock_nomerkle"] (db_records b3)
          = Some (ser locator)) in Hnom.
  rewrite Hc4. cbn [db_records]. rewrite Hnom, Hround. cbn [default fst].
  rewrite bool_decide_eq_true_2 by eauto. reflexivity.
Qed.

Lemma sample_locator_reads_back l :
  sample_unser_locator (sample_ser_locator l) = Some l.
Proof.
  unfold sample_unser_locator, sample_ser_locator. rewrite Nat2N.id.
  induction l as [|h l IH]; simpl; [ reflexivity | ].
  rewrite IH. reflexivity.
Qed.

Lemma WriteBestBlock_then_ReadBestBlock_witness :
  fst (ReadBestBlock sample_unser_locator []
         (snd (WriteBestBlock sample_ser_locator [5%N; 9%N]
                 {| db_records := []; db_faults := [] |})))
  = (true, [5%N; 9%N]).
Proof.
  refine (proj2 (proj2 (WriteBestBlock_then_ReadBestBlock sample_ser_locator
                          sample_unser_locator [5%N; 9%N] []
                          {| db_records := []; db_faults := [] |} _ _))).
  - exact sample_locator_reads_back.
  - constructor.
Defined.

(** ** Full erase *)

Lemma zap_all_ok hashes : forall b,
  existsb id (take (length hashes) (db_faults b)) = false ->
  zap_all hashes b = (true, snd (zap_all hashes b))
  /\ db_faults (snd (zap_all hashes b)) = drop (length hashes) (db_faults b)
  /\ (forall h, h ∈ hashes ->
      db_lookup (tx_key h) (db_records (snd (zap_all hashes b))) = None).
Proof.
  assert (Habsent : forall hs b key,
            db_lookup key (db_records b) = None ->
            db_lookup key (db_records (snd (zap_all hs b))) = None).
  { induction hs as [|h' hs IH]; intros b0 key Hnone; simpl; [ exact Hnone | ].
    unfold EraseTx, EraseIC.
    pose proof (Erase_keeps_absent (tx_key h') key b0 Hnone) as Hk.
    destruct (Erase (tx_key h') b0) as [[] b']; simpl; [ | exact Hk ].
    apply IH. exact Hk. }
  induction hashes as [|hash rest IH]; intros b Hfaults; simpl.
  - rewrite drop_0. repeat split. intros h Hh. inversion Hh.
  - unfold EraseTx, EraseIC.
    pose proof (Erase_faults (tx_key hash) b) as Hf.
    pose proof (Erase_ok (tx_key hash) b) as Hok.
    pose proof (Erase_gone (tx_key hash) b) as Hgone.
    pose proof (Habsent rest (snd (Erase (tx_key hash) b)) (tx_key hash))
      as Hkeep.
    destruct (Erase (tx_key hash) b) as [ok b']. simpl in Hf, Hok, Hgone, Hkeep.
    simpl in Hfaults.
    destruct (db_faults b) as [|f fs] eqn:Hfs; simpl in *.
    + subst ok. simpl.
      destruct (IH b') as [Hz [Hd Hl]]; [ rewrite Hf, take_nil; reflexivity | ].
      split; [ exact Hz | ]. split; [ rewrite Hd, Hf, !drop_nil; reflexivity | ].
      intros h Hh. apply elem_of_cons in Hh. destruct Hh as [->|Hh].
      * apply Hkeep. apply Hgone. discriminate.
      * apply Hl. exact Hh.
    + apply orb_false_iff in Hfaults. destruct Hfaults as [Hfalse Hrest].
      unfold id in Hfalse. subst f ok. simpl.
      destruct (IH b') as [Hz [Hd Hl]]; [ rewrite Hf; exact Hrest | ].
      split; [ exact Hz | ]. split; [ rewrite Hd, Hf; reflexivity | ].
      intros h Hh. apply elem_of_cons in Hh. destruct Hh as [->|Hh].
      * apply Hkeep. apply Hgone. discriminate.
      * apply Hl. exact Hh.
Qed.

Lemma zap_all_fail hashes : forall b i fs,
  (i < length hashes)%nat ->
  db_faults b = replicate i false ++ true :: fs ->
  fst (zap_all hashes b) = false
  /\ db_faults (snd (zap_all hashes b)) = fs
  /\ (forall key, key ∉ map tx_key (take i hashes) ->
      db_lookup key (db_records (snd (zap_all hashes b)))
      = db_lookup key (db_records b)).
Proof.
  induction hashes as [|hash rest IH]; intros b i fs Hi Hfaults; simpl in Hi;
    [ lia | ].
  simpl. unfold EraseTx, EraseIC.
  destruct b as [recs faults]. simpl in Hfaults. subst faults.
  unfold Erase, engine_call. simpl.
  destruct i as [|i]; simpl.
  - repeat split.
  - destruct (IH {| db_records := db_del (tx_key hash) recs;
                    db_faults := replicate i false ++ true :: fs |} i fs)
      as [Hf [Hd Hl]]; [ lia | reflexivity | ].
    split; [ exact Hf | ]. split; [ exact Hd | ].
    intros key Hkey. rewrite Hl.
    + simpl. apply db_lookup_del_ne. intros Heq. apply Hkey.
      rewrite <- Heq. apply list_elem_of_here.
    + intros Hin. apply Hkey. apply list_elem_of_further. exact Hin.
Qed.

(** X10: when [FindWalletTx] succeeds, [ZapWalletTx] erases the
    transactions found in the order of the store.  With no erasure failing
    it returns [OK] and none of them has a record left.  At the first
    erasure that fails it stops and returns [CORRUPT]: no further call into
    the engine is made, and every record other than those of the hashes
    before the failing one is as [FindWalletTx] left it. *)
Theorem ZapWalletTx_erases_until_failure (E : Env) (b b1 : BerkeleyBatch)
  (vWtx vWtx' : list CWalletTx) (found : list uint256) :
  FindWalletTx E b [] vWtx = (DB_LOAD_OK, b1, found, vWtx') ->
  let r := ZapWalletTx E b vWtx in
  snd r = vWtx'
  /\ (existsb id (take (length found) (db_faults b1)) = false ->
      fst (fst r) = DB_LOAD_OK
      /\ forall h, h ∈ found ->
         db_lookup (tx_key h) (db_records (snd (fst r))) = None)
  /\ (forall i fs, (i < length found)%nat ->
      db_faults b1 = replicate i false ++ true :: fs ->
      fst (fst r) = DB_CORRUPT
      /\ db_faults (snd (fst r)) = fs
      /\ forall key, key ∉ map tx_key (take i found) ->
         db_lookup key (db_records (snd (fst r)))
         = db_lookup key (db_records b1)).
Proof.
  intros Hfind. unfold ZapWalletTx. rewrite Hfind. simpl.
  split; [ destruct (zap_all found b1); reflexivity | ].
  split.
  - intros Hfaults. destruct (zap_all_ok found b1 Hfaults) as [Hz [_ Hl]].
    rewrite Hz. simpl. split; [ reflexivity | exact Hl ].
  - intros i fs Hi Hfaults.
    destruct (zap_all_fail found b1 i fs Hi Hfaults) as [Hf [Hd Hl]].
    destruct (zap_all found b1) as [ok b2]. simpl in *. subst ok.
    simpl. auto.
Qed.

Lemma ZapWalletTx_erases_until_failure_witness :
  let r := ZapWalletTx sample_env zap_fault_batch [] in
  fst (fst r) = DB_CORRUPT
  /\ db_lookup (tx_key 10%N) (db_records (snd (fst r)))
     = Some [IWalletTx (plain_wtx 10%N)].
Proof.
  destruct (proj2 (proj2 (ZapWalletTx_erases_until_failure sample_env
              zap_fault_batch
              {| db_records := zap_records; db_faults := [true] |} []
              [plain_wtx 30%N; plain_wtx 10%N; plain_wtx 20%N]
              [30%N; 10%N; 20%N] eq_refl)) 0%nat [] ltac:(simpl; lia) eq_refl)
    as [Hc [_ Hl]].
  split; [ exact Hc | ].
  rewrite Hl; [ reflexivity | apply not_elem_of_nil ].
Defined.

(** ** Invariants of the load *)

(** Reads from the streams and changes of [strType] and [strErr] leave the
    wallet and the scan state alone; [on_wallet] and [on_wss] reach them. *)
Section KeepsState.
Context {X : Type} (f : CWallet -> CWalletScanState -> X).

Lemma keeps_state_key_read {A} (as_A : item -> option A) :
  keeps (fun st => f (pwallet st) (wss st)) (key_read as_A).
Proof.
  intros st. unfold key_read.
  destruct (unserialize as_A (ssKey st)) as [[a rest]|]; reflexivity.
Qed.

Lemma keeps_state_value_read {A} (as_A : item -> option A) :
  keeps (fun st => f (pwallet st) (wss st)) (value_read as_A).
Proof.
  intros st. unfold value_read.
  destruct (unserialize as_A (ssValue st)) as [[a rest]|]; reflexivity.
Qed.

Lemma keeps_state_set_strErr m :
  keeps (fun st => f (pwallet st) (wss st)) (set_strErr m).
Proof. intros st. reflexivity. Qed.

Lemma keeps_state_set_strType s :
  keeps (fun st => f (pwallet st) (wss st)) (set_strType s).
Proof. intros st. reflexivity. Qed.

Lemma keeps_state_on_wallet g :
  (forall w s, f (g w) s = f w s) ->
  keeps (fun st => f (pwallet st) (wss st)) (on_wallet g).
Proof. intros Hg st. simpl. apply Hg. Qed.

Lemma keeps_state_on_wss g :
  (forall w s, f w (g s) = f w s) ->
  keeps (fun st => f (pwallet st) (wss st)) (on_wss g).
Proof. intros Hg st. simpl. apply Hg. Qed.

End KeepsState.

Ltac keeps_state_step :=
  match goal with
  | |- keeps _ (on_wallet _) =>
      apply keeps_state_on_wallet; intros ? ?; unfold LoadToWallet;
      try case_match; reflexivity
  | |- keeps _ (on_wss _) =>
      apply keeps_state_on_wss; intros ? ?; reflexivity
  | |- keeps _ (key_read _) => apply keeps_state_key_read
  | |- keeps _ (value_read _) => apply keeps_state_value_read
  | |- keeps _ (set_strErr _) => apply keeps_state_set_strErr
  | |- keeps _ (set_strType _) => apply keeps_state_set_strType
  | _ => keeps_step
  end.

Ltac unfold_branches :=
  unfold rkv_name, rkv_purpose, rkv_tx, rkv_tx_legacy,
    rkv_watchs, rkv_key, rkv_key_load, rkv_privkey, rkv_key_hash, rkv_mkey,
    rkv_ckey, rkv_keymeta, rkv_watchmeta, rkv_defaultkey, rkv_pool,
    rkv_version, rkv_cscript, rkv_orderposnext, rkv_destdata, rkv_hdchain,
    rkv_flags, rkv_other, leave_with, call_bool.

Section LoadInvariants.
Context (E : Env).

(** A property of the wallet and the scan state that every branch keeps is
    kept by [ReadKeyValue], by the scan loop and by [LoadWallet]. *)
Lemma ReadKeyValue_inv (P : CWallet -> CWalletScanState -> Prop) :
  (forall t st, P (pwallet st) (wss st) ->
     P (pwallet (snd (rkv_dispatch E t st)))
       (wss (snd (rkv_dispatch E t st)))) ->
  forall w k v s, P w s ->
    P (pwallet (snd (ReadKeyValue E (rkv_args w k v s))))
      (wss (snd (ReadKeyValue E (rkv_args w k v s)))).
Proof.
  intros Hd w k v s HP.
  unfold ReadKeyValue, rkv_body, bind, key_read. simpl.
  destruct (unserialize as_string k) as [[t rest]|]; simpl; [ | exact HP ].
  match goal with
  | |- context [rkv_dispatch E t ?st] =>
      pose proof (Hd t st HP) as H;
      destruct (rkv_dispatch E t st) as [[u|] st']
  end; simpl in *; exact H.
Qed.

Lemma load_record_wallet k v l :
  l_wallet (load_record E k v l)
  = pwallet (snd (ReadKeyValue E (rkv_args (l_wallet l) k v (l_wss l)))).
Proof.
  unfold load_record.
  destruct (ReadKeyValue E (rkv_args (l_wallet l) k v (l_wss l))) as [[] st];
    simpl; [ reflexivity | ].
  destruct (IsKeyType (strType st) || (strType st =? "defaultkey")%string);
    [ reflexivity | ].
  destruct (strType st =? "flags")%string; reflexivity.
Qed.

Lemma load_scan_inv (P : CWallet -> CWalletScanState -> Prop) :
  (forall w k v s, P w s ->
     P (pwallet (snd (ReadKeyValue E (rkv_args w k v s))))
       (wss (snd (ReadKeyValue E (rkv_args w k v s))))) ->
  forall pcursor b l, P (l_wallet l) (l_wss l) ->
    P (l_wallet (snd (load_scan E pcursor b l)))
      (l_wss (snd (load_scan E pcursor b l))).
Proof.
  intros Hr. induction pcursor as [|[k v] rest IH]; intros b l HP; simpl;
    destruct (engine_call b) as [[] b']; simpl; try exact HP.
  apply IH. rewrite load_record_wallet, load_record_wss. apply Hr. exact HP.
Qed.

Lemma LoadWallet_wallet_inv (Q : CWallet -> Prop) :
  (forall c w, Q w -> Q (called c w)) ->
  (forall v w, Q w -> Q (set_walletVersion v w)) ->
  (forall w k v s, Q w ->
     Q (pwallet (snd (ReadKeyValue E (rkv_args w k v s))))) ->
  forall b w rescan, Q w -> Q (snd (fst (LoadWallet E b w rescan))).
Proof.
  intros Hcalled Hversion Hread b w rescan HQ. unfold LoadWallet.
  destruct (Read as_int minversion_key b) as [mv b1].
  destruct (too_new E mv); [ exact HQ | ].
  assert (HQ1 : Q (load_minversion mv w))
    by (destruct mv; simpl; auto).
  destruct (GetCursor b1) as [[pcursor|] b2]; [ | exact HQ1 ].
  pose proof (load_scan_inv (fun w _ => Q w) Hread pcursor b2
                (load_start (load_minversion mv w) rescan) HQ1) as Hscan.
  destruct (load_scan E pcursor b2 (load_start (load_minversion mv w) rescan))
    as [[[] b3] l]; simpl in Hscan |- *; [ | exact Hscan ].
  unfold load_finalize.
  repeat match goal with
         | |- context [if ?c then _ else _] => destruct c; simpl
         | |- context [let (_, _) := ?x in _] => destruct x; simpl
         end; auto.
Qed.

(** The [mkey] branch is the only one that reaches the master keys. *)
Lemma keeps_master_keys_dispatch t :
  t <> "mkey" ->
  keeps (fun st => master_keys_of (pwallet st) (wss st)) (rkv_dispatch E t).
Proof.
  intros Ht. unfold rkv_dispatch.
  destruct (String.eqb_spec t "mkey") as [Heq|_]; [ contradiction | ].
  cbv iota. unfold_branches. repeat keeps_state_step.
Qed.

(** What the [mkey] branch does to the wallet: nothing when the id is taken
    or a read throws, and otherwise the key goes under its id and
    [nMasterKeyMaxID] rises to the id when it was below. *)
Lemma rkv_mkey_wallet st :
  pwallet (snd (rkv_mkey st)) = pwallet st
  \/ exists nID kMasterKey,
       mapMasterKeys (pwallet st) !! nID = None
       /\ mapMasterKeys (pwallet (snd (rkv_mkey st)))
          = <[nID := kMasterKey]> (mapMasterKeys (pwallet st))
       /\ nMasterKeyMaxID (pwallet (snd (rkv_mkey st)))
          = N.max (nMasterKeyMaxID (pwallet st)) nID.
Proof.
  unfold rkv_mkey, bind, key_read, value_read, get_wallet, leave_with,
    set_strErr, leave, on_wallet, ret.
  destruct (unserialize as_uint (ssKey st)) as [[nID kr]|]; simpl;
    [ | left; reflexivity ].
  destruct (unserialize as_masterkey (ssValue st)) as [[kMasterKey vr]|];
    simpl; [ | left; reflexivity ].
  destruct (mapMasterKeys (pwallet st) !! nID) eqn:Hid; simpl;
    [ left; reflexivity | ].
  right. exists nID, kMasterKey. split; [ exact Hid | ].
  destruct (N.ltb_spec (nMasterKeyMaxID (pwallet st)) nID); simpl;
    split; try reflexivity; lia.
Qed.

Lemma rkv_dispatch_master_keys_bounded t st :
  master_keys_bounded (pwallet st) ->
  master_keys_bounded (pwallet (snd (rkv_dispatch E t st))).
Proof.
  intros Hb. destruct (String.eqb_spec t "mkey") as [->|Ht].
  - change (rkv_dispatch E "mkey") with rkv_mkey.
    destruct (rkv_mkey_wallet st) as [->|[nID [kMasterKey [_ [Hm Hmax]]]]];
      [ exact Hb | ].
    intros id k. rewrite Hm, Hmax. intros Hl.
    apply lookup_insert_Some in Hl. destruct Hl as [[<- _]|[_ Hl]].
    + lia.
    + specialize (Hb id k Hl). lia.
  - pose proof (keeps_master_keys_dispatch t Ht st) as Hk.
    unfold master_keys_of in Hk. injection Hk as Hm Hmax.
    intros id k. rewrite Hm, Hmax. apply Hb.
Qed.

Lemma rkv_dispatch_master_key_stays t st nID k :
  mapMasterKeys (pwallet st) !! nID = Some k ->
  mapMasterKeys (pwallet (snd (rkv_dispatch E t st))) !! nID = Some k.
Proof.
  intros Hk. destruct (String.eqb_spec t "mkey") as [->|Ht].
  - change (rkv_dispatch E "mkey") with rkv_mkey.
    destruct (rkv_mkey_wallet st) as [->|[nID' [k' [Hfree [Hm _]]]]];
      [ exact Hk | ].
    rewrite Hm. apply lookup_insert_Some. right.
    split; [ congruence | exact Hk ].
  - pose proof (keeps_master_keys_dispatch t Ht st) as Hkeep.
    unfold master_keys_of in Hkeep. injection Hkeep as Hm _.
    rewrite Hm. exact Hk.
Qed.

End LoadInvariants.

(** X11: [LoadWallet] keeps the master-key ids bounded: when no master key
    of the wallet has an id above [nMasterKeyMaxID] before the call, none has
    afterwards, however the call ends and whatever the store holds. *)
Theorem LoadWallet_master_keys_bounded (E : Env) (b : BerkeleyBatch)
  (w : CWallet) (rescan : option bool) :
  (forall nID k,
     mapMasterKeys w !! nID = Some k -> (nID <= nMasterKeyMaxID w)%N) ->
  forall nID k,
    mapMasterKeys (snd (fst (LoadWallet E b w rescan))) !! nID = Some k ->
    (nID <= nMasterKeyMaxID (snd (fst (LoadWallet E b w rescan))))%N.
Proof.
  apply (LoadWallet_wallet_inv E master_keys_bounded).
  - intros c w0 H. exact H.
  - intros v w0 H. exact H.
  - intros w0 k v s H.
    apply (ReadKeyValue_inv E (fun w _ => master_keys_bounded w)); [ | exact H ].
    intros t st. apply rkv_dispatch_master_keys_bounded.
Qed.

Lemma LoadWallet_master_keys_bounded_witness :
  let w' := snd (fst (LoadWallet sample_env master_key_batch empty_wallet
                        None)) in
  mapMasterKeys w' !! 3%N = Some [Byte.x01]
  /\ (3 <= nMasterKeyMaxID w')%N.
Proof.
  cbv zeta.
  assert (H : mapMasterKeys
                (snd (fst (LoadWallet sample_env master_key_batch
                             empty_wallet None))) !! 3%N
              = Some [Byte.x01])
    by (vm_compute; reflexivity).
  split; [ exact H | ].
  apply (LoadWallet_master_keys_bounded sample_env master_key_batch
           empty_wallet None) with (k := [Byte.x01]).
  - intros nID k Hk. unfold empty_wallet in Hk. cbn [mapMasterKeys] in Hk.
    rewrite lookup_empty in Hk. discriminate Hk.
  - exact H.
Defined.

(** X12: [LoadWallet] never replaces or drops a master key the wallet
    holds: a key that is under an id before the call is under that id
    afterwards, also when the store has an [mkey] record of the same id (the
    record is then refused). *)
Theorem LoadWallet_master_key_stays (E : Env) (b : BerkeleyBatch)
  (w : CWallet) (rescan : option bool) (nID : N) (k : CMasterKey) :
  mapMasterKeys w !! nID = Some k ->
  mapMasterKeys (snd (fst (LoadWallet E b w rescan))) !! nID = Some k.
Proof.
  apply (LoadWallet_wallet_inv E
           (fun w => mapMasterKeys w !! nID = Some k)).
  - intros c w0 H. exact H.
  - intros v w0 H. exact H.
  - intros w0 k0 v s H.
    apply (ReadKeyValue_inv E
             (fun w _ => mapMasterKeys w !! nID = Some k)); [ | exact H ].
    intros t st. apply rkv_dispatch_master_key_stays.
Qed.

Lemma LoadWallet_master_key_stays_witness :
  mapMasterKeys
    (snd (fst (LoadWallet sample_env master_key_batch
                 (set_mapMasterKeys {[ 3%N := [Byte.x07] ]} empty_wallet)
                 None))) !! 3%N
  = Some [Byte.x07].
Proof.
  apply (LoadWallet_master_key_stays sample_env master_key_batch
           (set_mapMasterKeys {[ 3%N := [Byte.x07] ]} empty_wallet) None
           3%N [Byte.x07]).
  apply lookup_singleton_eq.
Defined.

(** ** What the [tx] branch does *)

Section TxBranch.
Context (E : Env).

Lemma tx_check_hash wtx hash : tx_check E wtx hash = true -> wtx_hash wtx = hash.
Proof.
  unfold tx_check. intros H.
  apply andb_true_iff in H. destruct H as [H _].
  apply andb_true_iff in H. destruct H as [_ H].
  apply N.eqb_eq. exact H.
Qed.

(** The legacy fix-up keeps the hash of the transaction and the wallet; it
    queues the hash when it applies, and a read that throws leaves the scan
    state and [strErr] as they were. *)
Lemma rkv_tx_legacy_cases wtx hash st :
  match rkv_tx_legacy wtx hash st with
  | (Some wtx', st') =>
      wtx_hash wtx' = wtx_hash wtx /\ pwallet st' = pwallet st
      /\ (wss st' = wss st \/ wss st' = push_vWalletUpgrade hash (wss st))
  | (None, st') =>
      pwallet st' = pwallet st /\ wss st' = wss st /\ strErr st' = strErr st
  end.
Proof.
  unfold rkv_tx_legacy.
  destruct ((31404 <=? fTimeReceivedIsTxTime wtx)
            && (fTimeReceivedIsTxTime wtx <=? 31703)); [ | simpl; auto ].
  unfold bind, value_empty, value_read, set_strErr, on_wss, ret.
  destruct st as [w kr vr s ty er]. cbn.
  destruct vr as [|i1 rest1]; cbn; [ auto | ].
  destruct (as_char i1) as [fTmp|]; cbn; [ | auto ].
  destruct rest1 as [|i2 rest2]; cbn; [ auto | ].
  destruct (as_char i2) as [fUnused|]; cbn; [ | auto ].
  destruct rest2 as [|i3 rest3]; cbn; [ auto | ].
  destruct (as_string i3) as [unused_string|]; cbn; auto.
Qed.

Lemma rkv_tx_cases st :
  match rkv_tx E st with
  | (Some _, st') =>
      exists wtx',
        pwallet st' = LoadToWallet wtx' (pwallet st)
        /\ (vWalletUpgrade (wss st') = vWalletUpgrade (wss st)
            \/ vWalletUpgrade (wss st')
               = vWalletUpgrade (wss st) ++ [wtx_hash wtx'])
  | (None, st') =>
      pwallet st' = pwallet st /\ wss st' = wss st /\ strErr st' = strErr st
  end.
Proof.
  unfold rkv_tx. unfold bind at 1. unfold key_read.
  destruct (unserialize as_uint256 (ssKey st)) as [[hash kr]|]; [ | auto ].
  unfold bind at 1. unfold value_read. cbn [ssValue].
  destruct (unserialize as_wallettx (ssValue st)) as [[wtx vr]|]; [ | auto ].
  destruct (tx_check E wtx hash) eqn:Hcheck; cbn [negb]; [ | simpl; auto ].
  apply tx_check_hash in Hcheck.
  unfold bind at 1.
  match goal with
  | |- context [rkv_tx_legacy wtx hash ?st1] =>
      pose proof (rkv_tx_legacy_cases wtx hash st1) as Hl;
      destruct (rkv_tx_legacy wtx hash st1) as [[wtx'|] st2]
  end; cbn [pwallet wss strErr] in Hl; [ | exact Hl ].
  destruct Hl as [Hhash [Hw Hs]].
  unfold bind, on_wss, on_wallet, ret.
  destruct (nOrderPos wtx' =? -1); cbn; exists wtx'; rewrite Hw;
    (split; [ reflexivity | ]);
    destruct Hs as [->| ->]; cbn; [ left | right | left | right ];
    congruence.
Qed.

Lemma LoadToWallet_mapWallet_mono wtx w h :
  is_Some (mapWallet w !! h) ->
  is_Some (mapWallet (LoadToWallet wtx w) !! h).
Proof.
  intros Hh. unfold LoadToWallet. cbn [called mapWallet].
  destruct (mapWallet w !! wtx_hash wtx) eqn:Hw; [ exact Hh | ].
  cbn [set_mapWallet mapWallet]. rewrite lookup_insert_is_Some.
  destruct (decide (wtx_hash wtx = h)); [ left; assumption | right; auto ].
Qed.

Lemma LoadToWallet_mapWallet_hash wtx w :
  is_Some (mapWallet (LoadToWallet wtx w) !! wtx_hash wtx).
Proof.
  unfold LoadToWallet. cbn [called mapWallet].
  destruct (mapWallet w !! wtx_hash wtx) eqn:Hw; [ eauto | ].
  cbn [set_mapWallet mapWallet]. rewrite lookup_insert_is_Some. left.
  reflexivity.
Qed.

(** The [tx] branch is the only one that reaches [mapWallet] and
    [vWalletUpgrade]. *)
Lemma keeps_upgrade_state_dispatch t :
  t <> "tx" ->
  keeps (fun st => upgrade_state_of (pwallet st) (wss st)) (rkv_dispatch E t).
Proof.
  intros Ht. unfold rkv_dispatch.
  destruct (String.eqb_spec t "tx") as [Heq|_]; [ contradiction | ].
  cbv iota. unfold_branches. repeat keeps_state_step.
Qed.

Lemma rkv_dispatch_upgrades_loaded t st :
  upgrades_loaded (pwallet st) (wss st) ->
  upgrades_loaded (pwallet (snd (rkv_dispatch E t st)))
                  (wss (snd (rkv_dispatch E t st))).
Proof.
  intros HP. destruct (String.eqb_spec t "tx") as [->|Ht].
  - change (rkv_dispatch E "tx") with (rkv_tx E).
    pose proof (rkv_tx_cases st) as Hc.
    destruct (rkv_tx E st) as [[u|] st']; cbn [snd].
    + destruct Hc as [wtx' [Hw Hs]]. unfold upgrades_loaded in *.
      rewrite Hw.
      assert (Hold : Forall (fun h => is_Some
                        (mapWallet (LoadToWallet wtx' (pwallet st)) !! h))
                       (vWalletUpgrade (wss st))).
      { eapply Forall_impl; [ exact HP | ].
        intros h Hh. apply LoadToWallet_mapWallet_mono. exact Hh. }
      destruct Hs as [->| ->]; [ exact Hold | ].
      apply Forall_app. split; [ exact Hold | ].
      constructor; [ apply LoadToWallet_mapWallet_hash | constructor ].
    + destruct Hc as [-> [-> _]]. exact HP.
  - pose proof (keeps_upgrade_state_dispatch t Ht st) as Hk.
    unfold upgrade_state_of in Hk. injection Hk as Hm Hv.
    unfold upgrades_loaded. rewrite Hm, Hv. exact HP.
Qed.

Lemma rewrite_upgraded_found hashes w : forall b,
  Forall (fun h => is_Some (mapWallet w !! h)) hashes ->
  fst (rewrite_upgraded hashes w b) = true.
Proof.
  induction hashes as [|h rest IH]; intros b Hall; simpl; [ reflexivity | ].
  inversion Hall as [|? ? [wtx Hh] Hrest]; subst.
  rewrite Hh. apply IH. exact Hrest.
Qed.

Lemma load_finalize_found b l :
  upgrades_loaded (l_wallet l) (l_wss l) ->
  fst (fst (fst (load_finalize E b l))) <> Throws_out_of_range.
Proof.
  intros HP. unfold load_finalize.
  destruct (negb (bool_decide
              ((if l_fNoncriticalErrors l
                   && bool_decide (l_result l = DB_LOAD_OK)
                then DB_NONCRITICAL_ERROR else l_result l) = DB_LOAD_OK)));
    [ discriminate | ].
  match goal with
  | |- context [rewrite_upgraded ?hs ?w1 b] =>
      pose proof (rewrite_upgraded_found hs w1 b) as Hfound;
      destruct (rewrite_upgraded hs w1 b) as [found b1]
  end.
  cbn [fst] in Hfound. rewrite Hfound.
  - cbn [negb].
    repeat match goal with
           | |- context [if ?c then _ else _] => destruct c; simpl
           | |- context [ReorderTransactions E ?w0 ?b0] =>
               destruct (ReorderTransactions E w0 b0); simpl
           end; discriminate.
  - unfold upgrades_loaded in HP.
    destruct (negb (uint_add (uint_add (nKeys (l_wss l)) (nCKeys (l_wss l)))
                      (nWatchKeys (l_wss l)) =? nKeyMeta (l_wss l)));
      exact HP.
Qed.

End TxBranch.

(** X13: [LoadWallet] never leaves through [mapWallet.at]: every hash the
    scan queued in [vWalletUpgrade] is the hash of a transaction it loaded,
    so the loop that rewrites the upgraded transactions finds each of them
    in [mapWallet] and the call returns a [DBErrors] value, whatever the
    store holds and whichever calls into the engine fail. *)
Theorem LoadWallet_never_out_of_range (E : Env) (b : BerkeleyBatch)
  (w : CWallet) (rescan : option bool) :
  exists r, fst (fst (fst (LoadWallet E b w rescan))) = Returns r.
Proof.
  assert (Hreturns : forall o, o <> Throws_out_of_range ->
                               exists r, o = Returns r).
  { intros [r|] Ho; [ exists r; reflexivity | contradiction ]. }
  apply Hreturns. unfold LoadWallet.
  destruct (Read as_int minversion_key b) as [mv b1].
  destruct (too_new E mv); [ discriminate | ].
  destruct (GetCursor b1) as [[pcursor|] b2]; [ | discriminate ].
  pose proof (load_scan_inv E upgrades_loaded
                (ReadKeyValue_inv E upgrades_loaded
                   (rkv_dispatch_upgrades_loaded E))
                pcursor b2 (load_start (load_minversion mv w) rescan)) as Hscan.
  destruct (load_scan E pcursor b2 (load_start (load_minversion mv w) rescan))
    as [[[] b3] l]; [ | discriminate ].
  apply load_finalize_found. apply Hscan. constructor.
Qed.

(** ** Records that fail to decode *)

Ltac in_tag_list :=
  rewrite !elem_of_cons; repeat (first [ left; reflexivity | right ]).

Ltac destruct_innermost :=
  match goal with
  | |- context [match ?x with _ => _ end] =>
      lazymatch x with
      | context [match _ with _ => _ end] => fail
      | _ => destruct x
      end
  end.

Ltac failure_cases :=
  repeat (destruct_innermost; cbn);
  intros; try discriminate; split; intros; reflexivity.

Section Failures.
Context (E : Env).

Lemma rkv_dispatch_failure t st :
  fst (rkv_dispatch E t st) = None ->
  (t ∉ ["name"; "purpose"; "key"; "wkey"; "ckey"; "cscript"; "flags"] ->
   pwallet (snd (rkv_dispatch E t st)) = pwallet st)
  /\ (t ∉ ["watchs"; "key"; "ckey"] ->
      wss (snd (rkv_dispatch E t st)) = wss st).
Proof.
  destruct (String.eqb_spec t "key") as [->|?];
    [ intros _; split; intros Hn; exfalso; apply Hn; in_tag_list | ].
  destruct (String.eqb_spec t "wkey") as [->|?].
  { change (rkv_dispatch E "wkey") with (rkv_key E false).
    intros Hf. split; [ intros Hn; exfalso; apply Hn; in_tag_list | ].
    revert Hf. unfold rkv_key, rkv_privkey, rkv_key_hash, rkv_key_load,
      call_bool, leave_with, try_catch, bind, key_read, value_read, on_wallet,
      get_wallet, set_strErr, leave, ret.
    destruct st as [w kr vr s ty er]. cbn. failure_cases. }
  unfold rkv_dispatch.
  destruct (String.eqb_spec t "key") as [?|_]; [ contradiction | ].
  destruct (String.eqb_spec t "wkey") as [?|_]; [ contradiction | ].
  cbn [orb].
  repeat match goal with
         | |- context [if (t =? ?s)%string then _ else _] =>
             destruct (String.eqb_spec t s) as [->|?]
         end.
  - (* name *)
    intros Hf. split; [ intros Hn; exfalso; apply Hn; in_tag_list | ].
    revert Hf. unfold rkv_name, bind, key_read, value_read, on_wallet.
    destruct st as [w kr vr s ty er]. cbn. failure_cases.
  - (* purpose *)
    intros Hf. split; [ intros Hn; exfalso; apply Hn; in_tag_list | ].
    revert Hf. unfold rkv_purpose, bind, key_read, value_read, on_wallet.
    destruct st as [w kr vr s ty er]. cbn. failure_cases.
  - (* tx *)
    pose proof (rkv_tx_cases E st) as Hc.
    destruct (rkv_tx E st) as [[u|] st']; cbn; [ discriminate | ].
    destruct Hc as [Hw [Hs _]]. auto.
  - (* watchs *)
    intros Hf. split; [ | intros Hn; exfalso; apply Hn; in_tag_list ].
    revert Hf. unfold rkv_watchs, bind, key_read, value_read, on_wallet,
      on_wss, ret.
    destruct st as [w kr vr s ty er]. cbn. failure_cases.
  - (* mkey *)
    unfold rkv_mkey, leave_with, bind, key_read, value_read, on_wallet,
      get_wallet, set_strErr, leave, ret.
    destruct st as [w kr vr s ty er]. cbn. failure_cases.
  - (* ckey *)
    intros _. split; intros Hn; exfalso; apply Hn; in_tag_list.
  - (* keymeta *)
    unfold rkv_keymeta, bind, key_read, value_read, on_wallet, on_wss.
    destruct st as [w kr vr s ty er]. cbn. failure_cases.
  - (* watchmeta *)
    unfold rkv_watchmeta, bind, key_read, value_read, on_wallet, on_wss.
    destruct st as [w kr vr s ty er]. cbn. failure_cases.
  - (* defaultkey *)
    unfold rkv_defaultkey, leave_with, bind, value_read, set_strErr, leave,
      ret.
    destruct st as [w kr vr s ty er]. cbn. failure_cases.
  - (* pool *)
    unfold rkv_pool, bind, key_read, value_read, on_wallet.
    destruct st as [w kr vr s ty er]. cbn. failure_cases.
  - (* version *)
    unfold rkv_version, bind, value_read, on_wss, ret.
    destruct st as [w kr vr s ty er]. cbn. failure_cases.
  - (* cscript *)
    intros Hf. split; [ intros Hn; exfalso; apply Hn; in_tag_list | ].
    revert Hf. unfold rkv_cscript, call_bool, leave_with, bind, key_read,
      value_read, on_wallet, get_wallet, set_strErr, leave, ret.
    destruct st as [w kr vr s ty er]. cbn. failure_cases.
  - (* orderposnext *)
    unfold rkv_orderposnext, bind, value_read, on_wallet.
    destruct st as [w kr vr s ty er]. cbn. failure_cases.
  - (* destdata *)
    unfold rkv_destdata, bind, key_read, value_read, on_wallet.
    destruct st as [w kr vr s ty er]. cbn. failure_cases.
  - (* hdchain *)
    unfold rkv_hdchain, bind, value_read, on_wallet.
    destruct st as [w kr vr s ty er]. cbn. failure_cases.
  - (* flags *)
    intros Hf. split; [ intros Hn; exfalso; apply Hn; in_tag_list | ].
    revert Hf. unfold rkv_flags, call_bool, leave_with, bind, value_read,
      on_wallet, get_wallet, set_strErr, leave, ret.
    destruct st as [w kr vr s ty er]. cbn. failure_cases.
  - (* any other tag *)
    unfold rkv_other, on_wss, ret.
    destruct st as [w kr vr s ty er]. cbn. failure_cases.
Qed.

End Failures.

(** X14: a record that [ReadKeyValue] refuses leaves no trace where the
    branch reads before it acts.  When the call returns false the wallet is
    as it was, unless the record is a [name] or [purpose] record (the entry
    of the address book is created before the value is read) or a [key],
    [wkey], [ckey], [cscript] or [flags] record (a load-callback of the
    wallet was invoked); and the scan state is as it was, unless the record
    is a [watchs], [key] or [ckey] record, whose counters are raised before
    the record is complete. *)
Theorem ReadKeyValue_failure_leaves_state (E : Env) (w : CWallet)
  (k v : CDataStream) (s : CWalletScanState) :
  fst (ReadKeyValue E (rkv_args w k v s)) = false ->
  (record_tag k
   ∉ ["name"; "purpose"; "key"; "wkey"; "ckey"; "cscript"; "flags"] ->
   pwallet (snd (ReadKeyValue E (rkv_args w k v s))) = w)
  /\ (record_tag k ∉ ["watchs"; "key"; "ckey"] ->
      wss (snd (ReadKeyValue E (rkv_args w k v s))) = s).
Proof.
  unfold ReadKeyValue, rkv_body, record_tag, bind, key_read, set_strType.
  cbn [rkv_args ssKey].
  destruct (unserialize as_string k) as [[t rest]|]; cbn; [ | auto ].
  match goal with
  | |- context [rkv_dispatch E t ?st] =>
      pose proof (rkv_dispatch_failure E t st) as Hd;
      destruct (rkv_dispatch E t st) as [[u|] st']
  end; cbn in *; [ discriminate | ].
  intros _. apply Hd. reflexivity.
Qed.

Lemma ReadKeyValue_failure_leaves_state_witness :
  pwallet (snd (ReadKeyValue sample_env
                  (rkv_args empty_wallet [IString "tx"; IUint256 7%N]
                     [IWalletTx (plain_wtx 8%N)] new_scan_state)))
  = empty_wallet.
Proof.
  refine (proj1 (ReadKeyValue_failure_leaves_state sample_env empty_wallet
                   [IString "tx"; IUint256 7%N] [IWalletTx (plain_wtx 8%N)]
                   new_scan_state _) _).
  - reflexivity.
  - cbn. rewrite !elem_of_cons, elem_of_nil.
    intros H. repeat (destruct H as [H|H]; [ discriminate H | ]). exact H.
Defined.

(** ** What a load writes *)

Lemma Read_records {A} (as_A : item -> option A) key b :
  db_records (snd (Read as_A key b)) = db_records b.
Proof. rewrite Read_batch. apply engine_call_records. Qed.

Lemma GetCursor_records b : db_records (snd (GetCursor b)) = db_records b.
Proof.
  unfold GetCursor. pose proof (engine_call_records b) as Hr.
  destruct (engine_call b) as [[] b']; exact Hr.
Qed.

Lemma Write_lookup_cases key value fOverwrite b key' :
  db_lookup key' (db_records (snd (Write key value fOverwrite b)))
  = db_lookup key' (db_records b)
  \/ (key' = key
      /\ db_lookup key' (db_records (snd (Write key value fOverwrite b)))
         = Some value).
Proof.
  destruct (Write key value fOverwrite b) as [[] b'] eqn:Hw; simpl.
  - destruct (Write_true _ _ _ _ _ Hw) as [Hk [Ho _]].
    destruct (decide (key = key')) as [<-|Hne]; [ right; auto | ].
    left. apply Ho. exact Hne.
  - left. rewrite (Write_false _ _ _ _ _ Hw). reflexivity.
Qed.

Section LoadWrites.
Context (E : Env).

Lemma load_scan_records pcursor : forall b l,
  db_records (snd (fst (load_scan E pcursor b l))) = db_records b.
Proof.
  induction pcursor as [|[k v] rest IH]; intros b l; simpl;
    pose proof (engine_call_records b) as Hr;
    destruct (engine_call b) as [[] b']; simpl in *; try exact Hr.
  rewrite IH. exact Hr.
Qed.

Lemma load_wrote_refl key b b' :
  db_records b' = db_records b -> load_wrote E key b b'.
Proof. intros H. left. rewrite H. reflexivity. Qed.

Lemma load_wrote_trans key b b1 b2 :
  load_wrote E key b b1 -> load_wrote E key b1 b2 -> load_wrote E key b b2.
Proof.
  intros H1 [H2|H2]; [ | right; exact H2 ].
  unfold load_wrote in *. rewrite H2. exact H1.
Qed.

Lemma WriteTx_load_wrote wtx b key : load_wrote E key b (snd (WriteTx wtx b)).
Proof.
  unfold WriteTx, WriteIC.
  destruct (Write_lookup_cases (tx_key (wtx_hash wtx)) [IWalletTx wtx] true
              b key) as [H|[-> H]].
  - left. exact H.
  - right. right. exists wtx. split; [ reflexivity | exact H ].
Qed.

Lemma WriteVersion_load_wrote b key :
  load_wrote E key b (snd (WriteVersion (CLIENT_VERSION E) b)).
Proof.
  unfold WriteVersion.
  destruct (Write_lookup_cases [IString "version"] [IInt (CLIENT_VERSION E)]
              true b key) as [H|[-> H]].
  - left. exact H.
  - right. left. split; [ reflexivity | exact H ].
Qed.

Lemma rewrite_upgraded_load_wrote hashes w key : forall b,
  load_wrote E key b (snd (rewrite_upgraded hashes w b)).
Proof.
  induction hashes as [|h rest IH]; intros b; simpl.
  - left. reflexivity.
  - destruct (mapWallet w !! h) as [wtx|]; [ | left; reflexivity ].
    eapply load_wrote_trans; [ apply WriteTx_load_wrote | apply IH ].
Qed.

Lemma load_finalize_load_wrote b l :
  exists b1,
    (forall key, load_wrote E key b b1)
    /\ (snd (fst (fst (load_finalize E b l))) = b1
        \/ exists w1,
             fst (fst (fst (load_finalize E b l)))
             = Returns (fst (ReorderTransactions E w1 b1))
             /\ snd (fst (fst (load_finalize E b l)))
                = snd (ReorderTransactions E w1 b1)
             /\ snd (fst (load_finalize E b l))
                = called CallReorderTransactions w1).
Proof.
  unfold load_finalize.
  destruct (negb (bool_decide _));
    [ exists b; split; [ intros key; left; reflexivity | left; reflexivity ] | ].
  match goal with
  | |- context [rewrite_upgraded ?hs ?w1 b] =>
      pose proof (fun key => rewrite_upgraded_load_wrote hs w1 key b) as Hw;
      destruct (rewrite_upgraded hs w1 b) as [found b1]
  end.
  cbn [snd] in Hw.
  destruct (negb found);
    [ exists b1; split; [ exact Hw | left; reflexivity ] | ].
  destruct (fIsEncrypted (l_wss l) && _);
    [ exists b1; split; [ exact Hw | left; reflexivity ] | ].
  exists (if nFileVersion (l_wss l) <? CLIENT_VERSION E
          then snd (WriteVersion (CLIENT_VERSION E) b1) else b1).
  split.
  { intros key.
    destruct (nFileVersion (l_wss l) <? CLIENT_VERSION E); [ | apply Hw ].
    eapply load_wrote_trans; [ apply Hw | apply WriteVersion_load_wrote ]. }
  destruct (fAnyUnordered (l_wss l)); [ | left; reflexivity ].
  right.
  match goal with
  | |- context [ReorderTransactions E ?w1 ?b2] =>
      exists w1; destruct (ReorderTransactions E w1 b2) as [r b3]
  end.
  cbn [fst snd]. repeat split.
Qed.

Lemma LoadWallet_load_wrote b w rescan :
  exists b1,
    (forall key, load_wrote E key b b1)
    /\ (snd (fst (fst (LoadWallet E b w rescan))) = b1
        \/ exists w1,
             fst (fst (fst (LoadWallet E b w rescan)))
             = Returns (fst (ReorderTransactions E w1 b1))
             /\ snd (fst (fst (LoadWallet E b w rescan)))
                = snd (ReorderTransactions E w1 b1)
             /\ snd (fst (LoadWallet E b w rescan))
                = called CallReorderTransactions w1).
Proof.
  assert (Hstay : forall R : load_outcome * BerkeleyBatch * CWallet * option bool,
            db_records (snd (fst (fst R))) = db_records b ->
            exists b1,
              (forall key, load_wrote E key b b1)
              /\ (snd (fst (fst R)) = b1
                  \/ exists w1,
                       fst (fst (fst R))
                       = Returns (fst (ReorderTransactions E w1 b1))
                       /\ snd (fst (fst R))
                          = snd (ReorderTransactions E w1 b1)
                       /\ snd (fst R) = called CallReorderTransactions w1)).
  { intros R HR. exists (snd (fst (fst R))). split; [ | left; reflexivity ].
    intros key. apply load_wrote_refl. exact HR. }
  unfold LoadWallet.
  pose proof (Read_records as_int minversion_key b) as Hr1.
  destruct (Read as_int minversion_key b) as [mv b1]. cbn [snd] in Hr1.
  destruct (too_new E mv); [ apply Hstay; exact Hr1 | ].
  pose proof (GetCursor_records b1) as Hr2.
  destruct (GetCursor b1) as [[pcursor|] b2]; cbn [fst snd] in Hr2;
    [ | apply Hstay; cbn [fst snd]; congruence ].
  pose proof (load_scan_records pcursor b2
                (load_start (load_minversion mv w) rescan)) as Hr3.
  destruct (load_scan E pcursor b2 (load_start (load_minversion mv w) rescan))
    as [[[] b3] l]; cbn [fst snd] in Hr3;
    [ | apply Hstay; cbn [fst snd]; congruence ].
  destruct (load_finalize_load_wrote b3 l) as [b4 [Hw Hend]].
  exists b4. split; [ | exact Hend ].
  intros key. apply (load_wrote_trans key b b3); [ | apply Hw ].
  apply load_wrote_refl. congruence.
Qed.

End LoadWrites.

(** X15: what [LoadWallet] writes of its own is the transactions it upgraded
    and the version of the client, and nothing else; the one other change to
    the store is what [ReorderTransactions] makes of it.  Whatever the store
    holds and however the call ends, there is a store [b1] in which the
    record under a key is the one that was there before the call, unless the
    key is [version] and the record now holds [CLIENT_VERSION], or the key is
    the one of a transaction and the record now holds a transaction of that
    hash, and in which no record is removed; and the store the call leaves is
    either [b1], or the store [ReorderTransactions] has made of [b1], in
    which case the call returns the result of [ReorderTransactions]. *)
Theorem LoadWallet_writes_tx_and_version_only (E : Env) (b : BerkeleyBatch)
  (w : CWallet) (rescan : option bool) :
  let R := LoadWallet E b w rescan in
  exists b1,
    (forall key,
       (db_lookup key (db_records b1) = db_lookup key (db_records b)
        \/ (key = [IString "version"]
            /\ db_lookup key (db_records b1) = Some [IInt (CLIENT_VERSION E)])
        \/ (exists wtx, key = tx_key (wtx_hash wtx)
            /\ db_lookup key (db_records b1) = Some [IWalletTx wtx]))
       /\ (is_Some (db_lookup key (db_records b)) ->
           is_Some (db_lookup key (db_records b1))))
    /\ (snd (fst (fst R)) = b1
        \/ exists w1,
             fst (fst (fst R)) = Returns (fst (ReorderTransactions E w1 b1))
             /\ snd (fst (fst R)) = snd (ReorderTransactions E w1 b1)
             /\ snd (fst R) = called CallReorderTransactions w1).
Proof.
  intros R. destruct (LoadWallet_load_wrote E b w rescan) as [b1 [Hw Hend]].
  exists b1. split; [ | exact Hend ].
  intros key. pose proof (Hw key) as H. split; [ exact H | ].
  intros Hsome. destruct H as [->|[[_ ->]|[wtx [_ ->]]]]; eauto.
Qed.

(** ** The [-rescan] argument *)

Lemma SoftSetBoolArg_twice arg v :
  SoftSetBoolArg (SoftSetBoolArg arg v) v = SoftSetBoolArg arg v.
Proof. destruct arg; reflexivity. Qed.

Section Rescan.
Context (E : Env).

Lemma load_record_rescan k v l :
  l_rescan (load_record E k v l)
  = (let (decoded, st) :=
       ReadKeyValue E (rkv_args (l_wallet l) k v (l_wss l)) in
     if negb decoded && (strType st =? "tx")%string
     then SoftSetBoolArg (l_rescan l) true else l_rescan l).
Proof.
  unfold load_record.
  destruct (ReadKeyValue E (rkv_args (l_wallet l) k v (l_wss l)))
    as [[] st]; cbn [negb andb]; [ reflexivity | ].
  destruct (String.eqb_spec (strType st) "tx") as [->|Hne]; [ reflexivity | ].
  destruct (IsKeyType (strType st) || (strType st =? "defaultkey")%string);
    [ reflexivity | ].
  destruct (strType st =? "flags")%string; reflexivity.
Qed.

Lemma load_scan_rescan pcursor : forall b l,
  l_rescan (snd (load_scan E pcursor b l))
  = if bool_decide ("tx" ∈ load_failures E pcursor b l)
    then SoftSetBoolArg (l_rescan l) true else l_rescan l.
Proof.
  assert (Hnil : forall r : option bool,
            r = (if bool_decide ("tx" ∈ @nil string)
                 then SoftSetBoolArg r true else r)).
  { intros r. rewrite bool_decide_eq_false_2 by apply not_elem_of_nil.
    reflexivity. }
  induction pcursor as [|[k v] rest IH]; intros b l;
    cbn [load_scan load_failures];
    destruct (engine_call b) as [[] b']; cbn [fst snd]; try apply Hnil.
  rewrite IH, load_record_rescan.
  destruct (ReadKeyValue E (rkv_args (l_wallet l) k v (l_wss l)))
    as [[] st]; cbn [negb andb app].
  - reflexivity.
  - destruct (String.eqb_spec (strType st) "tx") as [->|Hne].
    + rewrite (bool_decide_eq_true_2 ("tx" ∈ "tx" :: _))
        by apply list_elem_of_here.
      rewrite SoftSetBoolArg_twice.
      match goal with
      | |- context [bool_decide ?P] => destruct (bool_decide P)
      end; reflexivity.
    + apply (f_equal (fun c : bool =>
                        if c then SoftSetBoolArg (l_rescan l) true
                        else l_rescan l)).
      apply bool_decide_ext. rewrite elem_of_cons.
      split; [ auto | intros [Heq|Hin]; [ congruence | exact Hin ] ].
Qed.

Lemma load_finalize_rescan b l : snd (load_finalize E b l) = l_rescan l.
Proof.
  unfold load_finalize.
  repeat match goal with
         | |- context [if ?c then _ else _] => destruct c; simpl
         | |- context [let (_, _) := ?x in _] => destruct x; simpl
         end; reflexivity.
Qed.

End Rescan.

(** X16: what [LoadWallet] does to the [-rescan] argument.  It soft-sets
    the argument to true when the scan met a [tx] record that
    [ReadKeyValue] refused, and leaves it alone otherwise, however the call
    ends; so a value the operator has set is never replaced. *)
Theorem LoadWallet_rescan (E : Env) (b : BerkeleyBatch) (w : CWallet)
  (rescan : option bool) :
  snd (LoadWallet E b w rescan)
  = (if bool_decide ("tx" ∈ LoadWallet_failures E b w rescan)
     then SoftSetBoolArg rescan true else rescan)
  /\ (forall v, rescan = Some v -> snd (LoadWallet E b w rescan) = Some v).
Proof.
  assert (Heq : snd (LoadWallet E b w rescan)
                = (if bool_decide ("tx" ∈ LoadWallet_failures E b w rescan)
                   then SoftSetBoolArg rescan true else rescan)).
  { unfold LoadWallet, LoadWallet_failures.
    destruct (Read as_int minversion_key b) as [mv b1].
    destruct (too_new E mv).
    { rewrite bool_decide_eq_false_2 by apply not_elem_of_nil. reflexivity. }
    destruct (GetCursor b1) as [[pcursor|] b2].
    2: { rewrite bool_decide_eq_false_2 by apply not_elem_of_nil.
         reflexivity. }
    pose proof (load_scan_rescan E pcursor b2
                  (load_start (load_minversion mv w) rescan)) as Hscan.
    destruct (load_scan E pcursor b2
                (load_start (load_minversion mv w) rescan))
      as [[[] b3] l]; cbn [fst snd] in Hscan |- *.
    - rewrite load_finalize_rescan. exact Hscan.
    - exact Hscan. }
  split; [ exact Heq | ].
  intros v ->. rewrite Heq. match goal with
      | |- context [bool_decide ?P] => destruct (bool_decide P)
      end; reflexivity.
Qed.

(** ** What the erasures leave alone *)

Section ZapSafety.
Context (E : Env).

Lemma find_scan_records pcursor : forall b vTxHash vWtx,
  db_records (snd (fst (fst (find_scan pcursor b vTxHash vWtx))))
  = db_records b.
Proof.
  induction pcursor as [|[k v] rest IH]; intros b vTxHash vWtx; simpl;
    pose proof (engine_call_records b) as Hr;
    destruct (engine_call b) as [[] b']; simpl in *; try exact Hr.
  destruct (unserialize as_string k) as [[t k']|]; [ | exact Hr ].
  destruct (t =? "tx")%string; [ | rewrite IH; exact Hr ].
  destruct (unserialize as_uint256 k') as [[hash k'']|]; [ | exact Hr ].
  destruct (unserialize as_wallettx v) as [[wtx v']|]; [ | exact Hr ].
  rewrite IH. exact Hr.
Qed.

Lemma FindWalletTx_records b vTxHash vWtx :
  db_records (snd (fst (fst (FindWalletTx E b vTxHash vWtx))))
  = db_records b.
Proof.
  unfold FindWalletTx.
  pose proof (Read_records as_int minversion_key b) as Hr1.
  destruct (Read as_int minversion_key b) as [mv b1]. cbn [snd] in Hr1.
  destruct (too_new E mv); [ exact Hr1 | ].
  pose proof (GetCursor_records b1) as Hr2.
  destruct (GetCursor b1) as [[pcursor|] b2]; cbn [fst snd] in Hr2 |- *;
    [ | congruence ].
  rewrite find_scan_records. congruence.
Qed.

Lemma zap_loop_other key vs : forall it b delerror out,
  (forall h, h ∈ it -> key <> tx_key h) ->
  db_lookup key (db_records (snd (fst (zap_loop vs it b delerror out))))
  = db_lookup key (db_records b).
Proof.
  induction vs as [|hash rest IH]; intros it b delerror out Hkey; simpl;
    [ reflexivity | ].
  destruct (advance_split hash it) as [dropped [Hsplit _]].
  destruct (advance hash it) as [|x it'] eqn:Hadv; [ reflexivity | ].
  assert (Hsub : forall h, h ∈ x :: it' -> key <> tx_key h).
  { intros h Hh. apply Hkey. rewrite Hsplit. apply elem_of_app. right.
    exact Hh. }
  destruct (N.eqb_spec x hash) as [->|Hne].
  - unfold EraseTx, EraseIC.
    pose proof (Erase_other (tx_key hash) b key) as He.
    destruct (Erase (tx_key hash) b) as [ok b']. cbn [snd] in He.
    rewrite IH by exact Hsub. apply He.
    intros Heq. apply (Hsub hash); [ apply list_elem_of_here | ].
    symmetry. exact Heq.
  - apply IH. exact Hsub.
Qed.

Lemma zap_all_other key hashes : forall b,
  (forall h, key <> tx_key h) ->
  db_lookup key (db_records (snd (zap_all hashes b)))
  = db_lookup key (db_records b).
Proof.
  induction hashes as [|hash rest IH]; intros b Hkey; simpl; [ reflexivity | ].
  unfold EraseTx, EraseIC.
  pose proof (Erase_other (tx_key hash) b key) as He.
  destruct (Erase (tx_key hash) b) as [[] b']; cbn [snd negb] in He |- *.
  - rewrite IH by exact Hkey. apply He. intros Heq. apply (Hkey hash).
    symmetry. exact Heq.
  - apply He. intros Heq. apply (Hkey hash). symmetry. exact Heq.
Qed.

End ZapSafety.

(** X17: [ZapSelectTx] leaves alone every record that is not the
    transaction record of a requested hash, and [ZapWalletTx] every record
    that is not a transaction record: whatever the store holds, whichever
    calls into the engine fail and however the call ends, such a record is
    afterwards what it was before. *)
Theorem Zap_leaves_other_records (E : Env) (b : BerkeleyBatch)
  (key : CDataStream) :
  (forall vTxHashIn vTxHashOut,
     (forall h, h ∈ vTxHashIn -> key <> tx_key h) ->
     db_lookup key
       (db_records (snd (fst (fst (ZapSelectTx E b vTxHashIn vTxHashOut)))))
     = db_lookup key (db_records b))
  /\ (forall vWtx,
        (forall h, key <> tx_key h) ->
        db_lookup key (db_records (snd (fst (ZapWalletTx E b vWtx))))
        = db_lookup key (db_records b)).
Proof.
  split.
  - intros vTxHashIn vTxHashOut Hkey. unfold ZapSelectTx.
    pose proof (FindWalletTx_records E b [] []) as Hfind.
    destruct (FindWalletTx E b [] []) as [[[err b1] vTxHash] vWtx].
    cbn [fst snd] in Hfind.
    destruct (negb (bool_decide (err = DB_LOAD_OK))); cbn [fst snd];
      [ rewrite Hfind; reflexivity | ].
    pose proof (zap_loop_other key (sort_hashes vTxHash)
                  (sort_hashes vTxHashIn) b1 false vTxHashOut) as Hloop.
    destruct (zap_loop (sort_hashes vTxHash) (sort_hashes vTxHashIn) b1 false
                vTxHashOut) as [[delerror b2] out].
    cbn [fst snd] in Hloop |- *. rewrite Hloop, Hfind; [ reflexivity | ].
    intros h Hh. apply Hkey. unfold sort_hashes in Hh.
    rewrite merge_sort_Permutation in Hh. exact Hh.
  - intros vWtx Hkey. unfold ZapWalletTx.
    pose proof (FindWalletTx_records E b [] vWtx) as Hfind.
    destruct (FindWalletTx E b [] vWtx) as [[[err b1] vTxHash] vWtx'].
    cbn [fst snd] in Hfind.
    destruct (negb (bool_decide (err = DB_LOAD_OK))); cbn [fst snd];
      [ rewrite Hfind; reflexivity | ].
    pose proof (zap_all_other key vTxHash b1 Hkey) as Hall.
    destruct (zap_all vTxHash b1) as [[] b2]; cbn [fst snd] in Hall |- *;
      rewrite Hall, Hfind; reflexivity.
Qed.

Lemma Zap_leaves_other_records_witness :
  db_lookup (tx_key 30%N)
    (db_records (snd (fst (fst (ZapSelectTx sample_env zap_fault_batch
                                  [20%N; 10%N; 40%N] [])))))
  = Some [IWalletTx (plain_wtx 30%N)].
Proof.
  rewrite (proj1 (Zap_leaves_other_records sample_env zap_fault_batch
                    (tx_key 30%N)) [20%N; 10%N; 40%N] []).
  - reflexivity.
  - intros h Hh Heq. injection Heq as <-.
    rewrite !elem_of_cons, elem_of_nil in Hh.
    repeat (destruct Hh as [Hh|Hh]; [ discriminate Hh | ]). exact Hh.
Defined.

(** ** The version a load leaves in the store *)

Lemma Write_no_faults key value fOverwrite b :
  no_faults b -> no_faults (snd (Write key value fOverwrite b)).
Proof.
  unfold no_faults. rewrite Write_faults. intros H.
  destruct (db_faults b) as [|f fs]; [ exact H | ].
  inversion H; subst. assumption.
Qed.

Section VersionStamp.
Context (E : Env).

Lemma rewrite_upgraded_no_faults hashes w : forall b,
  no_faults b -> no_faults (snd (rewrite_upgraded hashes w b)).
Proof.
  induction hashes as [|h rest IH]; intros b Hnf; simpl; [ exact Hnf | ].
  destruct (mapWallet w !! h) as [wtx|]; [ | exact Hnf ].
  apply IH. apply Write_no_faults. exact Hnf.
Qed.

Lemma load_finalize_stamps b l :
  no_faults b ->
  (forall w1 b1,
     db_lookup [IString "version"]
       (db_records (snd (ReorderTransactions E w1 b1)))
     = db_lookup [IString "version"] (db_records b1)) ->
  fst (fst (fst (load_finalize E b l))) = Returns DB_LOAD_OK ->
  nFileVersion (l_wss l) < CLIENT_VERSION E ->
  db_lookup [IString "version"]
    (db_records (snd (fst (fst (load_finalize E b l)))))
  = Some [IInt (CLIENT_VERSION E)].
Proof.
  intros Hnf Hframe Hok Hlt. revert Hok. unfold load_finalize.
  destruct (bool_decide
              ((if l_fNoncriticalErrors l
                   && bool_decide (l_result l = DB_LOAD_OK)
                then DB_NONCRITICAL_ERROR else l_result l) = DB_LOAD_OK))
    eqn:Hres; cbn [negb].
  2: { apply bool_decide_eq_false_1 in Hres. cbn [fst].
       intros Hok. injection Hok as Hok. contradiction. }
  match goal with
  | |- context [rewrite_upgraded ?hs ?w1 b] =>
      pose proof (rewrite_upgraded_no_faults hs w1 b Hnf) as Hnf1;
      destruct (rewrite_upgraded hs w1 b) as [found b1]
  end.
  cbn [snd] in Hnf1.
  destruct found; cbn [negb fst snd]; [ | discriminate ].
  destruct (fIsEncrypted (l_wss l) && _); cbn [fst snd]; [ discriminate | ].
  assert (Hltb : (nFileVersion (l_wss l) <? CLIENT_VERSION E) = true)
    by (apply Z.ltb_lt; exact Hlt).
  rewrite Hltb. unfold WriteVersion.
  destruct (engine_call_no_faults b1 Hnf1) as [Hcall _].
  rewrite (Write_ok _ _ true b1 Hcall (or_introl eq_refl)).
  destruct (fAnyUnordered (l_wss l)).
  - match goal with
    | |- context [ReorderTransactions E ?w1 ?b2] =>
        pose proof (Hframe w1 b2) as Hfr;
        destruct (ReorderTransactions E w1 b2) as [r b3]
    end.
    cbn [fst snd db_records] in Hfr |- *. intros _. rewrite Hfr.
    apply db_lookup_put_eq.
  - cbn [fst snd db_records]. intros _. apply db_lookup_put_eq.
Qed.

End VersionStamp.

(** X18: a load that succeeds stamps the store.  When no call into the
    engine fails, [LoadWallet] returns [OK] and the version it found in the
    store (which the wallet now carries as its version) is below
    [CLIENT_VERSION], the store holds [CLIENT_VERSION] under [version]
    afterwards, the wallet's [ReorderTransactions] being one that leaves the
    [version] record of the store it works on as it finds it. *)
Theorem LoadWallet_stamps_version (E : Env) (b : BerkeleyBatch) (w : CWallet)
  (rescan : option bool) :
  no_faults b ->
  (forall w1 b1,
     db_lookup [IString "version"]
       (db_records (snd (ReorderTransactions E w1 b1)))
     = db_lookup [IString "version"] (db_records b1)) ->
  fst (fst (fst (LoadWallet E b w rescan))) = Returns DB_LOAD_OK ->
  walletVersion (snd (fst (LoadWallet E b w rescan))) < CLIENT_VERSION E ->
  db_lookup [IString "version"]
    (db_records (snd (fst (fst (LoadWallet E b w rescan)))))
  = Some [IInt (CLIENT_VERSION E)].
Proof.
  intros Hnf Hframe Hok Hlt.
  destruct (too_new E (fst (Read as_int minversion_key b))) eqn:Hnew.
  { exfalso. revert Hok. unfold LoadWallet.
    destruct (Read as_int minversion_key b) as [mv b1]. cbn [fst] in Hnew.
    rewrite Hnew. discriminate. }
  destruct (LoadWallet_no_faults E b w rescan Hnf Hnew)
    as [b2 [b3 [Hload [_ [Hnf3 _]]]]].
  rewrite Hload in Hok, Hlt |- *.
  rewrite load_finalize_walletVersion in Hlt.
  apply load_finalize_stamps; assumption.
Qed.

Lemma LoadWallet_stamps_version_witness :
  db_lookup [IString "version"]
    (db_records
       (snd (fst (fst (LoadWallet sample_env version_batch empty_wallet
                         None)))))
  = Some [IInt 170000].
Proof.
  apply (LoadWallet_stamps_version sample_env version_batch empty_wallet
           None).
  - constructor.
  - intros w1 b1. reflexivity.
  - vm_compute. reflexivity.
  - vm_compute. reflexivity.
Defined.

(** ** What a rotation removes and what it leaves *)

Lemma remove_file_elem_of f name files :
  f ∈ remove_file name files <-> f ∈ files /\ f_name f <> name.
Proof.
  unfold remove_file. rewrite !list_elem_of_In, filter_In.
  rewrite negb_true_iff. split; intros [Hin Hname]; split; try exact Hin.
  - apply String.eqb_neq. exact Hname.
  - apply String.eqb_neq. exact Hname.
Qed.

Lemma sweep_keeps f todo : forall counter wd files,
  f ∈ files ->
  (forall g, g ∈ todo -> f_name g <> f_name f) ->
  f ∈ snd (sweep todo counter wd files).
Proof.
  induction todo as [|g rest IH]; intros counter wd files Hf Hname; simpl;
    [ exact Hf | ].
  assert (Hrest : forall g', g' ∈ rest -> f_name g' <> f_name f)
    by (intros g' Hg'; apply Hname; apply list_elem_of_further; exact Hg').
  destruct (counter + 1 >? nWalletBackups wd); [ | apply IH; assumption ].
  destruct (bool_decide (f_name g ∈ undeletable wd)); [ exact Hf | ].
  apply IH; [ | exact Hrest ].
  apply remove_file_elem_of. split; [ exact Hf | ].
  intros Heq. apply (Hname g); [ apply list_elem_of_here | ].
  symmetry. exact Heq.
Qed.

Lemma sweep_subset todo : forall counter wd files g,
  g ∈ snd (sweep todo counter wd files) -> g ∈ files.
Proof.
  induction todo as [|f rest IH]; intros counter wd files g; simpl;
    [ auto | ].
  destruct (counter + 1 >? nWalletBackups wd); [ | apply IH ].
  destruct (bool_decide (f_name f ∈ undeletable wd)); [ auto | ].
  intros Hg. apply IH in Hg. apply remove_file_elem_of in Hg. tauto.
Qed.

Lemma newest_first_elem_of wf files g :
  g ∈ newest_first wf files <-> g ∈ files /\ is_backup_of wf g = true.
Proof.
  rewrite newest_first_Permutation, !list_elem_of_In, filter_In.
  reflexivity.
Qed.

Lemma retention_files wf w wd :
  backups_files (snd (retention wf w wd))
  = snd (sweep (newest_first wf (backups_files wd)) 0 wd (backups_files wd)).
Proof.
  unfold retention, newest_first.
  destruct (sweep _ 0 wd (backups_files wd)) as [[name|] files]; reflexivity.
Qed.

Lemma retention_keeps wf w wd f :
  f ∈ backups_files wd ->
  (forall g, g ∈ backups_files wd -> is_backup_of wf g = true ->
             f_name g <> f_name f) ->
  f ∈ backups_files (snd (retention wf w wd)).
Proof.
  intros Hf Hname. rewrite retention_files. apply sweep_keeps; [ exact Hf | ].
  intros g Hg. apply newest_first_elem_of in Hg. destruct Hg as [Hg Hb].
  apply Hname; assumption.
Qed.

Lemma filter_length_bound {A} (p : A -> bool) l :
  (length (List.filter p l) <= length l)%nat.
Proof.
  induction l as [|x l IH]; simpl; [ lia | ].
  destruct (p x); simpl; lia.
Qed.

Lemma first_undeletable_None wd l :
  first_undeletable wd l = None -> deletable_prefix wd l = l.
Proof.
  induction l as [|f l IH]; simpl; [ reflexivity | ].
  destruct (deletable wd f); [ | discriminate ].
  intros H. rewrite IH by exact H. reflexivity.
Qed.

(** A sweep that removes every file it is to remove leaves at most
    [nWalletBackups] backups. *)
Lemma retention_true wf w wd :
  0 < nWalletBackups wd ->
  fst (fst (fst (fst (retention wf w wd)))) = true ->
  (length (List.filter (is_backup_of wf)
             (backups_files (snd (retention wf w wd))))
   <= Z.to_nat (nWalletBackups wd))%nat
  /\ nWalletBackups (snd (retention wf w wd)) = nWalletBackups wd.
Proof.
  intros Hpos. unfold retention.
  change (rev (build_folder_set wf (backups_files wd) []))
    with (newest_first wf (backups_files wd)).
  rewrite sweep_spec by lia. rewrite Z.sub_0_r.
  set (todo := newest_first wf (backups_files wd)).
  set (N := Z.to_nat (nWalletBackups wd)).
  destruct (first_undeletable wd (drop N todo)) as [f|] eqn:Hfirst;
    cbn [fmap option_fmap option_map fst snd]; [ discriminate | ].
  intros _. split; [ | reflexivity ].
  cbn [set_backups backups_files].
  rewrite (first_undeletable_None _ _ Hfirst).
  unfold remove_files. rewrite filter_comm.
  rewrite (Permutation_length
             (filter_Permutation _ _ _
                (Permutation_sym (newest_first_Permutation wf
                                    (backups_files wd))))).
  fold todo.
  set (P := fun f : file =>
              negb (bool_decide (f_name f ∈ map f_name (drop N todo)))).
  assert (Hnone : List.filter P (drop N todo) = []).
  { apply filter_none. intros x Hx. apply negb_false_iff.
    apply bool_decide_eq_true_2.
    apply list_elem_of_In. apply in_map. apply list_elem_of_In. exact Hx. }
  assert (Hsplit : List.filter P todo
                   = List.filter P (take N todo) ++ List.filter P (drop N todo))
    by (rewrite <- List.filter_app, take_drop; reflexivity).
  rewrite Hsplit, Hnone, app_nil_r.
  etransitivity; [ apply filter_length_bound | ].
  rewrite length_take. lia.
Qed.

(** X19: a rotation removes backups of the wallet only and adds nothing but
    the copy.  With a backup folder that has no entries when it does not
    exist, a file of the folder that does not share its name with a backup of
    the wallet (a regular file whose stem is the wallet name) is in the
    folder after [AutoBackupWallet], however the call ends; every file in the
    folder afterwards was there before or is the copy the call made; and
    with a loaded wallet no file is added at all. *)
Theorem AutoBackupWallet_removes_backups_only (E : Env)
  (wallet : option CWallet) (strWalletFile : string) (wd : backup_world) :
  (backups_exists wd = false -> backups_files wd = []) ->
  let files' := backups_files (snd (AutoBackupWallet E wallet strWalletFile wd))
  in
  (forall f, f ∈ backups_files wd ->
     (forall g, g ∈ backups_files wd -> is_backup_of strWalletFile g = true ->
                f_name g <> f_name f) ->
     f ∈ files')
  /\ (forall g, g ∈ files' ->
      g ∈ backups_files wd
      \/ (wallet = None /\ g = backup_copy strWalletFile wd)).
Proof.
  intros Hfolder files'. subst files'.
  assert (Hwd1 : backups_files (if backups_exists wd then wd
                                else set_backups true [] wd)
                 = backups_files wd).
  { destruct (backups_exists wd); [ reflexivity | ].
    rewrite Hfolder by reflexivity. reflexivity. }
  split.
  - intros f Hf Hname. unfold AutoBackupWallet.
    destruct (nWalletBackups wd >? 0); [ | exact Hf ].
    destruct (negb (backups_exists wd) && negb (create_directories_ok wd));
      [ exact Hf | ].
    set (wd1 := if backups_exists wd then wd else set_backups true [] wd) in *.
    destruct wallet as [w|].
    + destruct (IsLocked E _); cbn [snd];
        [ cbn; rewrite Hwd1; exact Hf | ].
      apply retention_keeps; rewrite Hwd1; assumption.
    + destruct (file_exists (String.append strWalletFile (dateTimeStr wd1))
                  (backups_files wd1)) eqn:Hexists;
        [ cbn [snd]; rewrite Hwd1; exact Hf | ].
      destruct (source_exists wd1);
        [ | apply retention_keeps; rewrite Hwd1; assumption ].
      destruct (copy_file_ok wd1); [ | cbn; rewrite Hwd1; exact Hf ].
      apply retention_keeps; cbn [set_backups backups_files].
      * apply insert_entry_elem_of. right. rewrite Hwd1. exact Hf.
      * intros g Hg Hb. apply insert_entry_elem_of in Hg.
        destruct Hg as [Hg|Hg].
        -- subst g. cbn [f_name].
           apply file_exists_false in Hexists. intros Heq. apply Hexists.
           rewrite Heq. apply list_elem_of_In. apply in_map.
           apply list_elem_of_In. rewrite Hwd1. exact Hf.
        -- rewrite Hwd1 in Hg. apply Hname; assumption.
  - intros g. unfold AutoBackupWallet.
    destruct (nWalletBackups wd >? 0); [ | auto ].
    destruct (negb (backups_exists wd) && negb (create_directories_ok wd));
      [ auto | ].
    set (wd1 := if backups_exists wd then wd else set_backups true [] wd) in *.
    assert (Hstamp : dateTimeStr wd1 = dateTimeStr wd
                     /\ copy_mtime wd1 = copy_mtime wd)
      by (subst wd1; destruct (backups_exists wd); auto).
    destruct Hstamp as [Hdate Hmtime].
    destruct wallet as [w|].
    + destruct (IsLocked E _); cbn [snd];
        [ cbn; rewrite Hwd1; auto | ].
      rewrite retention_files. intros Hg. apply sweep_subset in Hg.
      rewrite Hwd1 in Hg. auto.
    + destruct (file_exists (String.append strWalletFile (dateTimeStr wd1))
                  (backups_files wd1));
        [ cbn [snd]; rewrite Hwd1; auto | ].
      destruct (source_exists wd1).
      * destruct (copy_file_ok wd1); [ | cbn; rewrite Hwd1; auto ].
        rewrite retention_files. intros Hg. apply sweep_subset in Hg.
        cbn [set_backups backups_files] in Hg.
        apply insert_entry_elem_of in Hg. destruct Hg as [Hg|Hg].
        -- right.
           split; [ reflexivity | ]. subst g. unfold backup_copy.
           rewrite Hdate, Hmtime. reflexivity.
        -- rewrite Hwd1 in Hg. auto.
      * rewrite retention_files. intros Hg. apply sweep_subset in Hg.
        rewrite Hwd1 in Hg. auto.
Qed.

Lemma AutoBackupWallet_removes_backups_only_witness :
  other_file
  ∈ backups_files (snd (AutoBackupWallet sample_env None "wallet.dat"
                          rotation_world)).
Proof.
  apply (proj1 (AutoBackupWallet_removes_backups_only sample_env None
                  "wallet.dat" rotation_world ltac:(discriminate))).
  - unfold rotation_world. cbn [backups_files].
    apply list_elem_of_further. apply list_elem_of_here.
  - unfold rotation_world. cbn [backups_files]. intros g Hg Hb.
    rewrite !elem_of_cons, elem_of_nil in Hg.
    destruct Hg as [->|[->|[->|[->|[]]]]]; discriminate.
Defined.

(** X20: a rotation that returns true has kept the number of backups
    within bounds, with a loaded wallet or without: the folder then holds at
    most [nWalletBackups] backups of the wallet, and [nWalletBackups] is what
    it was (and positive). *)
Theorem AutoBackupWallet_true_bounds_backups (E : Env)
  (wallet : option CWallet) (strWalletFile : string) (wd : backup_world) :
  let r := AutoBackupWallet E wallet strWalletFile wd in
  fst (fst (fst (fst r))) = true ->
  (length (List.filter (is_backup_of strWalletFile) (backups_files (snd r)))
   <= Z.to_nat (nWalletBackups wd))%nat
  /\ nWalletBackups (snd r) = nWalletBackups wd
  /\ 0 < nWalletBackups wd.
Proof.
  cbv zeta. unfold AutoBackupWallet.
  destruct (Z.gtb_spec (nWalletBackups wd) 0) as [Hpos|_]; [ | discriminate ].
  destruct (negb (backups_exists wd) && negb (create_directories_ok wd));
    [ discriminate | ].
  set (wd1 := if backups_exists wd then wd else set_backups true [] wd).
  assert (HN : nWalletBackups wd1 = nWalletBackups wd)
    by (subst wd1; destruct (backups_exists wd); reflexivity).
  assert (Hret : forall w wd2,
            nWalletBackups wd2 = nWalletBackups wd ->
            fst (fst (fst (fst (retention strWalletFile w wd2)))) = true ->
            (length (List.filter (is_backup_of strWalletFile)
                       (backups_files (snd (retention strWalletFile w wd2))))
             <= Z.to_nat (nWalletBackups wd))%nat
            /\ nWalletBackups (snd (retention strWalletFile w wd2))
               = nWalletBackups wd
            /\ 0 < nWalletBackups wd).
  { intros w wd2 H2 Htrue.
    destruct (retention_true strWalletFile w wd2) as [Hlen Hn];
      [ lia | exact Htrue | ].
    rewrite H2 in Hlen, Hn. auto. }
  destruct wallet as [w|].
  - destruct (IsLocked E _); [ discriminate | ]. apply Hret. exact HN.
  - destruct (file_exists _ (backups_files wd1)); [ discriminate | ].
    destruct (source_exists wd1); [ | apply Hret; exact HN ].
    destruct (copy_file_ok wd1); [ | discriminate ].
    apply Hret. exact HN.
Qed.

Lemma AutoBackupWallet_true_bounds_backups_witness :
  (length (List.filter (is_backup_of "wallet.dat")
             (backups_files (snd (AutoBackupWallet sample_env
                                    (Some empty_wallet) "wallet.dat"
                                    rotation_world))))
   <= 2)%nat.
Proof.
  apply (AutoBackupWallet_true_bounds_backups sample_env (Some empty_wallet)
           "wallet.dat" rotation_world).
  reflexivity.
Defined.

(** X21: the failures that switch automatic backups off.  When
    [AutoBackupWallet] reports that the backup folder cannot be created,
    that the wallet is locked or that the copy failed, it leaves
    [nWalletBackups] negative, and every later call then returns false at
    once, with empty messages and nothing changed.  When it reports that the
    backup file exists or that a removal failed, [nWalletBackups] is what it
    was. *)
Theorem AutoBackupWallet_failure_disables (E : Env) (wallet : option CWallet)
  (strWalletFile : string) (wd : backup_world) :
  let r := AutoBackupWallet E wallet strWalletFile wd in
  let warning := snd (fst (fst (fst r))) in
  let error := snd (fst (fst r)) in
  (error = BErrCreateFolder \/ warning = BWarnLocked
   \/ warning = BWarnCopyFailed ->
   nWalletBackups (snd r) < 0
   /\ forall wallet2 strWalletFile2,
        AutoBackupWallet E wallet2 strWalletFile2 (snd r)
        = (false, BMsgEmpty, BMsgEmpty, wallet2, snd r))
  /\ (warning = BWarnExists \/ (exists name, warning = BWarnDeleteFailed name) ->
      nWalletBackups (snd r) = nWalletBackups wd).
Proof.
  cbv zeta.
  assert (Hoff : forall wd', nWalletBackups wd' < 0 ->
            nWalletBackups wd' < 0
            /\ forall wallet2 strWalletFile2,
                 AutoBackupWallet E wallet2 strWalletFile2 wd'
                 = (false, BMsgEmpty, BMsgEmpty, wallet2, wd')).
  { intros wd' Hneg. split; [ exact Hneg | ]. intros wallet2 wf2.
    unfold AutoBackupWallet.
    destruct (Z.gtb_spec (nWalletBackups wd') 0); [ lia | reflexivity ]. }
  assert (Hret : forall w wd2,
            let r := retention strWalletFile w wd2 in
            snd (fst (fst r)) = BMsgEmpty
            /\ snd (fst (fst (fst r))) <> BWarnLocked
            /\ snd (fst (fst (fst r))) <> BWarnCopyFailed
            /\ nWalletBackups (snd r) = nWalletBackups wd2).
  { intros w wd2. unfold retention.
    destruct (sweep _ 0 wd2 (backups_files wd2)) as [[name|] files];
      cbn; repeat split; discriminate. }
  unfold AutoBackupWallet.
  destruct (nWalletBackups wd >? 0).
  2: { cbn. split; [ intros [H|[H|H]]; discriminate | reflexivity ]. }
  destruct (negb (backups_exists wd) && negb (create_directories_ok wd)).
  { cbn [fst snd]. split.
    - intros _. apply Hoff. cbn. lia.
    - intros [H|[name H]]; discriminate. }
  set (wd1 := if backups_exists wd then wd else set_backups true [] wd).
  assert (HN : nWalletBackups wd1 = nWalletBackups wd)
    by (subst wd1; destruct (backups_exists wd); reflexivity).
  assert (Hgo : forall w wd2, nWalletBackups wd2 = nWalletBackups wd ->
            let r := retention strWalletFile w wd2 in
            (snd (fst (fst r)) = BErrCreateFolder
             \/ snd (fst (fst (fst r))) = BWarnLocked
             \/ snd (fst (fst (fst r))) = BWarnCopyFailed ->
             nWalletBackups (snd r) < 0
             /\ forall wallet2 strWalletFile2,
                  AutoBackupWallet E wallet2 strWalletFile2 (snd r)
                  = (false, BMsgEmpty, BMsgEmpty, wallet2, snd r))
            /\ (snd (fst (fst (fst r))) = BWarnExists
                \/ (exists name,
                      snd (fst (fst (fst r))) = BWarnDeleteFailed name) ->
                nWalletBackups (snd r) = nWalletBackups wd)).
  { intros w wd2 H2. cbv zeta.
    destruct (Hret w wd2) as [He [Hl [Hc Hn]]]. split.
    - intros [H|[H|H]]; [ rewrite He in H; discriminate | | ]; contradiction.
    - intros _. rewrite Hn. exact H2. }
  destruct wallet as [w|].
  - destruct (IsLocked E _); [ | apply Hgo; exact HN ].
    cbn [fst snd]. split.
    + intros _. apply Hoff. cbn. lia.
    + intros [H|[name H]]; discriminate.
  - destruct (file_exists _ (backups_files wd1)).
    { cbn [fst snd]. split;
        [ intros [H|[H|H]]; discriminate | intros _; exact HN ]. }
    destruct (source_exists wd1); [ | apply Hgo; exact HN ].
    destruct (copy_file_ok wd1); [ apply Hgo; exact HN | ].
    cbn [fst snd]. split.
    + intros _. apply Hoff. cbn. lia.
    + intros [H|[name H]]; discriminate.
Qed.

Lemma AutoBackupWallet_failure_disables_witness :
  AutoBackupWallet sample_env None "wallet.dat"
    (snd (AutoBackupWallet sample_env None "wallet.dat"
            {| nWalletBackups := 3; backups_exists := false;
               backups_files := []; source_exists := true;
               create_directories_ok := false; copy_file_ok := true;
               undeletable := []; dateTimeStr := ".2024-01-01-10-00";
               copy_mtime := 4; copy_index := 0 |}))
  = (false, BMsgEmpty, BMsgEmpty, None,
     snd (AutoBackupWallet sample_env None "wallet.dat"
            {| nWalletBackups := 3; backups_exists := false;
               backups_files := []; source_exists := true;
               create_directories_ok := false; copy_file_ok := true;
               undeletable := []; dateTimeStr := ".2024-01-01-10-00";
               copy_mtime := 4; copy_index := 0 |})).
Proof.
  apply (proj1 (AutoBackupWallet_failure_disables sample_env None "wallet.dat"
                  {| nWalletBackups := 3; backups_exists := false;
                     backups_files := []; source_exists := true;
                     create_directories_ok := false; copy_file_ok := true;
                     undeletable := []; dateTimeStr := ".2024-01-01-10-00";
                     copy_mtime := 4; copy_index := 0 |})).
  left. reflexivity.
Defined.

(** ** The copy a rotation makes *)

Lemma list_ascii_of_string_append s1 s2 :
  list_ascii_of_string (String.append s1 s2)
  = list_ascii_of_string s1 ++ list_ascii_of_string s2.
Proof.
  induction s1 as [|c s1 IH]; simpl; [ reflexivity | ].
  rewrite IH. reflexivity.
Qed.

Lemma before_last_dot_rev_app s r :
  (forall c, c ∈ s -> c <> "."%char) ->
  before_last_dot_rev (s ++ "."%char :: r) = Some r.
Proof.
  induction s as [|c s IH]; intros Hs; simpl.
  - reflexivity.
  - destruct (Ascii.eqb_spec c "."%char) as [Heq|_].
    + exfalso. apply (Hs c); [ apply list_elem_of_here | exact Heq ].
    + apply IH. intros c' Hc'. apply Hs. apply list_elem_of_further.
      exact Hc'.
Qed.

(** The stem of a wallet name followed by a dot and a stamp without dots is
    the wallet name. *)
Lemma stem_stamped wf stamp :
  stamp <> EmptyString ->
  (forall c, c ∈ list_ascii_of_string stamp -> c <> "."%char) ->
  stem (String.append wf (String "."%char stamp)) = wf.
Proof.
  intros Hne Hdots. unfold stem.
  set (name := String.append wf (String "."%char stamp)).
  assert (Hla : list_ascii_of_string name
                = list_ascii_of_string wf
                  ++ "."%char :: list_ascii_of_string stamp)
    by (subst name; rewrite list_ascii_of_string_append; reflexivity).
  destruct stamp as [|c0 stamp0]; [ contradiction | ].
  assert (Hc0 : c0 <> "."%char)
    by (apply Hdots; simpl; apply list_elem_of_here).
  assert (Hspecial : (name =? ".")%string || (name =? "..")%string = false).
  { apply orb_false_iff. split; apply String.eqb_neq; intros Heq;
      apply (f_equal list_ascii_of_string) in Heq; rewrite Hla in Heq;
      simpl in Heq.
    - destruct (list_ascii_of_string wf) as [|a l]; simpl in Heq;
        [ discriminate | ].
      destruct l; discriminate.
    - destruct (list_ascii_of_string wf) as [|a [|a' l]]; simpl in Heq.
      + injection Heq as Heq _. congruence.
      + discriminate.
      + destruct l; discriminate. }
  rewrite Hspecial, Hla, rev_app_distr. cbn [rev].
  rewrite <- app_assoc. cbn [app].
  rewrite before_last_dot_rev_app.
  - rewrite rev_involutive. apply string_of_list_ascii_of_string.
  - intros c Hc. apply Hdots. apply list_elem_of_In. apply in_rev.
    apply list_elem_of_In. exact Hc.
Qed.

(** In a list by descending write time, an entry that is strictly newer than
    every other entry is the first. *)
Lemma strictly_newest_first (l l' : list file) (c : file) :
  StronglySorted (flip older_or_same) l ->
  l ≡ₚ c :: l' ->
  (forall g, g ∈ l' -> f_mtime g < f_mtime c) ->
  exists t, l = c :: t /\ t ≡ₚ l'.
Proof.
  intros Hsorted Hperm Hnewer.
  destruct l as [|x t].
  { apply Permutation_nil in Hperm. discriminate. }
  apply StronglySorted_inv in Hsorted. destruct Hsorted as [_ Hall].
  assert (Hx : x ∈ c :: l')
    by (rewrite <- Hperm; apply list_elem_of_here).
  apply elem_of_cons in Hx. destruct Hx as [->|Hx].
  - exists t. split; [ reflexivity | ].
    exact (Permutation_cons_inv Hperm).
  - exfalso. specialize (Hnewer x Hx).
    assert (Hc : c ∈ x :: t)
      by (rewrite Hperm; apply list_elem_of_here).
    apply elem_of_cons in Hc. destruct Hc as [->|Hc]; [ lia | ].
    rewrite Forall_forall in Hall. specialize (Hall c).
    unfold flip, older_or_same in Hall.
    specialize (Hall Hc). lia.
Qed.

(** X22: the backup a rotation makes survives the rotation.  For a wallet
    that is not loaded, with backups switched on, the backup folder there or
    created, the wallet file there and copied under a name not in use, a
    date string that is a dot followed by a stamp without dots, and a write
    time of the copy that is later than the write time of every backup of
    the wallet in the folder: the copy counts as a backup of the wallet (its
    stem is the wallet name) and is in the folder after [AutoBackupWallet],
    also when a removal fails, and in whichever order the directory iterator
    delivers the entries. *)
Theorem AutoBackupWallet_keeps_new_copy (E : Env) (strWalletFile : string)
  (wd : backup_world) (stamp : string) :
  0 < nWalletBackups wd ->
  backups_exists wd = true \/ create_directories_ok wd = true ->
  source_exists wd = true ->
  copy_file_ok wd = true ->
  file_exists (f_name (backup_copy strWalletFile wd)) (backups_files wd)
  = false ->
  dateTimeStr wd = String "."%char stamp ->
  stamp <> EmptyString ->
  (forall c, c ∈ list_ascii_of_string stamp -> c <> "."%char) ->
  (forall g, g ∈ backups_files wd -> is_backup_of strWalletFile g = true ->
             f_mtime g < copy_mtime wd) ->
  is_backup_of strWalletFile (backup_copy strWalletFile wd) = true
  /\ backup_copy strWalletFile wd
     ∈ backups_files (snd (AutoBackupWallet E None strWalletFile wd)).
Proof.
  intros Hpos Hfolder Hsource Hcopy Hfresh Hdate Hstamp Hdots Hnewest.
  assert (Hbackup : is_backup_of strWalletFile (backup_copy strWalletFile wd)
                    = true).
  { unfold is_backup_of, backup_copy. cbn [f_regular f_name andb].
    rewrite Hdate, stem_stamped by assumption. apply String.eqb_refl. }
  split; [ exact Hbackup | ].
  unfold AutoBackupWallet.
  assert (Hgt : (nWalletBackups wd >? 0) = true) by (apply Z.gtb_lt; lia).
  rewrite Hgt.
  assert (Hcreate : negb (backups_exists wd) && negb (create_directories_ok wd)
                    = false)
    by (destruct Hfolder as [->| ->];
        [ reflexivity | apply andb_false_r ]).
  rewrite Hcreate.
  set (wd1 := if backups_exists wd then wd else set_backups true [] wd).
  assert (Hwd1 : dateTimeStr wd1 = dateTimeStr wd
                 /\ copy_mtime wd1 = copy_mtime wd
                 /\ source_exists wd1 = source_exists wd
                 /\ copy_file_ok wd1 = copy_file_ok wd
                 /\ nWalletBackups wd1 = nWalletBackups wd)
    by (subst wd1; destruct (backups_exists wd); repeat split).
  destruct Hwd1 as [Hd1 [Hm1 [Hs1 [Hc1 Hn1]]]].
  assert (Hfiles1 : forall g, g ∈ backups_files wd1 -> g ∈ backups_files wd).
  { subst wd1. destruct (backups_exists wd); [ auto | ].
    cbn. intros g Hg. apply elem_of_nil in Hg. contradiction. }
  assert (Hfresh1 : file_exists (String.append strWalletFile (dateTimeStr wd1))
                      (backups_files wd1) = false).
  { rewrite Hd1. subst wd1. destruct (backups_exists wd);
      [ exact Hfresh | reflexivity ]. }
  rewrite Hfresh1, Hs1, Hsource, Hc1, Hcopy, Hd1, Hm1.
  change {| f_name := String.append strWalletFile (dateTimeStr wd);
            f_mtime := copy_mtime wd; f_regular := true |}
    with (backup_copy strWalletFile wd).
  set (copy := backup_copy strWalletFile wd) in *.
  rewrite retention_files. cbn [set_backups backups_files nWalletBackups].
  set (files1 := insert_entry (copy_index wd1) copy (backups_files wd1)).
  assert (Hperm : newest_first strWalletFile files1
                  ≡ₚ copy :: List.filter (is_backup_of strWalletFile)
                               (backups_files wd1)).
  { rewrite newest_first_Permutation. subst files1.
    rewrite (filter_Permutation _ _ _ (insert_entry_Permutation _ _ _)).
    simpl. rewrite Hbackup. reflexivity. }
  assert (Hold : forall g,
            g ∈ List.filter (is_backup_of strWalletFile) (backups_files wd1) ->
            g ∈ backups_files wd /\ is_backup_of strWalletFile g = true).
  { intros g Hg. apply list_elem_of_In in Hg. apply filter_In in Hg.
    destruct Hg as [Hg Hb]. split; [ | exact Hb ].
    apply Hfiles1. apply list_elem_of_In. exact Hg. }
  destruct (strictly_newest_first _ _ copy
              (newest_first_sorted strWalletFile files1) Hperm)
    as [t [Horder Ht]].
  { intros g Hg. destruct (Hold g Hg) as [Hin Hb].
    exact (Hnewest g Hin Hb). }
  rewrite Horder. cbn [sweep].
  assert (Hkeep : (0 + 1 >? nWalletBackups wd1) = false).
  { rewrite Hn1. destruct (Z.gtb_spec (0 + 1) (nWalletBackups wd));
      [ lia | reflexivity ]. }
  cbn [nWalletBackups set_backups]. rewrite Hkeep.
  apply sweep_keeps.
  - subst files1. apply insert_entry_elem_of. left. reflexivity.
  - intros g Hg Heq. rewrite Ht in Hg. destruct (Hold g Hg) as [Hin _].
    apply file_exists_false in Hfresh. apply Hfresh. rewrite <- Heq.
    apply list_elem_of_In. apply in_map. apply list_elem_of_In. exact Hin.
Qed.

Lemma AutoBackupWallet_keeps_new_copy_witness :
  backup_copy "wallet.dat" abort_world
  ∈ backups_files (snd (AutoBackupWallet sample_env None "wallet.dat"
                          abort_world)).
Proof.
  refine (proj2 (AutoBackupWallet_keeps_new_copy sample_env "wallet.dat"
                   abort_world "2024-01-01-10-00" _ _ _ _ _ _ _ _ _)).
  - reflexivity.
  - left. reflexivity.
  - reflexivity.
  - reflexivity.
  - reflexivity.
  - reflexivity.
  - discriminate.
  - intros c Hc. cbn in Hc. rewrite !elem_of_cons, elem_of_nil in Hc.
    repeat (destruct Hc as [->|Hc]; [ discriminate | ]). contradiction.
  - unfold abort_world. cbn [backups_files copy_mtime]. intros g Hg _.
    rewrite !elem_of_cons, elem_of_nil in Hg.
    destruct Hg as [->|[->|[->|[->|[]]]]]; cbn; lia.
Defined.

(** With a backup as new as the copy the order of the directory decides:
    here the iterator delivers the copy first, the backup [wallet.dat.t] of
    the same write time goes behind it in [folder_set], and with one backup
    to keep the sweep removes the copy. *)
Lemma AutoBackupWallet_same_time_removes_copy :
  let wd := {| nWalletBackups := 1; backups_exists := true;
               backups_files := [{| f_name := "wallet.dat.t"; f_mtime := 4;
                                    f_regular := true |}];
               source_exists := true; create_directories_ok := true;
               copy_file_ok := true; undeletable := [];
               dateTimeStr := ".2024-01-01-10-00"; copy_mtime := 4;
               copy_index := 0 |} in
  let r := AutoBackupWallet sample_env None "wallet.dat" wd in
  fst r = (true, BMsgEmpty, BMsgEmpty, None)
  /\ backups_files (snd r)
     = [{| f_name := "wallet.dat.t"; f_mtime := 4; f_regular := true |}].
Proof.
  vm_compute. split; reflexivity.
Qed.

(** ** Periodic compaction *)

Section Compaction.
Context (C : compact_env).

(** What the loop body does for one wallet. *)
Lemma compact_handle_spec dbh reads calls :
  let r := compact_handle C dbh reads calls in
  nUpdateCounter (fst (fst r)) = nUpdateCounter dbh
  /\ nLastSeen (fst (fst r)) = nUpdateCounter dbh
  /\ (reads <= snd (fst r))%nat
  /\ exists new,
       snd r = calls ++ new
       /\ Forall (fun h =>
                    nLastSeen h = nUpdateCounter h
                    /\ nLastFlushed h <> nUpdateCounter h
                    /\ exists k, (reads <= k < snd (fst r))%nat
                                 /\ 2 <= GetTime C k - nLastWalletUpdate h)
                 new.
Proof.
  unfold compact_handle.
  set (seen := if negb (nLastSeen dbh =? nUpdateCounter dbh)
               then ({| nUpdateCounter := nUpdateCounter dbh;
                        nLastSeen := nUpdateCounter dbh;
                        nLastFlushed := nLastFlushed dbh;
                        nLastWalletUpdate := GetTime C reads |}, S reads)
               else (dbh, reads)).
  assert (Hseen : nUpdateCounter (fst seen) = nUpdateCounter dbh
                  /\ nLastSeen (fst seen) = nUpdateCounter dbh
                  /\ (reads <= snd seen)%nat).
  { subst seen. destruct (Z.eqb_spec (nLastSeen dbh) (nUpdateCounter dbh));
      cbn; repeat split; auto with arith. }
  destruct Hseen as [Hc [Hs Hr]]. cbv zeta.
  destruct (Z.eqb_spec (nLastFlushed (fst seen)) (nUpdateCounter dbh))
    as [Hflushed|Hstale]; cbn [negb fst snd].
  { repeat split; try assumption. exists []. rewrite app_nil_r.
    split; [ reflexivity | constructor ]. }
  destruct (Z.geb_spec (GetTime C (snd seen) - nLastWalletUpdate (fst seen)) 2)
    as [Hold|Hyoung]; cbn [fst snd].
  - split; [ destruct (PeriodicFlush C calls (fst seen)); exact Hc | ].
    split; [ destruct (PeriodicFlush C calls (fst seen)); exact Hs | ].
    split; [ lia | ].
    exists [fst seen]. split; [ reflexivity | ].
    constructor; [ | constructor ].
    split; [ congruence | ]. split; [ congruence | ].
    exists (snd seen). split; [ lia | lia ].
  - repeat split; try assumption; try lia. exists []. rewrite app_nil_r.
    split; [ reflexivity | constructor ].
Qed.

(** A wallet seen and flushed at its counter is passed over. *)
Lemma compact_handle_quiet dbh reads calls :
  nLastSeen dbh = nUpdateCounter dbh ->
  nLastFlushed dbh = nUpdateCounter dbh ->
  compact_handle C dbh reads calls = (dbh, reads, calls).
Proof.
  intros Hs Hf. unfold compact_handle.
  rewrite Hs, Z.eqb_refl. cbn. rewrite Hf, Z.eqb_refl. reflexivity.
Qed.

Lemma compact_loop_spec dbhs : forall reads calls,
  let r := compact_loop C dbhs reads calls in
  map nUpdateCounter (fst (fst r)) = map nUpdateCounter dbhs
  /\ Forall (fun h => nLastSeen h = nUpdateCounter h) (fst (fst r))
  /\ (reads <= snd (fst r))%nat
  /\ exists new,
       snd r = calls ++ new
       /\ Forall (fun h =>
                    nLastSeen h = nUpdateCounter h
                    /\ nLastFlushed h <> nUpdateCounter h
                    /\ exists k, (reads <= k < snd (fst r))%nat
                                 /\ 2 <= GetTime C k - nLastWalletUpdate h)
                 new.
Proof.
  induction dbhs as [|dbh rest IH]; intros reads calls; cbn [compact_loop].
  - cbn. repeat split; auto. exists []. rewrite app_nil_r.
    split; [ reflexivity | constructor ].
  - pose proof (compact_handle_spec dbh reads calls) as H1.
    destruct (compact_handle C dbh reads calls) as [[dbh' reads'] calls'].
    cbn [fst snd] in H1. destruct H1 as [Hc [Hs [Hr [new1 [Hn1 Hall1]]]]].
    specialize (IH reads' calls').
    destruct (compact_loop C rest reads' calls') as [[rest' reads''] calls''].
    cbn [fst snd] in IH |- *.
    destruct IH as [Hmap [Hseen [Hr' [new2 [Hn2 Hall2]]]]].
    split; [ cbn; congruence | ].
    split; [ constructor; [ congruence | exact Hseen ] | ].
    split; [ lia | ].
    exists (new1 ++ new2). split; [ rewrite Hn2, Hn1, app_assoc; reflexivity | ].
    apply Forall_app. split.
    + eapply Forall_impl; [ exact Hall1 | ].
      intros h [Ha [Hb [k [Hk Ht]]]]. repeat split; try assumption.
      exists k. split; [ lia | exact Ht ].
    + eapply Forall_impl; [ exact Hall2 | ].
      intros h [Ha [Hb [k [Hk Ht]]]]. repeat split; try assumption.
      exists k. split; [ lia | exact Ht ].
Qed.

Lemma compact_loop_quiet dbhs : forall reads calls,
  Forall (fun h => nLastSeen h = nUpdateCounter h
                   /\ nLastFlushed h = nUpdateCounter h) dbhs ->
  compact_loop C dbhs reads calls = (dbhs, reads, calls).
Proof.
  induction dbhs as [|dbh rest IH]; intros reads calls Hall;
    cbn [compact_loop]; [ reflexivity | ].
  inversion Hall as [|? ? [Hs Hf] Hrest]; subst.
  rewrite (compact_handle_quiet dbh reads calls Hs Hf), (IH _ _ Hrest).
  reflexivity.
Qed.

End Compaction.

(** X23: the guard of [MaybeCompactWalletDB] is not released on the early
    return.  A call that finds the guard free and [-flushwallet] off sets the
    guard and returns without touching a wallet; from then on every call
    returns at once and changes nothing, whatever [-flushwallet] is by
    then. *)
Theorem MaybeCompactWalletDB_guard_stays_set (C : compact_env)
  (st : compact_state) :
  fOneThread st = false ->
  flushwallet C = false ->
  let st1 := MaybeCompactWalletDB C st in
  fOneThread st1 = true
  /\ wallets st1 = wallets st
  /\ flush_calls st1 = flush_calls st
  /\ forall C2, MaybeCompactWalletDB C2 st1 = st1.
Proof.
  intros Hfree Hoff. unfold MaybeCompactWalletDB at 1.
  rewrite Hfree, Hoff. cbn. repeat split.
Qed.

Lemma MaybeCompactWalletDB_guard_stays_set_witness :
  MaybeCompactWalletDB sample_compact_env
    (MaybeCompactWalletDB
       {| flushwallet := false; GetTime := fun _ => 0;
          PeriodicFlush := fun _ _ => true |} sample_compact_state)
  = MaybeCompactWalletDB
      {| flushwallet := false; GetTime := fun _ => 0;
         PeriodicFlush := fun _ _ => true |} sample_compact_state.
Proof.
  apply (MaybeCompactWalletDB_guard_stays_set
           {| flushwallet := false; GetTime := fun _ => 0;
              PeriodicFlush := fun _ _ => true |} sample_compact_state
           eq_refl eq_refl).
Defined.

(** X24: which wallets a call flushes.  A call that finds the guard free
    and [-flushwallet] on releases the guard, changes no update counter and
    leaves every wallet seen at its counter.  [PeriodicFlush] is invoked only
    on a wallet that is not flushed at its counter and whose last update, as
    recorded, lies two seconds or more before a reading of the clock made in
    this call. *)
Theorem MaybeCompactWalletDB_flush_rule (C : compact_env)
  (st : compact_state) :
  fOneThread st = false ->
  flushwallet C = true ->
  let st1 := MaybeCompactWalletDB C st in
  fOneThread st1 = false
  /\ map nUpdateCounter (wallets st1) = map nUpdateCounter (wallets st)
  /\ Forall (fun h => nLastSeen h = nUpdateCounter h) (wallets st1)
  /\ exists new,
       flush_calls st1 = flush_calls st ++ new
       /\ Forall (fun h =>
                    nLastSeen h = nUpdateCounter h
                    /\ nLastFlushed h <> nUpdateCounter h
                    /\ exists k, (time_reads st <= k < time_reads st1)%nat
                                 /\ 2 <= GetTime C k - nLastWalletUpdate h)
                 new.
Proof.
  intros Hfree Hon. unfold MaybeCompactWalletDB. rewrite Hfree, Hon.
  cbn [negb].
  pose proof (compact_loop_spec C (wallets st) (time_reads st)
                (flush_calls st)) as H.
  destruct (compact_loop C (wallets st) (time_reads st) (flush_calls st))
    as [[dbhs reads] calls].
  cbn [fst snd] in H. destruct H as [Hmap [Hseen [_ Hnew]]].
  cbn. auto.
Qed.

Lemma MaybeCompactWalletDB_flush_rule_witness :
  flush_calls (MaybeCompactWalletDB sample_compact_env sample_compact_state)
  = [ {| nUpdateCounter := 7; nLastSeen := 7; nLastFlushed := 6;
         nLastWalletUpdate := 97 |} ]
  /\ Forall (fun h => nLastSeen h = nUpdateCounter h)
       (wallets (MaybeCompactWalletDB sample_compact_env
                   sample_compact_state)).
Proof.
  split; [ reflexivity | ].
  exact (proj1 (proj2 (proj2 (MaybeCompactWalletDB_flush_rule
                                sample_compact_env sample_compact_state
                                eq_refl eq_refl)))).
Defined.

(** X25: no wallet is flushed twice for the same update.  When a call that
    found the guard free and [-flushwallet] on leaves every wallet flushed
    at its counter, a further call (with [-flushwallet] on, whatever the
    clock shows and whatever [PeriodicFlush] would return) changes nothing:
    no wallet is touched, the clock is not read and [PeriodicFlush] is not
    invoked. *)
Theorem MaybeCompactWalletDB_settles (C C2 : compact_env)
  (st : compact_state) :
  fOneThread st = false ->
  flushwallet C = true ->
  flushwallet C2 = true ->
  let st1 := MaybeCompactWalletDB C st in
  Forall (fun h => nLastFlushed h = nUpdateCounter h) (wallets st1) ->
  MaybeCompactWalletDB C2 st1 = st1.
Proof.
  intros Hfree Hon Hon2. cbv zeta.
  assert (Hrun : exists dbhs reads calls,
            MaybeCompactWalletDB C st
            = {| fOneThread := false; wallets := dbhs; time_reads := reads;
                 flush_calls := calls |}
            /\ Forall (fun h => nLastSeen h = nUpdateCounter h) dbhs).
  { unfold MaybeCompactWalletDB. rewrite Hfree, Hon. cbn [negb].
    pose proof (compact_loop_spec C (wallets st) (time_reads st)
                  (flush_calls st)) as H.
    destruct (compact_loop C (wallets st) (time_reads st) (flush_calls st))
      as [[dbhs reads] calls].
    cbn [fst snd] in H. destruct H as [_ [Hseen _]].
    exists dbhs, reads, calls. split; [ reflexivity | exact Hseen ]. }
  destruct Hrun as [dbhs [reads [calls [-> Hseen]]]].
  cbn [wallets]. intros Hflushed.
  unfold MaybeCompactWalletDB. cbn. rewrite Hon2. cbn.
  rewrite compact_loop_quiet; [ reflexivity | ].
  rewrite Forall_forall in Hseen, Hflushed |- *. auto.
Qed.

Lemma MaybeCompactWalletDB_settles_witness :
  MaybeCompactWalletDB sample_compact_env
    (MaybeCompactWalletDB sample_compact_env
       (MaybeCompactWalletDB sample_compact_env sample_compact_state))
  = MaybeCompactWalletDB sample_compact_env
      (MaybeCompactWalletDB sample_compact_env sample_compact_state).
Proof.
  assert (Hfree : fOneThread
                    (MaybeCompactWalletDB sample_compact_env
                       sample_compact_state) = false) by reflexivity.
  apply (MaybeCompactWalletDB_settles sample_compact_env sample_compact_env
           (MaybeCompactWalletDB sample_compact_env sample_compact_state)
           Hfree eq_refl eq_refl).
  vm_compute. repeat constructor.
Defined.

(** ** The address book *)

Section AddressBook.
Context (E : Env).

Lemma ReadKeyValue_name w a n kr vr s :
  ReadKeyValue E (rkv_args w (IString "name" :: IString a :: kr)
                           (IString n :: vr) s)
  = (true,
     {| pwallet := set_address_name (DecodeDestination E a) n
                     (touch_address_book (DecodeDestination E a) w);
        ssKey := kr; ssValue := vr; wss := s; strType := "name";
        strErr := MsgEmpty |}).
Proof. reflexivity. Qed.

Lemma ReadKeyValue_purpose w a p kr vr s :
  ReadKeyValue E (rkv_args w (IString "purpose" :: IString a :: kr)
                           (IString p :: vr) s)
  = (true,
     {| pwallet := set_address_purpose (DecodeDestination E a) p
                     (touch_address_book (DecodeDestination E a) w);
        ssKey := kr; ssValue := vr; wss := s; strType := "purpose";
        strErr := MsgEmpty |}).
Proof. reflexivity. Qed.

Lemma address_book_entry_touch dest w :
  address_book_entry dest (touch_address_book dest w)
  = address_book_entry dest w.
Proof.
  unfold address_book_entry at 1, touch_address_book.
  cbn [set_mapAddressBook mapAddressBook].
  rewrite lookup_insert_eq. reflexivity.
Qed.

Lemma set_address_name_book dest n w :
  mapAddressBook (set_address_name dest n (touch_address_book dest w))
  = <[dest := {| ab_name := n;
                 ab_purpose := ab_purpose (address_book_entry dest w) |}]>
      (mapAddressBook w).
Proof.
  unfold set_address_name. cbn [set_mapAddressBook mapAddressBook].
  rewrite address_book_entry_touch. unfold touch_address_book.
  cbn [set_mapAddressBook mapAddressBook]. apply insert_insert_eq.
Qed.

Lemma set_address_purpose_book dest p w :
  mapAddressBook (set_address_purpose dest p (touch_address_book dest w))
  = <[dest := {| ab_name := ab_name (address_book_entry dest w);
                 ab_purpose := p |}]>
      (mapAddressBook w).
Proof.
  unfold set_address_purpose. cbn [set_mapAddressBook mapAddressBook].
  rewrite address_book_entry_touch. unfold touch_address_book.
  cbn [set_mapAddressBook mapAddressBook]. apply insert_insert_eq.
Qed.

Lemma address_book_entry_inserted dest x m w :
  mapAddressBook w = <[dest := x]> m -> address_book_entry dest w = x.
Proof.
  intros H. unfold address_book_entry. rewrite H, lookup_insert_eq.
  reflexivity.
Qed.

End AddressBook.

(** X26: name and purpose of an address go through the store.  After
    [WriteName] and [WritePurpose] have returned true the store holds the two
    records; decoding them, in either order, leaves the address book of the
    wallet with the entry of the address holding that name and that purpose,
    and the other entries as they were. *)
Theorem WriteName_WritePurpose_then_ReadKeyValue (E : Env)
  (strAddress strName strPurpose : string) (b b1 b2 : BerkeleyBatch)
  (w : CWallet) (s : CWalletScanState) :
  WriteName strAddress strName b = (true, b1) ->
  WritePurpose strAddress strPurpose b1 = (true, b2) ->
  let dest := DecodeDestination E strAddress in
  let name := ReadKeyValue E
                (rkv_args w (name_key strAddress) [IString strName] s) in
  let name_purpose :=
    ReadKeyValue E (rkv_args (pwallet (snd name)) (purpose_key strAddress)
                             [IString strPurpose] (wss (snd name))) in
  let purpose := ReadKeyValue E
                   (rkv_args w (purpose_key strAddress) [IString strPurpose]
                             s) in
  let purpose_name :=
    ReadKeyValue E (rkv_args (pwallet (snd purpose)) (name_key strAddress)
                             [IString strName] (wss (snd purpose))) in
  db_lookup (name_key strAddress) (db_records b2) = Some [IString strName]
  /\ db_lookup (purpose_key strAddress) (db_records b2)
     = Some [IString strPurpose]
  /\ fst name_purpose = true
  /\ fst purpose_name = true
  /\ mapAddressBook (pwallet (snd name_purpose))
     = <[dest := {| ab_name := strName; ab_purpose := strPurpose |}]>
         (mapAddressBook w)
  /\ mapAddressBook (pwallet (snd purpose_name))
     = mapAddressBook (pwallet (snd name_purpose)).
Proof.
  intros Hname Hpurpose. cbv zeta.
  unfold WriteName, WritePurpose, WriteIC in *.
  destruct (Write_true _ _ _ _ _ Hname) as [Hn _].
  destruct (Write_true _ _ _ _ _ Hpurpose) as [Hp [Hother _]].
  split; [ rewrite Hother by discriminate; exact Hn | ].
  split; [ exact Hp | ].
  unfold name_key, purpose_key.
  repeat (rewrite ?ReadKeyValue_name, ?ReadKeyValue_purpose;
          cbn [fst snd pwallet wss]).
  split; [ reflexivity | ]. split; [ reflexivity | ].
  assert (Hnp : mapAddressBook
                  (set_address_purpose (DecodeDestination E strAddress)
                     strPurpose
                     (touch_address_book (DecodeDestination E strAddress)
                        (set_address_name (DecodeDestination E strAddress)
                           strName
                           (touch_address_book
                              (DecodeDestination E strAddress) w))))
                = <[DecodeDestination E strAddress :=
                      {| ab_name := strName; ab_purpose := strPurpose |}]>
                    (mapAddressBook w)).
  { rewrite set_address_purpose_book.
    rewrite (address_book_entry_inserted _ _ _ _
               (set_address_name_book _ strName w)).
    rewrite set_address_name_book. cbn [ab_name]. apply insert_insert_eq. }
  split; [ exact Hnp | ].
  rewrite Hnp, set_address_name_book.
  rewrite (address_book_entry_inserted _ _ _ _
             (set_address_purpose_book _ strPurpose w)).
  rewrite set_address_purpose_book. cbn [ab_purpose]. apply insert_insert_eq.
Qed.

Lemma WriteName_WritePurpose_then_ReadKeyValue_witness :
  mapAddressBook
    (pwallet
       (snd (ReadKeyValue sample_env
               (rkv_args
                  (pwallet
                     (snd (ReadKeyValue sample_env
                             (rkv_args empty_wallet (name_key "addr")
                                [IString "savings"] new_scan_state))))
                  (purpose_key "addr") [IString "receive"]
                  (wss (snd (ReadKeyValue sample_env
                               (rkv_args empty_wallet (name_key "addr")
                                  [IString "savings"] new_scan_state))))))))
  = <[DecodeDestination sample_env "addr" :=
        {| ab_name := "savings"; ab_purpose := "receive" |}]>
      (mapAddressBook empty_wallet).
Proof.
  refine (proj1 (proj2 (proj2 (proj2 (proj2
            (WriteName_WritePurpose_then_ReadKeyValue sample_env "addr"
               "savings" "receive" {| db_records := []; db_faults := [] |}
               _ _ empty_wallet new_scan_state eq_refl eq_refl)))))).
Defined.

(** X27: [EraseName] does not take an address out of the address book for
    good.  After an [EraseName] that returns true the [name] record of the
    address is gone and its [purpose] record is as before; decoding that
    record into a wallet without an entry for the address creates the entry
    again, with the purpose and an empty name. *)
Theorem EraseName_leaves_purpose (E : Env) (strAddress strPurpose : string)
  (b b' : BerkeleyBatch) (w : CWallet) (s : CWalletScanState) :
  db_lookup (purpose_key strAddress) (db_records b)
  = Some [IString strPurpose] ->
  EraseName strAddress b = (true, b') ->
  mapAddressBook w !! DecodeDestination E strAddress = None ->
  let r := ReadKeyValue E
             (rkv_args w (purpose_key strAddress) [IString strPurpose] s) in
  db_lookup (name_key strAddress) (db_records b') = None
  /\ db_lookup (purpose_key strAddress) (db_records b')
     = Some [IString strPurpose]
  /\ fst r = true
  /\ mapAddressBook (pwallet (snd r)) !! DecodeDestination E strAddress
     = Some {| ab_name := EmptyString; ab_purpose := strPurpose |}.
Proof.
  intros Hp Herase Hnone. cbv zeta. unfold EraseName, EraseIC in Herase.
  destruct (Erase_true _ _ _ Herase) as [Hrecs _].
  rewrite Hrecs.
  split; [ apply db_lookup_del_eq | ].
  split; [ rewrite db_lookup_del_ne by discriminate; exact Hp | ].
  unfold purpose_key. rewrite ReadKeyValue_purpose. cbn [fst snd pwallet].
  split; [ reflexivity | ].
  rewrite set_address_purpose_book, lookup_insert_eq.
  unfold address_book_entry. rewrite Hnone. reflexivity.
Qed.

Lemma EraseName_leaves_purpose_witness :
  mapAddressBook
    (pwallet
       (snd (ReadKeyValue sample_env
               (rkv_args empty_wallet (purpose_key "addr")
                  [IString "receive"] new_scan_state))))
  !! DecodeDestination sample_env "addr"
  = Some {| ab_name := EmptyString; ab_purpose := "receive" |}.
Proof.
  refine (proj2 (proj2 (proj2
            (EraseName_leaves_purpose sample_env "addr" "receive"
               {| db_records :=
                    [ (name_key "addr", [IString "savings"]);
                      (purpose_key "addr", [IString "receive"]) ];
                  db_faults := [] |}
               _ empty_wallet new_scan_state eq_refl eq_refl _)))).
  apply lookup_empty.
Defined.

(** ** Transactions written and found *)

Lemma db_lookup_Some_elem_of key v recs :
  db_lookup key recs = Some v -> (key, v) ∈ recs.
Proof.
  induction recs as [|[k v'] rest IH]; simpl; [ discriminate | ].
  destruct (bool_decide (k = key)) eqn:Hk.
  - apply bool_decide_eq_true_1 in Hk. subst k.
    intros H. injection H as ->. apply list_elem_of_here.
  - intros H. apply list_elem_of_further. apply IH. exact H.
Qed.

Lemma find_scan_finds pcursor : forall b vTxHash vWtx b' vTxHash' vWtx',
  find_scan pcursor b vTxHash vWtx = (DB_LOAD_OK, b', vTxHash', vWtx') ->
  (forall h, h ∈ vTxHash -> h ∈ vTxHash')
  /\ (forall wtx, wtx ∈ vWtx -> wtx ∈ vWtx')
  /\ (forall h wtx kr vr,
        (IString "tx" :: IUint256 h :: kr, IWalletTx wtx :: vr) ∈ pcursor ->
        h ∈ vTxHash' /\ wtx ∈ vWtx').
Proof.
  induction pcursor as [|[k v] rest IH];
    intros b vTxHash vWtx b' vTxHash' vWtx'; simpl;
    destruct (engine_call b) as [[] b1]; try discriminate.
  - intros H. inversion H; subst.
    split; [ auto | ]. split; [ auto | ].
    intros h wtx kr vr Hin. apply elem_of_nil in Hin. contradiction.
  - destruct (unserialize as_string k) as [[t k1]|] eqn:Ht;
      [ | discriminate ].
    destruct (t =? "tx")%string eqn:Htx.
    + destruct (unserialize as_uint256 k1) as [[hash k2]|] eqn:Hh;
        [ | discriminate ].
      destruct (unserialize as_wallettx v) as [[wtx0 v1]|] eqn:Hw;
        [ | discriminate ].
      intros H. destruct (IH _ _ _ _ _ _ H) as [Hhs [Hws Hrest]].
      split; [ intros h Hin; apply Hhs; apply elem_of_app; auto | ].
      split; [ intros x Hin; apply Hws; apply elem_of_app; auto | ].
      intros h wtx kr vr Hin. apply elem_of_cons in Hin.
      destruct Hin as [Heq|Hin]; [ | eapply Hrest; exact Hin ].
      injection Heq as Hk Hv. subst k v. cbn in Ht. injection Ht as <- <-.
      cbn in Hh. injection Hh as <- _. cbn in Hw. injection Hw as <- _.
      split; [ apply Hhs | apply Hws ]; apply elem_of_app; right;
        apply list_elem_of_here.
    + intros H. destruct (IH _ _ _ _ _ _ H) as [Hhs [Hws Hrest]].
      split; [ exact Hhs | ]. split; [ exact Hws | ].
      intros h wtx kr vr Hin. apply elem_of_cons in Hin.
      destruct Hin as [Heq|Hin]; [ | eapply Hrest; exact Hin ].
      injection Heq as Hk Hv. subst k v. cbn in Ht. injection Ht as <- _.
      discriminate Htx.
Qed.

(** X28: a transaction written with [WriteTx] is found again.  After a
    [WriteTx] that returns true, a [FindWalletTx] that returns [OK] has the
    hash of the transaction among the hashes and the transaction among the
    transactions it hands back. *)
Theorem WriteTx_then_FindWalletTx (E : Env) (wtx : CWalletTx)
  (b b1 b2 : BerkeleyBatch) (vTxHash : list uint256) (vWtx : list CWalletTx) :
  WriteTx wtx b = (true, b1) ->
  FindWalletTx E b1 [] [] = (DB_LOAD_OK, b2, vTxHash, vWtx) ->
  wtx_hash wtx ∈ vTxHash /\ wtx ∈ vWtx.
Proof.
  intros Hwrite Hfind. unfold WriteTx, WriteIC in Hwrite.
  destruct (Write_true _ _ _ _ _ Hwrite) as [Hrec _].
  apply db_lookup_Some_elem_of in Hrec.
  revert Hfind. unfold FindWalletTx.
  pose proof (Read_records as_int minversion_key b1) as Hr1.
  destruct (Read as_int minversion_key b1) as [mv b1']. cbn [snd] in Hr1.
  destruct (too_new E mv); [ discriminate | ].
  unfold GetCursor. pose proof (engine_call_records b1') as Hr2.
  destruct (engine_call b1') as [[] b1'']; [ | discriminate ].
  cbn [snd] in Hr2. intros Hscan.
  destruct (find_scan_finds _ _ _ _ _ _ _ Hscan) as [_ [_ Hall]].
  apply (Hall (wtx_hash wtx) wtx [] []).
  rewrite Hr2, Hr1. exact Hrec.
Qed.

Lemma WriteTx_then_FindWalletTx_witness :
  let r := FindWalletTx sample_env (snd (WriteTx (plain_wtx 40%N) zap_batch))
             [] [] in
  (40%N : N) ∈ snd (fst r) /\ plain_wtx 40%N ∈ snd r.
Proof.
  cbv zeta.
  apply (WriteTx_then_FindWalletTx sample_env (plain_wtx 40%N) zap_batch
           (snd (WriteTx (plain_wtx 40%N) zap_batch))
           (snd (fst (fst (FindWalletTx sample_env
                             (snd (WriteTx (plain_wtx 40%N) zap_batch))
                             [] []))))).
  - reflexivity.
  - reflexivity.
Defined.

(** ** Records under a tag alone *)

(** X29: the position counter, the HD chain and the wallet flags go through
    the store.  After [WriteOrderPosNext], [WriteHDChain] and
    [WriteWalletFlags] have returned true the store holds the three records,
    each under its tag alone.  Decoding them sets [nOrderPosNext] to the
    value written and leaves the rest of the wallet as it is, hands the chain
    to [SetHDChain] and the flags to [SetWalletFlags] (one callback each, and
    nothing else happens to the wallet); the scan state is not touched; the
    [flags] record is refused, with the message about unknown flags, exactly
    when [SetWalletFlags] returns false. *)
Theorem tag_only_writers_then_ReadKeyValue (E : Env) (nPos : Z)
  (chain : CHDChain) (flags : N) (b b1 b2 b3 : BerkeleyBatch) (w : CWallet)
  (s : CWalletScanState) :
  WriteOrderPosNext nPos b = (true, b1) ->
  WriteHDChain chain b1 = (true, b2) ->
  WriteWalletFlags flags b2 = (true, b3) ->
  let r := ReadKeyValue E (rkv_args w [IString "flags"] [IUInt64 flags] s) in
  db_lookup [IString "orderposnext"] (db_records b3) = Some [IInt64 nPos]
  /\ db_lookup [IString "hdchain"] (db_records b3) = Some [IHDChain chain]
  /\ db_lookup [IString "flags"] (db_records b3) = Some [IUInt64 flags]
  /\ ReadKeyValue E (rkv_args w [IString "orderposnext"] [IInt64 nPos] s)
     = (true,
        {| pwallet :=
             {| mapAddressBook := mapAddressBook w;
                mapMasterKeys := mapMasterKeys w;
                nMasterKeyMaxID := nMasterKeyMaxID w;
                nOrderPosNext := nPos;
                walletVersion := walletVersion w;
                mapWallet := mapWallet w;
                nKeysLeftSinceAutoBackup := nKeysLeftSinceAutoBackup w;
                wallet_calls := wallet_calls w |};
           ssKey := []; ssValue := []; wss := s; strType := "orderposnext";
           strErr := MsgEmpty |})
  /\ ReadKeyValue E (rkv_args w [IString "hdchain"] [IHDChain chain] s)
     = (true,
        {| pwallet :=
             {| mapAddressBook := mapAddressBook w;
                mapMasterKeys := mapMasterKeys w;
                nMasterKeyMaxID := nMasterKeyMaxID w;
                nOrderPosNext := nOrderPosNext w;
                walletVersion := walletVersion w;
                mapWallet := mapWallet w;
                nKeysLeftSinceAutoBackup := nKeysLeftSinceAutoBackup w;
                wallet_calls := wallet_calls w ++ [CallSetHDChain chain] |};
           ssKey := []; ssValue := []; wss := s; strType := "hdchain";
           strErr := MsgEmpty |})
  /\ fst r = SetWalletFlags E w flags
  /\ pwallet (snd r)
     = {| mapAddressBook := mapAddressBook w;
          mapMasterKeys := mapMasterKeys w;
          nMasterKeyMaxID := nMasterKeyMaxID w;
          nOrderPosNext := nOrderPosNext w;
          walletVersion := walletVersion w;
          mapWallet := mapWallet w;
          nKeysLeftSinceAutoBackup := nKeysLeftSinceAutoBackup w;
          wallet_calls := wallet_calls w ++ [CallSetWalletFlags flags] |}
  /\ wss (snd r) = s
  /\ strErr (snd r)
     = (if SetWalletFlags E w flags then MsgEmpty else MsgUnknownFlags).
Proof.
  intros Ho Hc Hf. cbv zeta.
  unfold WriteOrderPosNext, WriteHDChain, WriteWalletFlags, WriteIC in *.
  destruct (Write_true _ _ _ _ _ Ho) as [Ho1 _].
  destruct (Write_true _ _ _ _ _ Hc) as [Hc2 [Hother2 _]].
  destruct (Write_true _ _ _ _ _ Hf) as [Hf3 [Hother3 _]].
  split; [ rewrite Hother3, Hother2 by discriminate; exact Ho1 | ].
  split; [ rewrite Hother3 by discriminate; exact Hc2 | ].
  split; [ exact Hf3 | ].
  split; [ reflexivity | ]. split; [ reflexivity | ].
  unfold ReadKeyValue, rkv_body. cbn. unfold rkv_flags, call_bool. cbn.
  destruct (SetWalletFlags E w flags); cbn; repeat split.
Qed.

Lemma tag_only_writers_then_ReadKeyValue_witness :
  fst (ReadKeyValue sample_env
         (rkv_args empty_wallet [IString "flags"] [IUInt64 8%N]
                   new_scan_state))
  = false.
Proof.
  rewrite (proj1 (proj2 (proj2 (proj2 (proj2 (proj2
             (tag_only_writers_then_ReadKeyValue sample_env 5 [Byte.x01] 8%N
                {| db_records := []; db_faults := [] |} _ _ _ empty_wallet
                new_scan_state eq_refl eq_refl eq_refl))))))).
  reflexivity.
Defined.

(** ** Scripts and destination data *)

(** X30: [WriteCScript] never replaces a script, and destination data are
    kept per address and key.  When the store has a [cscript] record under
    the hash, [WriteCScript] returns false and the record is as before.  The
    record a [WriteDestData] that returns true has stored decodes into a call
    of [LoadDestData] with the destination of the address, the key and the
    value; the write and an [EraseDestData] of the same address and key leave
    the data under every other address or key alone, and after the erasure
    has returned true the record is gone. *)
Theorem WriteCScript_WriteDestData_records (E : Env) (hash : uint160)
  (redeemScript : CScript) (address key value : string)
  (b : BerkeleyBatch) (w : CWallet) (s : CWalletScanState) :
  (forall v0,
     db_lookup [IString "cscript"; IUint160 hash] (db_records b) = Some v0 ->
     fst (WriteCScript hash redeemScript b) = false
     /\ db_records (snd (WriteCScript hash redeemScript b)) = db_records b)
  /\ (forall b1,
        WriteDestData address key value b = (true, b1) ->
        db_lookup (destdata_key address key) (db_records b1)
        = Some [IString value]
        /\ ReadKeyValue E (rkv_args w (destdata_key address key)
                                    [IString value] s)
           = (true,
              {| pwallet := called (CallLoadDestData
                                      (DecodeDestination E address) key value)
                                   w;
                 ssKey := []; ssValue := []; wss := s; strType := "destdata";
                 strErr := MsgEmpty |})
        /\ (forall address' key',
              (address', key') <> (address, key) ->
              db_lookup (destdata_key address' key') (db_records b1)
              = db_lookup (destdata_key address' key') (db_records b))
        /\ forall b2,
             EraseDestData address key b1 = (true, b2) ->
             db_lookup (destdata_key address key) (db_records b2) = None
             /\ forall address' key',
                  (address', key') <> (address, key) ->
                  db_lookup (destdata_key address' key') (db_records b2)
                  = db_lookup (destdata_key address' key') (db_records b)).
Proof.
  split.
  - intros v0 Hv. unfold WriteCScript, WriteIC. apply (Write_exists _ _ _ v0).
    exact Hv.
  - intros b1 Hw. unfold WriteDestData, WriteIC in Hw.
    destruct (Write_true _ _ _ _ _ Hw) as [Hrec [Hother _]].
    assert (Hkeys : forall address' key',
              (address', key') <> (address, key) ->
              destdata_key address key <> destdata_key address' key').
    { intros address' key' Hne Heq. apply Hne.
      unfold destdata_key in Heq. injection Heq as -> ->. reflexivity. }
    split; [ exact Hrec | ]. split; [ reflexivity | ].
    split; [ intros address' key' Hne; apply Hother, Hkeys; exact Hne | ].
    intros b2 He. unfold EraseDestData, EraseIC in He.
    destruct (Erase_true _ _ _ He) as [Hrecs _]. rewrite Hrecs.
    split; [ apply db_lookup_del_eq | ].
    intros address' key' Hne.
    rewrite db_lookup_del_ne by (apply Hkeys; exact Hne).
    apply Hother, Hkeys. exact Hne.
Qed.
